(** * Nested JSON reader: node tree, column tree and string caster

    A shallow embedding of the nested JSON pipeline of libcudf
    (tokenizing pushdown automaton, node tree builder, column tree
    reduction, column materialisation and the device string caster),
    followed by the properties established about it. *)

From Stdlib Require Import String Ascii ZArith List Bool Lia Permutation Sorted.
Import ListNotations.
Open Scope Z_scope.

(* ================================================================== *)
(** * Part I.  Definitions *)
(* ================================================================== *)

(** ** Node categories ([node_t]) *)

(** Modelled from the spec: the enum [node_t] is declared in
    [nested_json.hpp], which is not among the sources; the node tree holds
    one of six categories per node. *)
Inductive node_t : Type :=
| NC_STRUCT | NC_LIST | NC_FN | NC_STR | NC_VAL | NC_ERR.

Definition node_eqb (a b : node_t) : bool :=
  match a, b with
  | NC_STRUCT, NC_STRUCT | NC_LIST, NC_LIST | NC_FN, NC_FN
  | NC_STR, NC_STR | NC_VAL, NC_VAL | NC_ERR, NC_ERR => true
  | _, _ => false
  end.

(** Modelled from the spec: [parent_node_sentinel] is declared in
    [nested_json.hpp]; [gather_column_info] compares parent ids with the
    literal [-1]. *)
Definition parent_node_sentinel : Z := -1.

(** ** Column tree reduction: the category merge operator *)

Module ColumnTree.

(** The two kinds of categories the merge rule distinguishes. *)
Definition is_leaf_category (c : node_t) : bool :=
  match c with NC_STR | NC_VAL => true | _ => false end.

Definition is_nested_category (c : node_t) : bool :=
  match c with NC_STRUCT | NC_LIST => true | _ => false end.

(** The lambda handed to [thrust::reduce_by_key] in [gather_column_info]
    (json_column.cu) and in [reduce_to_column_tree]. *)
Definition unify_categories (type_a type_b : node_t) : node_t :=
  let is_a_leaf := node_eqb type_a NC_VAL || node_eqb type_a NC_STR in
  let is_b_leaf := node_eqb type_b NC_VAL || node_eqb type_b NC_STR in
  if node_eqb type_a type_b then type_a
  else if is_a_leaf then
    (if node_eqb type_b NC_FN then NC_ERR
     else if is_b_leaf then NC_STR else type_b)
  else if is_b_leaf then
    (if node_eqb type_a NC_FN then NC_ERR
     else if is_a_leaf then NC_STR else type_a)
  else NC_ERR.

(** The lambda of [max_row_offsets_col_categories] (CSR variant): pairs of
    (row offset, category), merged with [thrust::maximum] on the first
    component and the same category rule on the second. *)
Definition max_row_offsets_col_categories_op (a b : Z * node_t) : Z * node_t :=
  let row_offset_a := fst a in
  let row_offset_b := fst b in
  let type_a := snd a in
  let type_b := snd b in
  let is_a_leaf := node_eqb type_a NC_VAL || node_eqb type_a NC_STR in
  let is_b_leaf := node_eqb type_b NC_VAL || node_eqb type_b NC_STR in
  let ctg :=
    if node_eqb type_a type_b then type_a
    else if is_a_leaf then
      (if node_eqb type_b NC_FN then NC_ERR
       else if is_b_leaf then NC_STR else type_b)
    else if is_b_leaf then
      (if node_eqb type_a NC_FN then NC_ERR
       else if is_a_leaf then NC_STR else type_a)
    else NC_ERR in
  (Z.max row_offset_a row_offset_b, ctg).

(** A way to combine a non-empty run of values with a binary operator:
    the shape of the tree is the grouping a parallel reduction chose, the
    leaves, left to right, are the order in which it visited the run. *)
Inductive grouping (A : Type) : Type :=
| One : A -> grouping A
| Join : grouping A -> grouping A -> grouping A.
Arguments One {A} _.
Arguments Join {A} _ _.

Fixpoint leaves {A} (g : grouping A) : list A :=
  match g with
  | One a => [a]
  | Join l r => leaves l ++ leaves r
  end.

Fixpoint reduce_grouping {A} (op : A -> A -> A) (g : grouping A) : A :=
  match g with
  | One a => a
  | Join l r => op (reduce_grouping op l) (reduce_grouping op r)
  end.

(** Sequential left-to-right reduction of a non-empty run. *)
Definition reduce_run {A} (op : A -> A -> A) (first : A) (rest : list A) : A :=
  fold_left op rest first.

(** [thrust::reduce_by_key] with [equal_to] on the keys: consecutive equal
    keys form a run, each run is reduced with [op]. *)
Fixpoint reduce_by_key_from {A} (op : A -> A -> A) (k : Z) (acc : A)
         (kvs : list (Z * A)) : list (Z * A) :=
  match kvs with
  | [] => [(k, acc)]
  | (k', v) :: tl =>
      if Z.eqb k k' then reduce_by_key_from op k (op acc v) tl
      else (k, acc) :: reduce_by_key_from op k' v tl
  end.

Definition reduce_by_key {A} (op : A -> A -> A) (kvs : list (Z * A))
  : list (Z * A) :=
  match kvs with
  | [] => []
  | (k, v) :: tl => reduce_by_key_from op k v tl
  end.

End ColumnTree.

(** ** Finite-state transducer and logical stack (io/fst) *)

Module Fst.

Section Transduce.
Context {State Out : Type}.
Variable transition : State -> nat -> State.
Variable translation : State -> nat -> list Out.

(** Modelled from the spec: [Dfa::Transduce] lives in io/fst, which is not
    among the sources.  Each input symbol (already mapped to its symbol
    group) selects a cell of the transition and of the translation table;
    the cell's output symbols are emitted together with the index of the
    input symbol, then the automaton moves to the cell's next state. *)
Fixpoint transduce (state : State) (pos : Z) (sgids : list nat)
  : list (Out * Z) :=
  match sgids with
  | [] => []
  | sg :: tl =>
      map (fun o => (o, pos)) (translation state sg)
      ++ transduce (transition state sg) (pos + 1) tl
  end.

Fixpoint final_state (state : State) (sgids : list nat) : State :=
  match sgids with
  | [] => state
  | sg :: tl => final_state (transition state sg) tl
  end.

End Transduce.

Inductive stack_op_type : Type := READ | PUSH | POP.

(** Modelled from the spec: [sparse_stack_op_to_top_of_stack] lives in
    io/fst/logical_stack.cuh, which is not among the sources.  For every
    input position the result holds the symbol on top of the stack when
    that position is read, i.e. before the operation of that position is
    applied ([root_symbol] for the empty stack), as the golden stack
    context of the StackContext test shows. *)
Fixpoint top_of_stack_from (to_op : Z -> stack_op_type) (root_symbol : Z)
         (stack : list Z) (ops : list Z) : list Z :=
  match ops with
  | [] => []
  | s :: tl =>
      hd root_symbol stack ::
      top_of_stack_from to_op root_symbol
        (match to_op s with
         | PUSH => s :: stack
         | POP => List.tl stack
         | READ => stack
         end) tl
  end.

End Fst.

(** ** Tokenizer (nested_json_gpu.cu) *)

Module Tokenizer.

(** Modelled from the spec: the enum [token_t] is declared in
    [nested_json.h], which is not among the sources; these are the tokens
    the translation table of nested_json_gpu.cu mentions. *)
Inductive token_t : Type :=
| TK_BOS | TK_BOL | TK_ERR | TK_BST | TK_EST | TK_BOV
| TK_POV | TK_EOS | TK_EOL | TK_BFN | TK_EFN.

Definition token_eqb (a b : token_t) : bool :=
  match a, b with
  | TK_BOS, TK_BOS | TK_BOL, TK_BOL | TK_ERR, TK_ERR | TK_BST, TK_BST
  | TK_EST, TK_EST | TK_BOV, TK_BOV | TK_POV, TK_POV | TK_EOS, TK_EOS
  | TK_EOL, TK_EOL | TK_BFN, TK_BFN | TK_EFN, TK_EFN => true
  | _, _ => false
  end.

(** *** The JSON-to-stack-op DFA ([to_stack_op]) *)

Inductive DFA_STATES : Type := TT_OOS | TT_STR | TT_ESC.

(** [DFA_SGID]: OBC, OBT, CBC, CBT, QTE, ESC, OTR are the groups 0..6. *)
Definition stack_op_symbol_group (c : Z) : nat :=
  if c =? 123 then 0        (* { *)
  else if c =? 91 then 1    (* [ *)
  else if c =? 125 then 2   (* } *)
  else if c =? 93 then 3    (* ] *)
  else if c =? 34 then 4    (* quote *)
  else if c =? 92 then 5    (* backslash *)
  else 6.

Definition to_stack_op_transition_table : list (list DFA_STATES) :=
  [ (* TT_OOS *) [TT_OOS; TT_OOS; TT_OOS; TT_OOS; TT_STR; TT_OOS; TT_OOS];
    (* TT_STR *) [TT_STR; TT_STR; TT_STR; TT_STR; TT_OOS; TT_STR; TT_STR];
    (* TT_ESC *) [TT_STR; TT_STR; TT_STR; TT_STR; TT_STR; TT_STR; TT_STR] ].

Definition x_sym : Z := 120.

Definition to_stack_op_translation_table : list (list (list Z)) :=
  [ (* TT_OOS *) [[123]; [91]; [125]; [93]; [x_sym]; [x_sym]; [x_sym]];
    (* TT_STR *) [[x_sym]; [x_sym]; [x_sym]; [x_sym]; [x_sym]; [x_sym]; [x_sym]];
    (* TT_ESC *) [[x_sym]; [x_sym]; [x_sym]; [x_sym]; [x_sym]; [x_sym]; [x_sym]] ].

Definition dfa_state_index (s : DFA_STATES) : nat :=
  match s with TT_OOS => 0 | TT_STR => 1 | TT_ESC => 2 end%nat.

Definition to_stack_op_transition (s : DFA_STATES) (sg : nat) : DFA_STATES :=
  nth sg (nth (dfa_state_index s) to_stack_op_transition_table []) TT_OOS.

Definition to_stack_op_translation (s : DFA_STATES) (sg : nat) : list Z :=
  nth sg (nth (dfa_state_index s) to_stack_op_translation_table []) [].

(** [JSONToStackOp] *)
Definition JSONToStackOp (stack_symbol : Z) : Fst.stack_op_type :=
  if (stack_symbol =? 123) || (stack_symbol =? 91) then Fst.PUSH
  else if (stack_symbol =? 125) || (stack_symbol =? 93) then Fst.POP
  else Fst.READ.

(** [get_stack_context]: one stack symbol per input byte
    ('_' root, '[' list, '{' struct). *)
Definition get_stack_context (d_json_in : list Z) : list Z :=
  let root_symbol := 95 in
  let d_stack_ops :=
    map fst (Fst.transduce to_stack_op_transition to_stack_op_translation
               TT_OOS 0 (map stack_op_symbol_group d_json_in)) in
  Fst.top_of_stack_from JSONToStackOp root_symbol [] d_stack_ops.

(** *** The tokenizing pushdown automaton ([tokenizer_pda]) *)

Inductive SGID : Type :=
| OBC | OBT | CBC | CBT | QTE | ESC | CMA | CLN | WSP | OTR.

Definition sgid_index (g : SGID) : nat :=
  match g with
  | OBC => 0 | OBT => 1 | CBC => 2 | CBT => 3 | QTE => 4
  | ESC => 5 | CMA => 6 | CLN => 7 | WSP => 8 | OTR => 9
  end%nat.

Definition NUM_PDA_INPUT_SGS : nat := 10.

Inductive STACK_SGID : Type := STACK_ROOT | STACK_LIST | STACK_STRUCT.

Definition stack_index (s : STACK_SGID) : nat :=
  match s with STACK_ROOT => 0 | STACK_LIST => 1 | STACK_STRUCT => 2 end%nat.

(** [tos_sg_to_pda_sgid], indexed by the input byte. *)
Definition tos_sg_to_pda_sgid : list SGID :=
  [OTR; OTR; OTR; OTR; OTR; OTR; OTR; OTR; OTR; WSP; WSP; OTR; OTR; WSP; OTR; OTR; OTR; OTR; OTR;
   OTR; OTR; OTR; OTR; OTR; OTR; OTR; OTR; OTR; OTR; OTR; OTR; OTR; WSP; OTR; QTE; OTR; OTR; OTR;
   OTR; OTR; OTR; OTR; OTR; OTR; CMA; OTR; OTR; OTR; OTR; OTR; OTR; OTR; OTR; OTR; OTR; OTR; OTR;
   OTR; CLN; OTR; OTR; OTR; OTR; OTR; OTR; OTR; OTR; OTR; OTR; OTR; OTR; OTR; OTR; OTR; OTR; OTR;
   OTR; OTR; OTR; OTR; OTR; OTR; OTR; OTR; OTR; OTR; OTR; OTR; OTR; OTR; OTR; OBT; ESC; CBT; OTR;
   OTR; OTR; OTR; OTR; OTR; OTR; OTR; OTR; OTR; OTR; OTR; OTR; OTR; OTR; OTR; OTR; OTR; OTR; OTR;
   OTR; OTR; OTR; OTR; OTR; OTR; OTR; OTR; OTR; OBC; OTR; CBC; OTR].

(** [PdaSymbolToSymbolGroupId]: the byte is clamped to the size of the
    lookup table, the stack symbol selects one of three blocks of groups.
    The clamp bounds the index from above only; the bytes are taken as
    non-negative (ASCII input), a byte of 0x80 or more is a negative
    [char] in the source and indexes the table before its start. *)
Definition stack_symbol_group (stack_symbol : Z) : STACK_SGID :=
  if stack_symbol =? 95 then STACK_ROOT
  else if stack_symbol =? 91 then STACK_LIST else STACK_STRUCT.

Definition PdaSymbolToSymbolGroupId (symbol stack_symbol : Z) : nat :=
  let stack_idx := stack_index (stack_symbol_group stack_symbol) in
  let symbol_gid :=
    nth (Z.to_nat (Z.min symbol (Z.of_nat (length tos_sg_to_pda_sgid) - 1)))
        tos_sg_to_pda_sgid OTR in
  (stack_idx * NUM_PDA_INPUT_SGS + sgid_index symbol_gid)%nat.

Inductive pda_state_t : Type :=
| PD_BOV | PD_BOA | PD_LON | PD_STR | PD_SCE | PD_PVL
| PD_BFN | PD_FLN | PD_FNE | PD_PFN | PD_ERR.

Definition pda_state_index (s : pda_state_t) : nat :=
  match s with
  | PD_BOV => 0 | PD_BOA => 1 | PD_LON => 2 | PD_STR => 3 | PD_SCE => 4
  | PD_PVL => 5 | PD_BFN => 6 | PD_FLN => 7 | PD_FNE => 8 | PD_PFN => 9
  | PD_ERR => 10
  end%nat.

Definition pda_state_eqb (a b : pda_state_t) : bool :=
  Nat.eqb (pda_state_index a) (pda_state_index b).

Definition start_state : pda_state_t := PD_BOV.

Definition get_transition_table : list (list pda_state_t) :=
  [ (* PD_BOV *)
    [PD_BOA; PD_BOA; PD_ERR; PD_ERR; PD_STR; PD_ERR; PD_ERR; PD_ERR; PD_BOV; PD_LON;
     PD_BOA; PD_BOA; PD_ERR; PD_ERR; PD_STR; PD_ERR; PD_ERR; PD_ERR; PD_BOV; PD_LON;
     PD_BOA; PD_BOA; PD_ERR; PD_ERR; PD_STR; PD_ERR; PD_ERR; PD_ERR; PD_BOV; PD_LON];
    (* PD_BOA *)
    [PD_ERR; PD_ERR; PD_ERR; PD_ERR; PD_ERR; PD_ERR; PD_ERR; PD_ERR; PD_ERR; PD_ERR;
     PD_BOA; PD_BOA; PD_ERR; PD_PVL; PD_STR; PD_ERR; PD_ERR; PD_ERR; PD_BOA; PD_LON;
     PD_ERR; PD_ERR; PD_PVL; PD_ERR; PD_FLN; PD_ERR; PD_ERR; PD_ERR; PD_BOA; PD_ERR];
    (* PD_LON *)
    [PD_ERR; PD_ERR; PD_ERR; PD_ERR; PD_ERR; PD_ERR; PD_ERR; PD_ERR; PD_PVL; PD_LON;
     PD_ERR; PD_ERR; PD_ERR; PD_PVL; PD_ERR; PD_ERR; PD_BOV; PD_ERR; PD_PVL; PD_LON;
     PD_ERR; PD_ERR; PD_PVL; PD_ERR; PD_ERR; PD_ERR; PD_BFN; PD_ERR; PD_PVL; PD_LON];
    (* PD_STR *)
    [PD_STR; PD_STR; PD_STR; PD_STR; PD_PVL; PD_SCE; PD_STR; PD_STR; PD_STR; PD_STR;
     PD_STR; PD_STR; PD_STR; PD_STR; PD_PVL; PD_SCE; PD_STR; PD_STR; PD_STR; PD_STR;
     PD_STR; PD_STR; PD_STR; PD_STR; PD_PVL; PD_SCE; PD_STR; PD_STR; PD_STR; PD_STR];
    (* PD_SCE *)
    [PD_STR; PD_STR; PD_STR; PD_STR; PD_STR; PD_STR; PD_STR; PD_STR; PD_STR; PD_STR;
     PD_STR; PD_STR; PD_STR; PD_STR; PD_STR; PD_STR; PD_STR; PD_STR; PD_STR; PD_STR;
     PD_STR; PD_STR; PD_STR; PD_STR; PD_STR; PD_STR; PD_STR; PD_STR; PD_STR; PD_STR];
    (* PD_PVL *)
    [PD_ERR; PD_ERR; PD_ERR; PD_ERR; PD_ERR; PD_ERR; PD_ERR; PD_ERR; PD_PVL; PD_ERR;
     PD_ERR; PD_ERR; PD_ERR; PD_PVL; PD_ERR; PD_ERR; PD_BOV; PD_ERR; PD_PVL; PD_ERR;
     PD_ERR; PD_ERR; PD_PVL; PD_ERR; PD_ERR; PD_ERR; PD_BFN; PD_ERR; PD_PVL; PD_ERR];
    (* PD_BFN *)
    [PD_ERR; PD_ERR; PD_ERR; PD_ERR; PD_ERR; PD_ERR; PD_ERR; PD_ERR; PD_ERR; PD_ERR;
     PD_ERR; PD_ERR; PD_ERR; PD_ERR; PD_ERR; PD_ERR; PD_ERR; PD_ERR; PD_ERR; PD_ERR;
     PD_ERR; PD_ERR; PD_ERR; PD_ERR; PD_FLN; PD_ERR; PD_ERR; PD_ERR; PD_BFN; PD_ERR];
    (* PD_FLN *)
    [PD_ERR; PD_ERR; PD_ERR; PD_ERR; PD_ERR; PD_ERR; PD_ERR; PD_ERR; PD_ERR; PD_ERR;
     PD_ERR; PD_ERR; PD_ERR; PD_ERR; PD_ERR; PD_ERR; PD_ERR; PD_ERR; PD_ERR; PD_ERR;
     PD_FLN; PD_FLN; PD_FLN; PD_FLN; PD_PFN; PD_FNE; PD_FLN; PD_FLN; PD_FLN; PD_FLN];
    (* PD_FNE *)
    [PD_ERR; PD_ERR; PD_ERR; PD_ERR; PD_ERR; PD_ERR; PD_ERR; PD_ERR; PD_ERR; PD_ERR;
     PD_ERR; PD_ERR; PD_ERR; PD_ERR; PD_ERR; PD_ERR; PD_ERR; PD_ERR; PD_ERR; PD_ERR;
     PD_FLN; PD_FLN; PD_FLN; PD_FLN; PD_FLN; PD_FLN; PD_FLN; PD_FLN; PD_FLN; PD_FLN];
    (* PD_PFN *)
    [PD_ERR; PD_ERR; PD_ERR; PD_ERR; PD_ERR; PD_ERR; PD_ERR; PD_ERR; PD_ERR; PD_ERR;
     PD_ERR; PD_ERR; PD_ERR; PD_ERR; PD_ERR; PD_ERR; PD_ERR; PD_ERR; PD_ERR; PD_ERR;
     PD_ERR; PD_ERR; PD_ERR; PD_ERR; PD_ERR; PD_ERR; PD_ERR; PD_BOV; PD_PFN; PD_ERR];
    (* PD_ERR *)
    [PD_ERR; PD_ERR; PD_ERR; PD_ERR; PD_ERR; PD_ERR; PD_ERR; PD_ERR; PD_ERR; PD_ERR;
     PD_ERR; PD_ERR; PD_ERR; PD_ERR; PD_ERR; PD_ERR; PD_ERR; PD_ERR; PD_ERR; PD_ERR;
     PD_ERR; PD_ERR; PD_ERR; PD_ERR; PD_ERR; PD_ERR; PD_ERR; PD_ERR; PD_ERR; PD_ERR] ].

Definition get_translation_table : list (list (list token_t)) :=
  [ (* PD_BOV *)
    [[TK_BOS]; [TK_BOL]; [TK_ERR]; [TK_ERR]; [TK_BST]; [TK_ERR]; [TK_ERR]; [TK_ERR];
     [];       [TK_BOV]; [TK_BOS]; [TK_BOL]; [TK_ERR]; [TK_ERR]; [TK_BST]; [TK_ERR];
     [TK_ERR]; [TK_ERR]; [];       [TK_BOV]; [TK_BOS]; [TK_BOL]; [TK_ERR]; [TK_ERR];
     [TK_BST]; [TK_ERR]; [TK_ERR]; [TK_ERR]; [];       [TK_BOV]];
    (* PD_BOA *)
    [[TK_ERR]; [TK_ERR]; [TK_ERR]; [TK_ERR]; [TK_ERR]; [TK_ERR]; [TK_ERR]; [TK_ERR];
     [TK_ERR]; [TK_ERR]; [TK_BOS]; [TK_BOL]; [TK_ERR]; [TK_EOL]; [TK_BST]; [TK_ERR];
     [TK_ERR]; [TK_ERR]; [];       [TK_BOV]; [TK_ERR]; [TK_ERR]; [TK_EOS]; [TK_ERR];
     [TK_BFN]; [TK_ERR]; [TK_ERR]; [TK_ERR]; [];       [TK_ERR]];
    (* PD_LON *)
    [[TK_ERR]; [TK_ERR]; [TK_ERR];         [TK_ERR];         [TK_ERR];
     [TK_ERR]; [TK_ERR]; [TK_ERR];         [TK_POV];         [];
     [TK_ERR]; [TK_ERR]; [TK_ERR];         [TK_POV; TK_EOL]; [TK_ERR];
     [TK_ERR]; [TK_POV]; [TK_ERR];         [TK_POV];         [];
     [TK_ERR]; [TK_ERR]; [TK_POV; TK_EOS]; [TK_ERR];         [TK_ERR];
     [TK_ERR]; [TK_POV]; [TK_ERR];         [TK_POV];         []];
    (* PD_STR *)
    [[]; []; []; []; [TK_EST]; []; []; []; []; [];       []; []; []; []; [TK_EST];
     []; []; []; []; [];       []; []; []; []; [TK_EST]; []; []; []; []; []];
    (* PD_SCE *)
    [[]; []; []; []; []; []; []; []; []; []; []; []; []; []; [];
     []; []; []; []; []; []; []; []; []; []; []; []; []; []; []];
    (* PD_PVL *)
    [[TK_ERR]; [TK_ERR]; [TK_ERR]; [TK_ERR]; [TK_ERR]; [TK_ERR]; [TK_ERR]; [TK_ERR];
     [];       [TK_ERR]; [TK_ERR]; [TK_ERR]; [TK_ERR]; [TK_EOL]; [TK_ERR]; [TK_ERR];
     [];       [TK_ERR]; [];       [TK_ERR]; [TK_ERR]; [TK_ERR]; [TK_EOS]; [TK_ERR];
     [TK_ERR]; [TK_ERR]; [];       [TK_ERR]; [];       [TK_ERR]];
    (* PD_BFN *)
    [[TK_ERR]; [TK_ERR]; [TK_ERR]; [TK_ERR]; [TK_ERR]; [TK_ERR]; [TK_ERR]; [TK_ERR];
     [TK_ERR]; [TK_ERR]; [TK_ERR]; [TK_ERR]; [TK_ERR]; [TK_ERR]; [TK_ERR]; [TK_ERR];
     [TK_ERR]; [TK_ERR]; [TK_ERR]; [TK_ERR]; [TK_ERR]; [TK_ERR]; [TK_ERR]; [TK_ERR];
     [TK_BFN]; [TK_ERR]; [TK_ERR]; [TK_ERR]; [];       [TK_ERR]];
    (* PD_FLN *)
    [[TK_ERR]; [TK_ERR]; [TK_ERR]; [TK_ERR]; [TK_ERR]; [TK_ERR]; [TK_ERR]; [TK_ERR];
     [TK_ERR]; [TK_ERR]; [TK_ERR]; [TK_ERR]; [TK_ERR]; [TK_ERR]; [TK_ERR]; [TK_ERR];
     [TK_ERR]; [TK_ERR]; [TK_ERR]; [TK_ERR]; [];       [];       [];       [];
     [TK_EFN]; [];       [];       [];       [];       []];
    (* PD_FNE *)
    [[TK_ERR]; [TK_ERR]; [TK_ERR]; [TK_ERR]; [TK_ERR]; [TK_ERR]; [TK_ERR]; [TK_ERR];
     [TK_ERR]; [TK_ERR]; [TK_ERR]; [TK_ERR]; [TK_ERR]; [TK_ERR]; [TK_ERR]; [TK_ERR];
     [TK_ERR]; [TK_ERR]; [TK_ERR]; [TK_ERR]; [];       [];       [];       [];
     [];       [];       [];       [];       [];       []];
    (* PD_PFN *)
    [[TK_ERR]; [TK_ERR]; [TK_ERR]; [TK_ERR]; [TK_ERR]; [TK_ERR]; [TK_ERR]; [TK_ERR];
     [TK_ERR]; [TK_ERR]; [TK_ERR]; [TK_ERR]; [TK_ERR]; [TK_ERR]; [TK_ERR]; [TK_ERR];
     [TK_ERR]; [TK_ERR]; [TK_ERR]; [TK_ERR]; [TK_ERR]; [TK_ERR]; [TK_ERR]; [TK_ERR];
     [TK_ERR]; [TK_ERR]; [TK_ERR]; [];       [];       [TK_ERR]];
    (* PD_ERR *)
    [[]; []; []; []; []; []; []; []; []; []; []; []; []; []; [];
     []; []; []; []; []; []; []; []; []; []; []; []; []; []; []] ].

Definition pda_transition (s : pda_state_t) (sg : nat) : pda_state_t :=
  nth sg (nth (pda_state_index s) get_transition_table []) PD_ERR.

Definition pda_translation (s : pda_state_t) (sg : nat) : list token_t :=
  nth sg (nth (pda_state_index s) get_translation_table []) [].

(** The effective symbol group of an input symbol group read under a
    stack context. *)
Definition pda_sgid (g : SGID) (s : STACK_SGID) : nat :=
  (stack_index s * NUM_PDA_INPUT_SGS + sgid_index g)%nat.

(** [get_token_stream]: tokens paired with the index of the input byte
    that produced them. *)
Definition get_token_stream (d_json_in : list Z) : list (token_t * Z) :=
  let d_top_of_stack := get_stack_context d_json_in in
  let d_pda_sgids :=
    map (fun p => PdaSymbolToSymbolGroupId (fst p) (snd p))
        (combine d_json_in d_top_of_stack) in
  Fst.transduce pda_transition pda_translation start_state 0 d_pda_sgids.

End Tokenizer.

(** ** Node tree builder ([get_tree_representation]) *)

Module NodeTree.
Import Tokenizer.

(** [tree_meta_t]: parallel arrays indexed by node id. *)
Record tree_meta_t : Type := mk_tree {
  node_categories : list node_t;
  parent_node_ids : list Z;
  node_levels : list Z;
  node_range_begin : list Z;
  node_range_end : list Z
}.

Definition empty_tree : tree_meta_t := mk_tree [] [] [] [] [].

(** Array access [v[i]] for an index held in a signed integer. *)
Definition at_index {A} (d : A) (v : list A) (i : Z) : A := nth (Z.to_nat i) v d.

(** Whether a token does represent a node in the tree representation *)
Definition is_node (token : token_t) : bool :=
  match token with
  | TK_BOS | TK_BOL | TK_BST | TK_BOV | TK_BFN | TK_ERR => true
  | _ => false
  end.

(** The node that a token represents *)
Definition token_to_node (token : token_t) : node_t :=
  match token with
  | TK_BOS => NC_STRUCT
  | TK_BOL => NC_LIST
  | TK_BST => NC_STR
  | TK_BOV => NC_VAL
  | TK_BFN => NC_FN
  | _ => NC_ERR
  end.

Definition get_token_index (token : token_t) (token_index : Z) : Z :=
  let skip_quote_char := 1 in
  match token with
  | TK_BST => token_index + skip_quote_char
  | TK_BFN => token_index + skip_quote_char
  | _ => token_index
  end.

(** Whether a token expects to be followed by its respective end-of-*
    token partner *)
Definition is_begin_of_section (token : token_t) : bool :=
  match token with
  | TK_BST | TK_BOV | TK_BFN => true
  | _ => false
  end.

(** The end-of-* partner token for a given beginning-of-* token *)
Definition end_of_partner (token : token_t) : token_t :=
  match token with
  | TK_BST => TK_EST
  | TK_BOV => TK_POV
  | TK_BFN => TK_EFN
  | _ => TK_ERR
  end.

(** Whether the token pops from the parent node stack *)
Definition does_pop (token : token_t) : bool :=
  match token with
  | TK_EOS | TK_EOL => true
  | _ => false
  end.

(** Whether the token pushes onto the parent node stack *)
Definition does_push (token : token_t) : bool :=
  match token with
  | TK_BOS | TK_BOL => true
  | _ => false
  end.

Definition field_name_node : bool := true.
Definition no_field_name_node : bool := false.

(** Modelled from the spec: [TreeDepthT], the type of the entries of
    [node_levels], is declared in nested_json.hpp, which is not among the
    sources, as a signed 8-bit integer.  [node_levels.push_back] converts
    [parent_stack.size()] to it: the value is kept modulo 256 in the range
    -128 .. 127. *)
Definition TreeDepthT_max : Z := 127.

Definition to_TreeDepthT (n : Z) : Z := (n + 128) mod 256 - 128.

Definition push_node (token : token_t) (range_begin range_end parent_node_id : Z)
           (depth : Z) (tree : tree_meta_t) : tree_meta_t :=
  mk_tree (node_categories tree ++ [token_to_node token])
          (parent_node_ids tree ++ [parent_node_id])
          (node_levels tree ++ [depth])
          (node_range_begin tree ++ [range_begin])
          (node_range_end tree ++ [range_end]).

Section Builder.

(** The test deciding, at a begin-of-section token, whether the token
    that follows is consumed together with it (first argument: the
    current token, second: the following one). *)
Variable consume_next : token_t -> token_t -> bool.

(** The token loop.  [skip] is set when the previous iteration executed
    [i++] to jump over the token it consumed; the parent stack is a list
    with its top at the head.  [None] stands for the exception of
    [CUDF_EXPECTS(parent_stack.size() >= 1, "Invalid JSON input.")].
    The tokens are the first [num_tokens_out[0]] entries of the token
    buffers, given here as a list of any length (the buffers of the
    source have one slot per input byte). *)
Fixpoint token_loop (tokens : list (token_t * Z)) (skip : bool)
         (parent_stack : list (Z * bool)) (node_id : Z) (tree : tree_meta_t)
  : option tree_meta_t :=
  match tokens with
  | [] => Some tree
  | (token, token_index) :: rest =>
      if skip then token_loop rest false parent_stack node_id tree
      else
        let range_begin := get_token_index token token_index in
        let parent_node_id :=
          match parent_stack with
          | top :: _ => fst top
          | [] => parent_node_sentinel
          end in
        let consumed :=
          is_begin_of_section token &&
          match rest with
          | (next, _) :: _ => consume_next token next
          | [] => false
          end in
        let range_end :=
          if consumed then
            match rest with
            | (_, next_index) :: _ => next_index
            | [] => range_begin + 1
            end
          else range_begin + 1 in
        let tree' :=
          if is_node token
          then push_node token range_begin range_end parent_node_id
                         (to_TreeDepthT (Z.of_nat (length parent_stack))) tree
          else tree in
        let pop_field_name (st : list (Z * bool)) :=
          match st with
          | top :: below => if snd top then below else st
          | [] => st
          end in
        let node_id' := if is_node token then node_id + 1 else node_id in
        if token_eqb token TK_BFN then
          token_loop rest consumed ((node_id, field_name_node) :: parent_stack)
                     node_id' tree'
        else if does_push token then
          token_loop rest consumed
                     (pop_field_name ((node_id, no_field_name_node) :: parent_stack))
                     node_id' tree'
        else if does_pop token then
          match parent_stack with
          | [] => None
          | _ :: below =>
              token_loop rest consumed (pop_field_name below) node_id' tree'
          end
        else
          token_loop rest consumed (pop_field_name parent_stack) node_id' tree'
  end.

Definition tree_of_tokens (tokens : list (token_t * Z)) : option tree_meta_t :=
  token_loop tokens false [] 0 empty_tree.

End Builder.

(** [get_tree_representation] of nested_json_gpu.cu.  Its loop consumes
    the following token when [end_of_partner(tokens_gpu[i + 1])],
    converted to [bool], is true, that is when that enumerator is not
    zero; the numbering of [token_t] is declared in [nested_json.h], which
    is not among the sources, so the test is a parameter. *)
Definition get_tree_representation (token_nonzero : token_t -> bool)
           (input : list Z) : option tree_meta_t :=
  tree_of_tokens (fun _ next => token_nonzero (end_of_partner next))
                 (get_token_stream input).

(** [get_tree_representation_cpu] of the tests, the host reference the
    device tree is compared with: the following token is consumed when it
    is the partner of the current one. *)
Definition get_tree_representation_cpu (input : list Z) : option tree_meta_t :=
  tree_of_tokens (fun token next => token_eqb (end_of_partner token) next)
                 (get_token_stream input).

(** The forest invariant the way the specification words it. *)
Definition forest_invariant (t : tree_meta_t) : Prop :=
  let n := Z.of_nat (length (parent_node_ids t)) in
  (exists i, 0 <= i < n /\
     at_index 0 (parent_node_ids t) i = parent_node_sentinel /\
     forall j, 0 <= j < n ->
       at_index 0 (parent_node_ids t) j = parent_node_sentinel -> j = i) /\
  (forall i, 0 <= i < n ->
     at_index 0 (parent_node_ids t) i <> parent_node_sentinel ->
     at_index 0 (node_levels t) i
       = at_index 0 (node_levels t) (at_index 0 (parent_node_ids t) i) + 1 /\
     at_index 0 (parent_node_ids t) i < i).

(** What the builder guarantees for a node: a root sits at level 0, any
    other node has an earlier node as parent, one level above it. *)
Definition node_ok (t : tree_meta_t) (i : Z) : Prop :=
  let p := at_index 0 (parent_node_ids t) i in
  (p = parent_node_sentinel /\ at_index 0 (node_levels t) i = 0) \/
  (0 <= p < i /\
   at_index 0 (node_levels t) i = at_index 0 (node_levels t) p + 1).

(** Invariant of the token loop: every entry of the parent stack is an
    already created node whose level is its height in the stack. *)
Fixpoint stack_ok (levels : list Z) (node_id : Z) (st : list (Z * bool)) : Prop :=
  match st with
  | [] => True
  | top :: below =>
      0 <= fst top < node_id /\
      at_index 0 levels (fst top) = Z.of_nat (length below) /\
      stack_ok levels node_id below
  end.

Definition arrays_aligned (t : tree_meta_t) (n : Z) : Prop :=
  Z.of_nat (length (node_categories t)) = n /\
  Z.of_nat (length (parent_node_ids t)) = n /\
  Z.of_nat (length (node_levels t)) = n /\
  Z.of_nat (length (node_range_begin t)) = n /\
  Z.of_nat (length (node_range_end t)) = n.

Definition builder_inv (st : list (Z * bool)) (node_id : Z) (t : tree_meta_t)
  : Prop :=
  arrays_aligned t node_id /\
  stack_ok (node_levels t) node_id st /\
  forall i, 0 <= i < node_id -> node_ok t i.

End NodeTree.

(** ** Test inputs *)

Definition bytes_of_string (s : string) : list Z :=
  map (fun a => Z.of_nat (nat_of_ascii a)) (list_ascii_of_string s).

(** JSON text written with an apostrophe in place of each double quote. *)
Definition json_bytes (s : string) : list Z :=
  map (fun c => if c =? 39 then 34 else c) (bytes_of_string s).

Definition string_of_bytes (l : list Z) : string :=
  string_of_list_ascii (map (fun c => ascii_of_nat (Z.to_nat c)) l).

(** ** Results of operations that may fail *)

(** [CUDF_EXPECTS] and [CUDF_FAIL] throw [cudf::logic_error] with a
    message; a read or write outside the bounds of a buffer has no defined
    result; a loop that is given no bound may not terminate. *)
Inductive failure : Type :=
| logic_error (msg : string)
| undefined_behaviour (what : string)
| out_of_fuel.

Inductive result (A : Type) : Type :=
| Ok (a : A)
| Fail (e : failure).
Arguments Ok {A} _.
Arguments Fail {A} _.

Definition bind {A B} (r : result A) (k : A -> result B) : result B :=
  match r with
  | Ok a => k a
  | Fail e => Fail e
  end.

Notation "x <- c ;; k" := (bind c (fun x => k))
  (at level 61, c at next level, right associativity).
Notation "' pat <- c ;; k" := (bind c (fun x => match x with pat => k end))
  (at level 61, pat pattern, c at next level, right associativity).

Definition CUDF_EXPECTS (cond : bool) (msg : string) : result unit :=
  if cond then Ok tt else Fail (logic_error msg).

Fixpoint for_each {A S} (f : A -> S -> result S) (l : list A) (s : S) : result S :=
  match l with
  | [] => Ok s
  | a :: tl => s' <- f a s ;; for_each f tl s'
  end.

(** ** Buffers *)

Module Buffer.

(** [v[i] = x]; a write outside the buffer is reported as undefined. *)
Fixpoint write_nat {A} (v : list A) (i : nat) (x : A) : option (list A) :=
  match v, i with
  | [], _ => None
  | _ :: tl, O => Some (x :: tl)
  | y :: tl, S i' =>
      match write_nat tl i' x with
      | Some tl' => Some (y :: tl')
      | None => None
      end
  end.

Definition write {A} (v : list A) (i : Z) (x : A) : result (list A) :=
  if i <? 0 then Fail (undefined_behaviour "write before the buffer")
  else match write_nat v (Z.to_nat i) x with
       | Some v' => Ok v'
       | None => Fail (undefined_behaviour "write past the buffer")
       end.

Definition read {A} (v : list A) (i : Z) : result A :=
  if i <? 0 then Fail (undefined_behaviour "read before the buffer")
  else match nth_error v (Z.to_nat i) with
       | Some x => Ok x
       | None => Fail (undefined_behaviour "read past the buffer")
       end.

(** The bytes [input[begin, end)]. *)
Definition slice {A} (input : list A) (range_begin range_end : Z) : list A :=
  firstn (Z.to_nat (range_end - range_begin)) (skipn (Z.to_nat range_begin) input).

Definition zeros (n : Z) : list Z := repeat 0 (Z.to_nat n).

(** [thrust::inclusive_scan] with a binary operator. *)
Fixpoint inclusive_scan_from {A} (op : A -> A -> A) (acc : A) (v : list A) : list A :=
  match v with
  | [] => []
  | x :: tl => let acc' := op acc x in acc' :: inclusive_scan_from op acc' tl
  end.

Definition inclusive_scan {A} (op : A -> A -> A) (v : list A) : list A :=
  match v with
  | [] => []
  | x :: tl => x :: inclusive_scan_from op x tl
  end.

(** The maximum of a buffer ([d] for the empty one). *)
Definition maximum (d : Z) (v : list Z) : Z :=
  match v with
  | [] => d
  | x :: tl => fold_left Z.max tl x
  end.

Definition sum (v : list Z) : Z := fold_left Z.add v 0.

End Buffer.

(** ** Column ids and row offsets of the nodes *)

Module Traversal.
Import NodeTree.

(** The columns met so far: the key of a column (column of the parent
    node, field name for field-name nodes) and the number of its nodes. *)
Definition column_key : Type := (Z * option (list Z))%type.

Definition key_eqb (a b : column_key) : bool :=
  (fst a =? fst b) &&
  match snd a, snd b with
  | None, None => true
  | Some x, Some y => if list_eq_dec Z.eq_dec x y then true else false
  | _, _ => false
  end.

Fixpoint find_column (k : column_key) (known : list (column_key * Z)) (pos : Z)
  : option (Z * Z) :=
  match known with
  | [] => None
  | (k', count) :: tl =>
      if key_eqb k k' then Some (pos, count) else find_column k tl (pos + 1)
  end.

Fixpoint bump_column (k : column_key) (known : list (column_key * Z))
  : list (column_key * Z) :=
  match known with
  | [] => [(k, 1)]
  | (k', count) :: tl =>
      if key_eqb k k' then (k', count + 1) :: tl else (k', count) :: bump_column k tl
  end.

(** The node ids [0 .. n-1] ([thrust::sequence]). *)
Definition sequence (n : nat) : list Z := map Z.of_nat (seq 0 n).

(** Modelled from the spec: [records_orient_tree_traversal] is not among
    the sources.  Nodes with the same parent column and the same field
    name share a column id (ids are handed out in the order in which the
    columns are first met, so the column of node 0 is column 0); the row
    offset of a node is its row index within its column: a child of a
    list, and a node without parent, takes the next free row of its
    column, every other node sits in the row of its parent. *)
Fixpoint traverse_nodes (input : list Z) (tree : tree_meta_t) (nodes : list Z)
         (known : list (column_key * Z)) (col_ids row_offsets : list Z)
  : list Z * list Z :=
  match nodes with
  | [] => (col_ids, row_offsets)
  | i :: rest =>
      let cat := at_index NC_ERR (node_categories tree) i in
      let p := at_index 0 (parent_node_ids tree) i in
      let parent_col :=
        if p =? parent_node_sentinel then parent_node_sentinel
        else at_index 0 col_ids p in
      let name :=
        if node_eqb cat NC_FN
        then Some (Buffer.slice input (at_index 0 (node_range_begin tree) i)
                                (at_index 0 (node_range_end tree) i))
        else None in
      let key := (parent_col, name) in
      let '(col, seen) :=
        match find_column key known 0 with
        | Some cs => cs
        | None => (Z.of_nat (length known), 0)
        end in
      let row :=
        if p =? parent_node_sentinel then seen
        else if node_eqb (at_index NC_ERR (node_categories tree) p) NC_LIST then seen
        else at_index 0 row_offsets p in
      traverse_nodes input tree rest (bump_column key known)
                     (col_ids ++ [col]) (row_offsets ++ [row])
  end.

Definition records_orient_tree_traversal (input : list Z) (tree : tree_meta_t)
  : list Z * list Z :=
  traverse_nodes input tree (sequence (length (node_categories tree))) [] [] [].

End Traversal.

(** ** Column tree reduction ([gather_column_info]) *)

Module Reducer.
Import NodeTree ColumnTree Traversal.

(** [thrust::stable_sort_by_key]. *)
Fixpoint insert_by {A} (key : A -> Z) (x : A) (sorted : list A) : list A :=
  match sorted with
  | [] => [x]
  | y :: tl => if key y <=? key x then y :: insert_by key x tl else x :: sorted
  end.

Definition stable_sort_by {A} (key : A -> Z) (v : list A) : list A :=
  fold_left (fun acc x => insert_by key x acc) v [].

(** [thrust::unique_by_key_copy]: the first value of every run of equal
    keys. *)
Fixpoint unique_by_key_from {A} (prev : Z) (kvs : list (Z * A)) : list A :=
  match kvs with
  | [] => []
  | (k, v) :: tl =>
      if k =? prev then unique_by_key_from prev tl
      else v :: unique_by_key_from k tl
  end.

Definition unique_by_key_copy {A} (kvs : list (Z * A)) : list A :=
  match kvs with
  | [] => []
  | (k, v) :: tl => v :: unique_by_key_from k tl
  end.

(** The column tree: one entry per unique column id. *)
Record column_tree : Type := mk_column_tree {
  unique_col_ids : list Z;
  column_categories : list node_t;
  parent_col_ids : list Z;
  column_levels : list Z;
  col_range_begin : list Z;
  col_range_end : list Z;
  max_row_offsets : list Z
}.

(** The functor of the [transform_if] that copies a list's row count to
    its descendants: walk up until the parent is a list or the sentinel.
    The loop reads [column_categories[parent_col_id]] before it compares
    [parent_col_id] with [-1]; the value read in that case is discarded by
    the conjunction.  The loop has no bound of its own; [fuel] bounds it by
    the number of columns. *)
Fixpoint list_ancestor_rows (fuel : nat) (categories : list node_t)
         (parents rows : list Z) (col_id parent_col_id : Z) : result Z :=
  match fuel with
  | O => Fail out_of_fuel
  | S fuel' =>
      if negb (node_eqb (at_index NC_ERR categories parent_col_id) NC_LIST)
         && negb (parent_col_id =? -1)
      then list_ancestor_rows fuel' categories parents rows
                              parent_col_id (at_index 0 parents parent_col_id)
      else Ok (at_index 0 rows col_id)
  end.

Fixpoint transform_rows (categories : list node_t) (parents rows : list Z)
         (cols : list (Z * Z)) : result (list Z) :=
  match cols with
  | [] => Ok []
  | (col_id, old) :: tl =>
      let parent_col_id := at_index 0 parents col_id in
      new <- (if negb (parent_col_id =? -1)
                 && negb (node_eqb (at_index NC_ERR categories parent_col_id) NC_LIST)
              then list_ancestor_rows (S (length categories)) categories parents rows
                                      col_id parent_col_id
              else Ok old) ;;
      rest <- transform_rows categories parents rows tl ;;
      Ok (new :: rest)
  end.

Definition gather_column_info (tree : tree_meta_t) (col_ids row_offsets : list Z)
  : result column_tree :=
  (* 1. sort_by_key {col_id}, {node_id, row_offset} *)
  let node_ids := sequence (length row_offsets) in
  let sorted :=
    stable_sort_by fst (combine col_ids (combine node_ids row_offsets)) in
  (* 2. reduce_by_key {col_id}, {row_offset}, max *)
  let max_rows :=
    reduce_by_key Z.max (map (fun r => (fst r, snd (snd r))) sorted) in
  (* 3. reduce_by_key {col_id}, {node_categories}, custom operator *)
  let categories :=
    reduce_by_key unify_categories
      (map (fun r => (fst r, at_index NC_ERR (node_categories tree) (fst (snd r))))
           sorted) in
  let firsts := unique_by_key_copy (map (fun r => (fst r, fst (snd r))) sorted) in
  (* convert parent_node_ids to parent_col_ids *)
  let parents :=
    map (fun node =>
           let parent_node_id := at_index 0 (parent_node_ids tree) node in
           if parent_node_id =? -1 then -1 else at_index 0 col_ids parent_node_id)
        firsts in
  let cats := map snd categories in
  (* copy lists' max_row_offsets to children *)
  rows <- transform_rows cats parents (map snd max_rows)
                         (combine (map fst max_rows) (map snd max_rows)) ;;
  Ok (mk_column_tree
        (map fst max_rows) cats parents
        (map (at_index 0 (node_levels tree)) firsts)
        (map (at_index 0 (node_range_begin tree)) firsts)
        (map (at_index 0 (node_range_end tree)) firsts)
        rows).

End Reducer.

(** ** Column materialisation ([make_json_column2]) *)

Module Materializer.
Import NodeTree Traversal Reducer.

Inductive json_col_t : Type :=
| StringColumn | ListColumn | StructColumn | Unknown.

Definition json_col_eqb (a b : json_col_t) : bool :=
  match a, b with
  | StringColumn, StringColumn | ListColumn, ListColumn
  | StructColumn, StructColumn | Unknown, Unknown => true
  | _, _ => false
  end.

(** [d_json_column]: the buffers of a column and its children.
    [child_columns] is a [std::map], kept sorted by name; the validity
    bitmask holds one bit per row. *)
#[local] Unset Elimination Schemes.
Inductive d_json_column : Type := mk_json_column {
  col_type : json_col_t;
  string_offsets : list Z;
  string_lengths : list Z;
  child_offsets : list Z;
  validity : list bool;
  child_columns : list (string * d_json_column);
  column_order : list string;
  current_offset : Z
}.
#[local] Set Elimination Schemes.

(** A column while it is built: the children are held by column id, the
    way the [columns] map of [make_json_column2] refers to them. *)
Record column_buffers : Type := mk_buffers {
  b_type : json_col_t;
  b_string_offsets : list Z;
  b_string_lengths : list Z;
  b_child_offsets : list Z;
  b_validity : list bool;
  b_children : list (string * Z);
  b_column_order : list string;
  b_current_offset : Z
}.

Definition empty_buffers : column_buffers :=
  mk_buffers Unknown [] [] [] [] [] [] 0.

Definition to_json_col_type (category : node_t) : json_col_t :=
  match category with
  | NC_STRUCT => StructColumn
  | NC_LIST => ListColumn
  | NC_STR | NC_VAL => StringColumn
  | _ => Unknown
  end.

Definition initialize_json_columns (ct : column_tree) (i : Z) (col : column_buffers)
  : column_buffers :=
  let category := at_index NC_ERR (column_categories ct) i in
  let rows := at_index 0 (max_row_offsets ct) i in
  if node_eqb category NC_ERR || node_eqb category NC_FN then col
  else
    let col1 :=
      if node_eqb category NC_VAL || node_eqb category NC_STR then
        mk_buffers (b_type col) (Buffer.zeros (rows + 1)) (Buffer.zeros (rows + 1))
                   (b_child_offsets col) (b_validity col) (b_children col)
                   (b_column_order col) (b_current_offset col)
      else if node_eqb category NC_LIST then
        mk_buffers (b_type col) (b_string_offsets col) (b_string_lengths col)
                   (Buffer.zeros (rows + 2)) (b_validity col) (b_children col)
                   (b_column_order col) (b_current_offset col)
      else col in
    mk_buffers (to_json_col_type category) (b_string_offsets col1)
               (b_string_lengths col1) (b_child_offsets col1)
               (repeat false (Z.to_nat (rows + 1))) (b_children col1)
               (b_column_order col1) (rows + 1).

(** Association lists for the maps keyed by column id. *)
Fixpoint lookup {A} (k : Z) (m : list (Z * A)) : option A :=
  match m with
  | [] => None
  | (k', v) :: tl => if k =? k' then Some v else lookup k tl
  end.

Fixpoint erase {A} (k : Z) (m : list (Z * A)) : list (Z * A) :=
  match m with
  | [] => []
  | (k', v) :: tl => if k =? k' then erase k tl else (k', v) :: erase k tl
  end.

Definition store {A} (k : Z) (v : A) (m : list (Z * A)) : list (Z * A) :=
  (k, v) :: erase k m.

Fixpoint lookup_name {A} (name : string) (m : list (string * A)) : option A :=
  match m with
  | [] => None
  | (n, v) :: tl => if String.eqb name n then Some v else lookup_name name tl
  end.

Definition erase_name {A} (name : string) (m : list (string * A))
  : list (string * A) :=
  filter (fun e => negb (String.eqb name (fst e))) m.

(** Insertion into a [std::map] keyed by name (ordered by key). *)
Fixpoint insert_name {A} (name : string) (v : A) (m : list (string * A))
  : list (string * A) :=
  match m with
  | [] => [(name, v)]
  | (n, w) :: tl =>
      if String.eqb name n then (n, v) :: tl
      else if String.ltb name n then (name, v) :: m
      else (n, w) :: insert_name name v tl
  end.

Definition lookup_key (parent : Z) (name : string)
           (m : list ((Z * string) * Z)) : option Z :=
  match find (fun e => (fst (fst e) =? parent) && String.eqb (snd (fst e)) name) m with
  | Some e => Some (snd e)
  | None => None
  end.

Definition erase_key (parent : Z) (name : string)
           (m : list ((Z * string) * Z)) : list ((Z * string) * Z) :=
  filter (fun e => negb ((fst (fst e) =? parent) && String.eqb (snd (fst e)) name)) m.

(** The state of the loop that builds the tree of columns. *)
Record build_state : Type := mk_build {
  columns : list (Z * column_buffers);
  mapped_columns : list ((Z * string) * Z);
  ignore_vals : list Z
}.

Definition set_children (col : column_buffers) (children : list (string * Z))
           (order : list string) : column_buffers :=
  mk_buffers (b_type col) (b_string_offsets col) (b_string_lengths col)
             (b_child_offsets col) (b_validity col) children order
             (b_current_offset col).

(** One iteration of the loop over [unique_col_ids] (early revision,
    json_column.cu). *)
Definition build_column (ct : column_tree) (column_names : list string)
           (this_col_id : Z) (st : build_state) : result build_state :=
  let category_of := at_index NC_ERR (column_categories ct) in
  let parent_of := at_index 0 (parent_col_ids ct) in
  if node_eqb (category_of this_col_id) NC_ERR || node_eqb (category_of this_col_id) NC_FN
  then Ok st
  else
    (* Struct, List, String, Value *)
    let col := initialize_json_columns ct this_col_id empty_buffers in
    let parent_col_id := parent_of this_col_id in
    '(parent_col_id, name) <-
      (if node_eqb (category_of parent_col_id) NC_FN then
         Ok (parent_of parent_col_id, at_index EmptyString column_names parent_col_id)
       else if node_eqb (category_of parent_col_id) NC_LIST then
         Ok (parent_col_id, "element"%string)
       else Fail (logic_error "Unexpected parent column category")) ;;
    match lookup parent_col_id (columns st) with
    | None => Fail (logic_error "Parent column not found")
    | Some parent_col =>
        let mapped := lookup_key parent_col_id name (mapped_columns st) in
        if match mapped with Some _ => node_eqb (category_of this_col_id) NC_VAL
                            | None => false end
        then
          ignore' <- Buffer.write (ignore_vals st) this_col_id 1 ;;
          Ok (mk_build (columns st) (mapped_columns st) ignore')
        else
          st1 <-
            match mapped with
            | Some old_col_id =>
                if node_eqb (category_of old_col_id) NC_VAL then
                  (* remap *)
                  ignore' <- Buffer.write (ignore_vals st) old_col_id 1 ;;
                  Ok (mk_build
                        (store parent_col_id
                               (set_children parent_col
                                  (erase_name name (b_children parent_col))
                                  (b_column_order parent_col))
                               (erase old_col_id (columns st)))
                        (erase_key parent_col_id name (mapped_columns st))
                        ignore')
                else Ok st
            | None => Ok st
            end ;;
          match lookup parent_col_id (columns st1) with
          | None => Fail (undefined_behaviour "dangling parent column")
          | Some parent_col1 =>
              _ <- CUDF_EXPECTS
                     (match lookup_name name (b_children parent_col1) with
                      | None => true | Some _ => false end)
                     "duplicate column name" ;;
              let parent_col2 :=
                set_children parent_col1
                  (insert_name name this_col_id (b_children parent_col1))
                  (b_column_order parent_col1 ++ [name]) in
              Ok (mk_build
                    (store this_col_id col
                           (store parent_col_id parent_col2 (columns st1)))
                    (match lookup_key parent_col_id name (mapped_columns st1) with
                     | Some _ => mapped_columns st1
                     | None => ((parent_col_id, name), this_col_id)
                               :: mapped_columns st1
                     end)
                    (ignore_vals st1))
          end
    end.

Definition with_column (col_id : Z)
           (f : column_buffers -> result column_buffers)
           (cols : list (Z * column_buffers)) : result (list (Z * column_buffers)) :=
  match lookup col_id cols with
  | None => Fail (undefined_behaviour "write through a null column buffer")
  | Some col => col' <- f col ;; Ok (store col_id col' cols)
  end.

Definition set_bit (row : Z) (col : column_buffers) : result column_buffers :=
  v <- Buffer.write (b_validity col) row true ;;
  Ok (mk_buffers (b_type col) (b_string_offsets col) (b_string_lengths col)
                 (b_child_offsets col) v (b_children col) (b_column_order col)
                 (b_current_offset col)).

Definition set_string (row range_begin range_end : Z) (col : column_buffers)
  : result column_buffers :=
  offs <- Buffer.write (b_string_offsets col) row range_begin ;;
  lens <- Buffer.write (b_string_lengths col) row (range_end - range_begin) ;;
  Ok (mk_buffers (b_type col) offs lens (b_child_offsets col) (b_validity col)
                 (b_children col) (b_column_order col) (b_current_offset col)).

Definition set_child_offset (row value : Z) (col : column_buffers)
  : result column_buffers :=
  offs <- Buffer.write (b_child_offsets col) row value ;;
  Ok (mk_buffers (b_type col) (b_string_offsets col) (b_string_lengths col) offs
                 (b_validity col) (b_children col) (b_column_order col)
                 (b_current_offset col)).

(** 3. scatter offsets to respective columns: the body of the
    [for_each_n] over the nodes. *)
Definition scatter_node (tree : tree_meta_t) (col_ids row_offsets ignore : list Z)
           (i : Z) (cols : list (Z * column_buffers))
  : result (list (Z * column_buffers)) :=
  let col_id := at_index 0 col_ids i in
  let row := at_index 0 row_offsets i in
  let write_string :=
    with_column col_id
      (fun col =>
         col1 <- set_bit row col ;;
         set_string row (at_index 0 (node_range_begin tree) i)
                    (at_index 0 (node_range_end tree) i) col1) cols in
  match at_index NC_ERR (node_categories tree) i with
  | NC_STRUCT => with_column col_id (set_bit row) cols
  | NC_LIST => with_column col_id (set_bit row) cols
  | NC_VAL => if negb (at_index 0 ignore col_id =? 0) then Ok cols else write_string
  | NC_STR => write_string
  | _ => Ok cols
  end.

(** The number of characters a String column holds: the sum of the
    lengths of its rows. *)
Definition chars_written (col : d_json_column) : Z :=
  Buffer.sum (string_lengths col).

Section ListOffsets.

(** What the kernel finds at [col_ids[num_nodes]], one element past the
    end of the sorted column ids, when it looks at the last node. *)
Variable past_the_end : Z.

(** Scatter of the list offsets: the body of the [for_each_n] over the
    nodes sorted by column id.  [sorted] holds (col_id, node_id) pairs. *)
Definition scatter_list_offset (tree : tree_meta_t)
           (original_col_ids row_offsets : list Z) (sorted : list (Z * Z))
           (i : Z) (cols : list (Z * column_buffers))
  : result (list (Z * column_buffers)) :=
  let num_nodes := Z.of_nat (length sorted) in
  let col_at j := if j <? num_nodes then fst (at_index (0, 0) sorted j)
                  else past_the_end in
  let parent_at j := at_index 0 (parent_node_ids tree) (snd (at_index (0, 0) sorted j)) in
  let row_at j := at_index 0 row_offsets (snd (at_index (0, 0) sorted j)) in
  let parent_node_id := parent_at i in
  if negb (parent_node_id =? -1)
     && node_eqb (at_index NC_ERR (node_categories tree) parent_node_id) NC_LIST
  then
    let list_col := at_index 0 original_col_ids parent_node_id in
    let list_row := at_index 0 row_offsets parent_node_id in
    (* unique item *)
    cols1 <- (if (i =? 0)
                 || (negb (col_at (i - 1) =? col_at i)
                     || negb (parent_at (i - 1) =? parent_node_id))
              then with_column list_col (set_child_offset list_row (row_at i)) cols
              else Ok cols) ;;
    (* last value of list child_offset is its size *)
    if (i =? num_nodes) || negb (col_at i =? col_at (i + 1))
    then with_column list_col (set_child_offset (list_row + 1) (row_at i + 1)) cols1
    else Ok cols1
  else Ok cols.

(** 5. scan on offsets. *)
Definition scan_offsets (col : column_buffers) : column_buffers :=
  match b_type col with
  | StringColumn =>
      mk_buffers (b_type col) (Buffer.inclusive_scan Z.max (b_string_offsets col))
                 (b_string_lengths col) (b_child_offsets col) (b_validity col)
                 (b_children col) (b_column_order col) (b_current_offset col)
  | ListColumn =>
      mk_buffers (b_type col) (b_string_offsets col) (b_string_lengths col)
                 (Buffer.inclusive_scan Z.max (b_child_offsets col)) (b_validity col)
                 (b_children col) (b_column_order col) (b_current_offset col)
  | _ => col
  end.

(** The tree of columns below the column [id], read off the store. *)
Fixpoint assemble (fuel : nat) (cols : list (Z * column_buffers)) (id : Z)
  : d_json_column :=
  let col := match lookup id cols with Some c => c | None => empty_buffers end in
  mk_json_column (b_type col) (b_string_offsets col) (b_string_lengths col)
                 (b_child_offsets col) (b_validity col)
                 (match fuel with
                  | O => []
                  | S fuel' =>
                      map (fun e => (fst e, assemble fuel' cols (snd e)))
                          (b_children col)
                  end)
                 (b_column_order col) (b_current_offset col).

Definition make_json_column2 (input : list Z) (tree : tree_meta_t)
           (col_ids row_offsets : list Z) : result d_json_column :=
  (* 1. gather column information *)
  ct <- gather_column_info tree col_ids row_offsets ;;
  let num_columns := length (unique_col_ids ct) in
  let column_names :=
    map (fun r => string_of_bytes (Buffer.slice input (fst r) (snd r)))
        (combine (col_range_begin ct) (col_range_end ct)) in
  (* reorder unique_col_ids w.r.t. column_range_begin *)
  let ordered :=
    map snd (stable_sort_by fst (combine (col_range_begin ct) (unique_col_ids ct))) in
  match ordered with
  | [] => Fail (undefined_behaviour "column 0 of an empty column tree")
  | first :: others =>
      (* 2. generate columns data *)
      let root := initialize_json_columns ct 0 empty_buffers in
      built <- for_each (build_column ct column_names) others
                        (mk_build [(first, root)] [] (Buffer.zeros (Z.of_nat num_columns))) ;;
      (* 3. scatter offsets to respective columns *)
      let nodes := sequence (length col_ids) in
      cols1 <- for_each (scatter_node tree col_ids row_offsets (ignore_vals built))
                        nodes (columns built) ;;
      (* scatter List offset *)
      let sorted := stable_sort_by fst (combine col_ids nodes) in
      cols2 <- for_each (scatter_list_offset tree col_ids row_offsets sorted)
                        nodes cols1 ;;
      (* scan on offsets *)
      let cols3 := map (fun e => (fst e, scan_offsets (snd e))) cols2 in
      Ok (assemble num_columns cols3 first)
  end.

End ListOffsets.

End Materializer.

(** ** Output columns and [parse_nested_json2] *)

Module Reader.
Import Tokenizer NodeTree Traversal Reducer Materializer.

(** The columns handed to the caller.  A null mask is the list of its
    validity bits, the empty list when the column has no mask. *)
#[local] Unset Elimination Schemes.
Inductive column : Type :=
| strings_column (rows : list (list Z)) (null_mask : list bool) (null_count : Z)
| structs_column (num_rows : Z) (children : list column)
                 (null_mask : list bool) (null_count : Z)
| lists_column (num_rows : Z) (offsets : list Z) (child : column)
               (null_mask : list bool) (null_count : Z).

Inductive column_name_info : Type :=
| name_info (name : string) (children : list column_name_info).
#[local] Set Elimination Schemes.

Definition column_size (c : column) : Z :=
  match c with
  | strings_column rows _ _ => Z.of_nat (length rows)
  | structs_column num_rows _ _ _ => num_rows
  | lists_column num_rows _ _ _ _ => num_rows
  end.

(** [make_validity]: the mask is dropped when no row is null. *)
Definition make_validity (validity : list bool) (current_offset : Z)
  : list bool * Z :=
  let null_count :=
    Z.of_nat (length (filter negb (firstn (Z.to_nat current_offset) validity))) in
  if null_count =? 0 then ([], 0) else (validity, null_count).

(** [json_column_to_cudf_column2] (json_column.cu).  The source moves
    the validity and offset buffers out of the column it converts; the
    function is given as the conversion of a column that has not been
    converted before. *)
Fixpoint json_column_to_cudf_column2 (d_input : list Z) (json_col : d_json_column)
         {struct json_col} : result (column * list column_name_info) :=
  match json_col with
  | mk_json_column type offsets lengths child_offs valid children order current =>
      match type with
      | StringColumn =>
          _ <- CUDF_EXPECTS (length offsets =? length lengths)%nat
                            "string offset, string length mismatch" ;;
          let rows :=
            map (fun ip => Buffer.slice d_input (fst ip) (fst ip + snd ip))
                (combine offsets lengths) in
          let '(result_bitmask, null_count) := make_validity valid current in
          Ok (strings_column rows result_bitmask null_count,
              [name_info "offsets" []; name_info "chars" []])
      | StructColumn =>
          let num_rows := current in
          converted <-
            (fix each (names : list string)
               : result (list column * list column_name_info) :=
               match names with
               | [] => Ok ([], [])
               | col_name :: rest =>
                   cn <-
                     (fix find_child (l : list (string * d_json_column))
                        : result (column * list column_name_info) :=
                        match l with
                        | [] => Fail (undefined_behaviour
                                        "child_columns.find returned end()")
                        | (n, child_col) :: tl =>
                            if String.eqb col_name n
                            then json_column_to_cudf_column2 d_input child_col
                            else find_child tl
                        end) children ;;
                   _ <- CUDF_EXPECTS (num_rows =? column_size (fst cn))
                                     "All children columns must have the same size" ;;
                   others <- each rest ;;
                   Ok (fst cn :: fst others,
                       name_info col_name (snd cn) :: snd others)
               end) order ;;
          let '(result_bitmask, null_count) := make_validity valid current in
          Ok (structs_column num_rows (fst converted) result_bitmask null_count,
              snd converted)
      | ListColumn =>
          let num_rows := Z.of_nat (length child_offs) in
          match children with
          | [] => Fail (undefined_behaviour "child_columns.begin() of an empty map")
          | (child_name, child_col) :: _ =>
              cn <- json_column_to_cudf_column2 d_input child_col ;;
              let '(result_bitmask, null_count) := make_validity valid current in
              Ok (lists_column (num_rows - 1) child_offs (fst cn)
                               result_bitmask null_count,
                  [name_info "offsets" []; name_info child_name (snd cn)])
          end
      | Unknown =>
          Fail (logic_error "Unsupported column type, yet to be implemented")
      end
  end.

(** [table_with_metadata]: the columns and the schema with their names. *)
Definition table_with_metadata : Type := (list column * list column_name_info)%type.

Definition single_child_col_count : nat := 1.

(** The condition of the [CUDF_EXPECTS] of [parse_nested_json2]. *)
Definition is_array_of_objects (data_root : d_json_column) : bool :=
  json_col_eqb (col_type data_root) ListColumn
  && (length (child_columns data_root) =? single_child_col_count)%nat
  && match child_columns data_root with
     | (_, first_child) :: _ => json_col_eqb (col_type first_child) StructColumn
     | [] => false
     end.

Definition not_array_of_objects : string :=
  "Currently the nested JSON parser only supports an array of (nested) objects".

Section Table.

(** The conversion of a column of the root struct
    ([json_column_to_cudf_column2]; the later revision passes the reader
    options and a schema to it as well). *)
Variable convert : d_json_column -> result (column * list column_name_info).

(** The last part of [parse_nested_json2], from the check of the data
    root on; it is the same in both revisions. *)
Definition table_of_data_root (data_root : d_json_column) : result table_with_metadata :=
  (* Verify that we were in fact given a list of structs *)
  _ <- CUDF_EXPECTS (is_array_of_objects data_root) not_array_of_objects ;;
  match child_columns data_root with
  | [] => Fail (undefined_behaviour "child_columns.begin() of an empty map")
  | (_, root_struct_col) :: _ =>
      for_each
        (fun col_name (out : table_with_metadata) =>
           match lookup_name col_name (child_columns root_struct_col) with
           | None => Fail (undefined_behaviour "child_columns.find returned end()")
           | Some json_col =>
               cn <- convert json_col ;;
               Ok (fst out ++ [fst cn], snd out ++ [name_info col_name (snd cn)])
           end)
        (column_order root_struct_col) ([], [])
  end.

End Table.



Section Parse.

Variable past_the_end : Z.

(** [parse_nested_json2] (json_column.cu).  The device tree builder it
    calls is not among the sources; the host builder of the tests, which
    the device tree is compared with, stands for it. *)
Definition parse_nested_json2 (input : list Z) (new_line_delimited_json : bool)
  : result table_with_metadata :=
  match get_tree_representation_cpu input with
  | None => Fail (logic_error "Invalid JSON input.")
  | Some gpu_tree =>
      let '(gpu_col_id, gpu_row_offsets) :=
        records_orient_tree_traversal input gpu_tree in
      _ <- gather_column_info gpu_tree gpu_col_id gpu_row_offsets ;;
      (* Get internal JSON column *)
      root_column <- make_json_column2 past_the_end input gpu_tree
                                       gpu_col_id gpu_row_offsets ;;
      (* data_root refers to the root column in both branches *)
      let data_root := if new_line_delimited_json then root_column else root_column in
      table_of_data_root (json_column_to_cudf_column2 input) data_root
  end.

End Parse.

End Reader.

(** ** Device string caster (io/utilities/data_casting.cu) *)

Module Caster.
Import NodeTree.

Definition SINGLE_THREAD_THRESHOLD : Z := 128.
Definition WARP_THRESHOLD : Z := 1024.

(** Unicode code point escape sequence *)
Definition UNICODE_SEQ : Z := 127.
(** Invalid escape sequence *)
Definition NON_ESCAPE_CHAR : Z := 126.
Definition UNICODE_ESC_PREFIX : Z := 2.
Definition UNICODE_HEX_DIGIT_COUNT : Z := 4.
Definition NUM_UNICODE_ESC_SEQ_CHARS : Z := UNICODE_ESC_PREFIX + UNICODE_HEX_DIGIT_COUNT.
Definition UTF16_HIGH_SURROGATE_BEGIN : Z := 55296.  (* 0xD800 *)
Definition UTF16_HIGH_SURROGATE_END : Z := 56320.    (* 0xDC00 *)
Definition UTF16_LOW_SURROGATE_BEGIN : Z := 56320.   (* 0xDC00 *)
Definition UTF16_LOW_SURROGATE_END : Z := 57344.     (* 0xE000 *)

Definition backslash_char : Z := 92.
Definition u_char : Z := 117.

Inductive data_casting_result : Type :=
| PARSING_SUCCESS | PARSED_TO_NULL | PARSING_FAILURE.

Definition is_success (r : data_casting_result) : bool :=
  match r with PARSING_SUCCESS => true | _ => false end.

(** [data_casting_result_info], together with the bytes that were stored
    through [d_buffer] (they are stored only when [d_buffer] is not null). *)
Record data_casting_result_info : Type := mk_info {
  bytes : Z;
  written : list Z;
  result_code : data_casting_result
}.

(** [parse_options_view]: the fields the caster reads.  The serialized
    trie of the null literals is represented by its membership test. *)
Record parse_options_view : Type := mk_options {
  quotechar : Z;
  keepquotes : bool;
  trie_na : list Z -> bool
}.

Definition get_escape_char (escaped_char : Z) : Z :=
  if escaped_char =? 34 then 34           (* quote *)
  else if escaped_char =? 92 then 92      (* '\\' *)
  else if escaped_char =? 47 then 47      (* '/' *)
  else if escaped_char =? 98 then 8       (* 'b' -> '\b' *)
  else if escaped_char =? 102 then 12     (* 'f' -> '\f' *)
  else if escaped_char =? 110 then 10     (* 'n' -> '\n' *)
  else if escaped_char =? 114 then 13     (* 'r' -> '\r' *)
  else if escaped_char =? 116 then 9      (* 't' -> '\t' *)
  else if escaped_char =? 117 then UNICODE_SEQ  (* 'u' *)
  else NON_ESCAPE_CHAR.

Definition hex_digit (ch : Z) : option Z :=
  if (48 <=? ch) && (ch <=? 57) then Some ((ch - 48) + 0)
  else if (65 <=? ch) && (ch <=? 70) then Some ((ch - 65) + 10)
  else if (97 <=? ch) && (ch <=? 102) then Some ((ch - 97) + 10)
  else None.

Definition is_hex (ch : Z) : bool :=
  ((48 <=? ch) && (ch <=? 57)) || ((65 <=? ch) && (ch <=? 70))
  || ((97 <=? ch) && (ch <=? 102)).

(** [parse_unicode_hex]: the four characters at [str] are read from the
    last to the first; the result is -1 when one of them is no hex digit
    (a character past the end of the model's buffer reads as 0). *)
Fixpoint parse_hex_from (str : list Z) (index : nat) (result base : Z) : Z :=
  match index with
  | O => result
  | S index' =>
      match hex_digit (nth index' str 0) with
      | Some v => parse_hex_from str index' (result + v * base) (base * 16)
      | None => -1
      end
  end.

Definition parse_unicode_hex (str : list Z) : Z := parse_hex_from str 4 0 1.

(** Modelled from the spec: [codepoint_to_utf8], [bytes_in_char_utf8] and
    [from_char_utf8] are declared in cudf/strings/detail/utf8.hpp, which
    is not among the sources; together they store the UTF-8 encoding of
    a code point. *)
Definition codepoint_to_utf8 (unchr : Z) : list Z :=
  if unchr <? 128 then [unchr]
  else if unchr <? 2048 then
    [192 + Z.shiftr unchr 6; 128 + Z.land unchr 63]
  else if unchr <? 65536 then
    [224 + Z.shiftr unchr 12; 128 + Z.land (Z.shiftr unchr 6) 63;
     128 + Z.land unchr 63]
  else
    [240 + Z.shiftr unchr 18; 128 + Z.land (Z.shiftr unchr 12) 63;
     128 + Z.land (Z.shiftr unchr 6) 63; 128 + Z.land unchr 63].

Definition is_surrogate_pair (hex_val hex_low_val : Z) : bool :=
  (UTF16_HIGH_SURROGATE_BEGIN <=? hex_val) && (hex_val <? UTF16_HIGH_SURROGATE_END)
  && (UTF16_LOW_SURROGATE_BEGIN <=? hex_low_val)
  && (hex_low_val <? UTF16_LOW_SURROGATE_END).

Definition surrogate_code_point (hex_val hex_low_val : Z) : Z :=
  65536 + Z.shiftl (hex_val - UTF16_HIGH_SURROGATE_BEGIN) 10
  + (hex_low_val - UTF16_LOW_SURROGATE_BEGIN).

(** String values are indicated by keeping the quote character *)
Definition is_string_value (options : parse_options_view) (span : list Z) : bool :=
  (2 <=? Z.of_nat (length span))
  && ((quotechar options =? 0)
      || ((hd 0 span =? quotechar options) && (last span 0 =? quotechar options))).

(** Exclude beginning and ending quote chars from string range *)
Definition string_body (options : parse_options_view) (span : list Z) : list Z :=
  if keepquotes options then span else removelast (tl span).

(** The loop of [process_string] over [in_begin, in_end).  [advance] is
    the number of characters a previous iteration jumped over with
    [thrust::advance]; [escape] is the escape flag, [n] the bytes counted
    and [out] the bytes stored so far. *)
Fixpoint unescape (input : list Z) (advance : nat) (escape : bool)
         (n : Z) (out : list Z) : data_casting_result_info :=
  match input with
  | [] =>
      (* The last character of the input is a backslash -> fail *)
      if escape then mk_info n out PARSING_FAILURE
      else mk_info n out PARSING_SUCCESS
  | c :: rest =>
      match advance with
      | S advance' => unescape rest advance' escape n out
      | O =>
          if negb escape then
            (* Copy single character to output *)
            if c =? backslash_char then unescape rest 0 true n out
            else unescape rest 0 false (n + 1) (out ++ [c])
          else
            (* Check the character that is supposed to be escaped *)
            let escaped_char := get_escape_char c in
            if escaped_char =? NON_ESCAPE_CHAR then mk_info n out PARSING_FAILURE
            else if negb (escaped_char =? UNICODE_SEQ) then
              (* Regular, single-character escape *)
              unescape rest 0 false (n + 1) (out ++ [escaped_char])
            else
              (* \uXXXX: [rest] starts at the first hex digit *)
              if Z.of_nat (length rest) <? UNICODE_HEX_DIGIT_COUNT
              then mk_info n out PARSING_FAILURE
              else
                let hex_val := parse_unicode_hex rest in
                if hex_val <? 0 then mk_info n out PARSING_FAILURE
                else
                  let after := skipn 4 rest in
                  let hex_low_val :=
                    if (NUM_UNICODE_ESC_SEQ_CHARS <=? Z.of_nat (length after))
                       && (nth 0 after 0 =? backslash_char)
                       && (nth 1 after 0 =? u_char)
                    then parse_unicode_hex (skipn 2 after)
                    else 0 in
                  if is_surrogate_pair hex_val hex_low_val then
                    (* This is indeed a UTF16 surrogate pair *)
                    let utf8_chars :=
                      codepoint_to_utf8 (surrogate_code_point hex_val hex_low_val) in
                    unescape rest 10 false (n + Z.of_nat (length utf8_chars))
                             (out ++ utf8_chars)
                  else
                    (* Just a single \uXXXX sequence *)
                    let utf8_chars := codepoint_to_utf8 hex_val in
                    unescape rest 4 false (n + Z.of_nat (length utf8_chars))
                             (out ++ utf8_chars)
      end
  end.

Definition process_string (span : list Z) (options : parse_options_view)
  : data_casting_result_info :=
  if negb (is_string_value options span) then
    (* Copy literal/numeric value *)
    mk_info (Z.of_nat (length span)) span PARSING_SUCCESS
  else unescape (string_body options span) 0 false 0 [].

(** *** Malformed escapes, as the specification lists them *)

(** The four characters at the head of [str] are hex digits. *)
Definition four_hex_digits (str : list Z) : Prop :=
  (4 <= length str)%nat /\ Forall (fun ch => is_hex ch = true) (firstn 4 str).

(** A string body runs into a malformed escape when, read from the left
    one item at a time (a plain character, a backslash with a recognised
    escape character, or a backslash, [u] and four hex digits), it reaches
    a backslash that ends the string, a backslash followed by an
    unrecognised escape character, or a backslash and [u] not followed by
    four hex digits. *)
Inductive malformed_escape : list Z -> Prop :=
| backslash_at_end :
    malformed_escape [backslash_char]
| unrecognised_escape c rest :
    get_escape_char c = NON_ESCAPE_CHAR ->
    malformed_escape (backslash_char :: c :: rest)
| unicode_without_digits rest :
    ~ four_hex_digits rest ->
    malformed_escape (backslash_char :: u_char :: rest)
| after_plain_char c rest :
    c <> backslash_char ->
    malformed_escape rest -> malformed_escape (c :: rest)
| after_escape c rest :
    get_escape_char c <> NON_ESCAPE_CHAR -> c <> u_char ->
    malformed_escape rest -> malformed_escape (backslash_char :: c :: rest)
| after_unicode_escape rest :
    four_hex_digits rest ->
    malformed_escape (skipn 4 rest) ->
    malformed_escape (backslash_char :: u_char :: rest).

(** The two-state automaton of the backslash scan, run sequentially:
    [true] when the last character read is an escaping backslash. *)
Definition escaping_step (state : bool) (c : Z) : bool :=
  if state then false else c =? backslash_char.

Definition escaping_after (state : bool) (chars : list Z) : bool :=
  fold_left escaping_step chars state.

(** *** The state the caster works on *)

(** The null mask (absent when the caller passes a null pointer), the
    device-wide null counter, the offsets (sizes during the size pass)
    and the character buffer (absent during the size pass). *)
Record caster_state : Type := mk_state {
  null_mask : option (list bool);
  null_count : Z;
  d_offsets : list Z;
  d_chars : option (list Z)
}.

(** [v[i] = x] for an index within the buffer (the buffer is left alone
    otherwise: rows, offsets and mask bits are indexed by the row index,
    which ranges over the rows of the column). *)
Definition update {A} (v : list A) (i : Z) (x : A) : list A :=
  if (0 <=? i) && (i <? Z.of_nat (length v))
  then firstn (Z.to_nat i) v ++ x :: skipn (S (Z.to_nat i)) v
  else v.

(** Storing [data] from position [pos] on.  A store outside the buffer
    has no defined result in the source; here it leaves the buffer as it
    is. *)
Fixpoint overwrite (v : list Z) (pos : Z) (data : list Z) : list Z :=
  match data with
  | [] => v
  | b :: tl => overwrite (update v pos b) (pos + 1) tl
  end.

Definition has_mask (st : caster_state) : bool :=
  match null_mask st with Some _ => true | None => false end.

Definition bit_is_set (st : caster_state) (idx : Z) : bool :=
  match null_mask st with
  | Some m => (0 <=? idx) && nth (Z.to_nat idx) m false
  | None => false
  end.

Definition size_pass (st : caster_state) : bool :=
  match d_chars st with None => true | Some _ => false end.

(** [clear_bit(null_mask, idx); atomicAdd(null_count_data, 1);] *)
Definition mark_null (idx : Z) (st : caster_state) : caster_state :=
  mk_state (match null_mask st with
            | Some m => Some (update m idx false)
            | None => None
            end)
           (null_count st + 1) (d_offsets st) (d_chars st).

Definition set_offset (idx value : Z) (st : caster_state) : caster_state :=
  mk_state (null_mask st) (null_count st) (update (d_offsets st) idx value)
           (d_chars st).

(** [if (!d_chars) d_offsets[idx] = 0;] *)
Definition zero_offset (idx : Z) (st : caster_state) : caster_state :=
  if size_pass st then set_offset idx 0 st else st.

Definition store_chars (pos : Z) (data : list Z) (st : caster_state) : caster_state :=
  match d_chars st with
  | Some chars =>
      mk_state (null_mask st) (null_count st) (d_offsets st)
               (Some (overwrite chars pos data))
  | None => st
  end.

(** [string_parse::operator()]: one thread per string. *)
Definition string_parse (options : parse_options_view) (str_tuples : list (list Z))
           (idx : Z) (st : caster_state) : caster_state :=
  if has_mask st && negb (bit_is_set st idx) then zero_offset idx st
  else
    let span := at_index [] str_tuples idx in
    (* Check if the value corresponds to the null literal *)
    let is_null_literal := size_pass st && trie_na options span in
    if is_null_literal && has_mask st then zero_offset idx (mark_null idx st)
    else
      let str_process_info := process_string span options in
      let st1 := store_chars (at_index 0 (d_offsets st) idx)
                             (written str_process_info) st in
      if negb (is_success (result_code str_process_info)) then
        zero_offset idx (if has_mask st1 then mark_null idx st1 else st1)
      else if size_pass st1 then set_offset idx (bytes str_process_info) st1
      else st1.

(** *** The warp/block parallel kernel ([parse_fn_string_parallel]) *)

(** The transition vector of the two-state automaton (Not-Slash, Slash):
    [state[0]] is the next state from Not-Slash, [state[1]] from Slash;
    [true] stands for Slash. *)
Definition state_table : Type := (bool * bool)%type.

Definition state_at (t : state_table) (s : bool) : bool :=
  if s then snd t else fst t.

Definition composite_op (op1 op2 : state_table) : state_table :=
  (state_at op2 (fst op1), state_at op2 (snd op1)).

Section Lanes.

(** The string between the quotes, and its length [in_end - in_begin].
    A character read past [in_end] reads as 0: the kernel reads such
    characters only in operands whose value cannot change the result. *)
Variable body : list Z.
Let num_chars : Z := Z.of_nat (length body).
Let in_at (i : Z) : Z := if i <? 0 then 0 else nth (Z.to_nat i) body 0.

Definition is_within_bounds (char_index : Z) : bool := char_index <? num_chars.

Definition lane_c (char_index : Z) : Z :=
  if is_within_bounds char_index then in_at char_index else 0.

(** The characters the lanes [lanes] hold. *)
Definition lane_chars (lanes : list nat) : list Z :=
  map (fun i => lane_c (Z.of_nat i)) lanes.

Definition lane_prev_c (char_index : Z) : Z :=
  if (0 <? char_index) && is_within_bounds char_index
  then in_at (char_index - 1) else 0.

(** state transition vector of a lane *)
Definition lane_curr (char_index : Z) : state_table :=
  (is_within_bounds char_index && (lane_c char_index =? backslash_char), false).

Definition lane_error (char_index : Z) (is_escaping_backslash : bool) : bool :=
  let c := lane_c char_index in
  let prev_c := lane_prev_c char_index in
  let escaped_char := get_escape_char c in
  is_within_bounds char_index &&
  ((is_escaping_backslash && (char_index =? num_chars - 1))
   || ((prev_c =? backslash_char) && (escaped_char =? NON_ESCAPE_CHAR))
   || ((prev_c =? backslash_char) && (c =? u_char) &&
       ((num_chars <=? char_index + UNICODE_HEX_DIGIT_COUNT)
        || negb (is_hex (in_at (char_index + 1)))
        || negb (is_hex (in_at (char_index + 2)))
        || negb (is_hex (in_at (char_index + 3)))
        || negb (is_hex (in_at (char_index + 4)))))).

Definition lane_skip (char_index : Z) (is_escaping_backslash : bool) : bool :=
  negb (is_within_bounds char_index)
  || is_escaping_backslash
  || (is_within_bounds char_index &&
      (((0 <=? char_index - 2) && (in_at (char_index - 2) =? backslash_char)
        && (in_at (char_index - 1) =? u_char))
       || ((0 <=? char_index - 3) && (in_at (char_index - 3) =? backslash_char)
           && (in_at (char_index - 2) =? u_char))
       || ((0 <=? char_index - 4) && (in_at (char_index - 4) =? backslash_char)
           && (in_at (char_index - 3) =? u_char))
       || ((0 <=? char_index - 5) && (in_at (char_index - 5) =? backslash_char)
           && (in_at (char_index - 4) =? u_char)))).

(** The bytes a lane contributes ([write_char]); their number is
    [this_num_out].  A plain character is a [char] assigned to a
    [char_utf8] and stored with [from_char_utf8]: for a character below
    0x80 this stores the byte itself, as the model does.  A byte of 0x80
    or more is sign-extended by the assignment, so what is said about
    the characters the kernels store is said for ASCII values. *)
Definition lane_output (char_index : Z) (is_escaping_backslash : bool) : list Z :=
  let c := lane_c char_index in
  let prev_c := lane_prev_c char_index in
  let escaped_char := get_escape_char c in
  if lane_skip char_index is_escaping_backslash then []
  else if negb (prev_c =? backslash_char) then [c]
  else if negb (escaped_char =? UNICODE_SEQ) then [escaped_char]
  else
    (* \uXXXX *)
    let hex_val :=
      parse_unicode_hex (skipn (Z.to_nat (char_index + 1)) body) in
    let hex_low_val :=
      (* \uXXXX\uXXXX *)
      if (char_index + 4 + 6 <? num_chars)
         && (in_at (char_index + 1 + 4) =? backslash_char)
         && (in_at (char_index + 1 + 5) =? u_char)
      then parse_unicode_hex (skipn (Z.to_nat (char_index + 1 + 6)) body)
      else 0 in
    if is_surrogate_pair hex_val hex_low_val then
      codepoint_to_utf8 (surrogate_code_point hex_val hex_low_val)
    else if (UTF16_LOW_SURROGATE_BEGIN <=? hex_val)
            && (hex_val <? UTF16_LOW_SURROGATE_END)
    then []
    else codepoint_to_utf8 hex_val.

(** The outcome of the character loop: whether an error stopped it, the
    value of [last_offset] and the stores made through [d_buffer]. *)
Record decode_outcome : Type := mk_outcome {
  decode_error : bool;
  last_offset : Z;
  stores : list (Z * list Z)
}.

Variable BLOCK_SIZE : nat.

(** One iteration of the character loop: the lanes hold the characters
    [start .. start + BLOCK_SIZE - 1].  The error flag every lane goes on
    with is the disjunction of the lanes' flags.  That is [__any_sync] in
    the warp kernel.  In the block kernel it is the block reduction as
    thread 0 receives it; there every thread stores what the reduction
    returned to it into the shared flag, although only thread 0 holds
    the sum, so what is said about a row with an error is said for the
    warp kernel. *)
Definition chunk_escaping (start : Z) (init_state : bool) : list bool :=
  let lanes := map (fun l => start + Z.of_nat l) (seq 0 BLOCK_SIZE) in
  (* inclusive scan of escaping backslashes *)
  let scanned := Buffer.inclusive_scan composite_op (map lane_curr lanes) in
  map (fun t => state_at t init_state) scanned.

Fixpoint exclusive_sum (offset : Z) (lanes : list (Z * bool))
  : list (Z * list Z) * Z :=
  match lanes with
  | [] => ([], offset)
  | (char_index, esc) :: tl =>
      let data := lane_output char_index esc in
      let r := exclusive_sum (offset + Z.of_nat (length data)) tl in
      ((offset, data) :: fst r, snd r)
  end.

Fixpoint char_loop (starts : list Z) (init_state : bool) (offset : Z)
         (done : list (Z * list Z)) : decode_outcome :=
  match starts with
  | [] => mk_outcome false offset done
  | start :: rest =>
      let lanes := map (fun l => start + Z.of_nat l) (seq 0 BLOCK_SIZE) in
      let escaping := chunk_escaping start init_state in
      let lanes_esc := combine lanes escaping in
      (* propagate error *)
      if existsb (fun le => lane_error (fst le) (snd le)) lanes_esc
      then mk_outcome true 0 done
      else
        let r := exclusive_sum offset lanes_esc in
        char_loop rest (last escaping false) (snd r) (done ++ fst r)
  end.

(** The starts of the iterations: [0, BLOCK_SIZE, ...] below
    [round_up_safe(in_end - in_begin, BLOCK_SIZE)]. *)
Definition chunk_starts : list Z :=
  map (fun k => Z.of_nat (k * BLOCK_SIZE))
      (seq 0 ((length body + BLOCK_SIZE - 1) / BLOCK_SIZE)).

Definition decode_parallel : decode_outcome :=
  char_loop chunk_starts false 0 [].

End Lanes.

Definition warp_size : nat := 32.
Definition warps_per_block : nat := 8.

Definition block_size (is_warp : bool) : nat :=
  if is_warp then warp_size else (warp_size * warps_per_block)%nat.

Definition apply_stores (base : Z) (sts : list (Z * list Z)) (st : caster_state)
  : caster_state :=
  fold_left (fun s w => store_chars (base + fst w) (snd w) s) sts st.

(** The body of the grid-stride loop of [parse_fn_string_parallel] for the
    string [istring]: one warp ([is_warp]) or one block per string. *)
Definition parse_fn_string_parallel (is_warp : bool) (options : parse_options_view)
           (str_tuples : list (list Z)) (istring : Z) (st : caster_state)
  : caster_state :=
  (* skip nulls *)
  if has_mask st && negb (bit_is_set st istring) then zero_offset istring st
  else
    let span := at_index [] str_tuples istring in
    let num_in_chars := Z.of_nat (length span) in
    if (if is_warp then WARP_THRESHOLD <? num_in_chars
        else num_in_chars <=? WARP_THRESHOLD)
    then st
    else
      (* Check if the value corresponds to the null literal *)
      let is_null_literal := size_pass st && trie_na options span in
      if is_null_literal && has_mask st then zero_offset istring (mark_null istring st)
      else
        let d_buffer := at_index 0 (d_offsets st) istring in
        if negb (is_string_value options span) then
          (* Copy literal/numeric value *)
          if size_pass st then set_offset istring num_in_chars st
          else store_chars d_buffer span st
        else
          let outcome := decode_parallel (string_body options span)
                                         (block_size is_warp) in
          let st1 := apply_stores d_buffer (stores outcome) st in
          let st2 :=
            if decode_error outcome
            then (if has_mask st1 then mark_null istring st1 else st1)
            else st1 in
          if size_pass st2 then set_offset istring (last_offset outcome) st2
          else st2.

(** *** [parse_data] for a string column *)

Fixpoint exclusive_scan_from (acc : Z) (sizes : list Z) : list Z :=
  match sizes with
  | [] => []
  | s :: tl => acc :: exclusive_scan_from (acc + s) tl
  end.

(** [sizes_to_offsets]: exclusive scan in place; the result is the last
    offset. *)
Definition sizes_to_offsets (sizes : list Z) : list Z * Z :=
  let offsets := exclusive_scan_from 0 sizes in
  (offsets, last offsets 0).

Definition for_rows (f : Z -> caster_state -> caster_state) (col_size : nat)
           (st : caster_state) : caster_state :=
  fold_left (fun s idx => f idx s) (Traversal.sequence col_size) st.

(** Modelled from the spec: [make_strings_children] lives in
    cudf/strings/detail/strings_children.cuh, which is not among the
    sources.  It runs the functor twice: first without character buffer,
    to compute the size of every row, then, after turning the sizes into
    offsets and allocating the characters, to store the bytes. *)
Definition make_strings_children (fn : Z -> caster_state -> caster_state)
           (col_size : nat) (mask : option (list bool)) (nulls : Z)
  : caster_state :=
  let sized := for_rows fn col_size
                 (mk_state mask nulls (Buffer.zeros (Z.of_nat col_size + 1)) None) in
  let '(offsets, total) := sizes_to_offsets (d_offsets sized) in
  for_rows fn col_size
    (mk_state (null_mask sized) (null_count sized) offsets
              (Some (Buffer.zeros total))).

(** The string branch of [parse_data]: strategy selection on the longest
    string of the column.  The result holds the final null mask, null
    count, offsets and characters. *)
Definition parse_data (options : parse_options_view) (str_tuples : list (list Z))
           (mask : option (list bool)) (nulls : Z) : caster_state :=
  let col_size := length str_tuples in
  let max_length :=
    fold_left Z.max (map (fun t => Z.of_nat (length t)) str_tuples) 0 in
  if max_length <? SINGLE_THREAD_THRESHOLD then
    make_strings_children (string_parse options str_tuples) col_size mask nulls
  else
    let st0 := mk_state mask nulls (Buffer.zeros (Z.of_nat col_size + 1)) None in
    let st1 := for_rows (parse_fn_string_parallel true options str_tuples) col_size st0 in
    (* for strings longer than WARP_THRESHOLD, 1 block per string *)
    let st2 := for_rows (parse_fn_string_parallel false options str_tuples) col_size st1 in
    let '(offsets, total) := sizes_to_offsets (d_offsets st2) in
    let st3 := mk_state (null_mask st2) (null_count st2) offsets
                        (Some (Buffer.zeros total)) in
    let st4 := for_rows (parse_fn_string_parallel true options str_tuples) col_size st3 in
    for_rows (parse_fn_string_parallel false options str_tuples) col_size st4.

(** The rows of a parsed column: [None] for a null row. *)
Definition column_rows (col_size : nat) (st : caster_state) : list (option (list Z)) :=
  map (fun idx =>
         if has_mask st && negb (bit_is_set st idx) then None
         else match d_chars st with
              | Some chars =>
                  Some (Buffer.slice chars (at_index 0 (d_offsets st) idx)
                                     (at_index 0 (d_offsets st) (idx + 1)))
              | None => None
              end)
      (Traversal.sequence col_size).

(** *** What nulling a row changes *)

(** Row [idx] is nulled between [st] and [st']: its validity bit is
    cleared and no other bit changes, the null counter grows by one, no
    other row's offset slot changes and, when sizes are being computed,
    the row's own size is 0. *)
Definition row_nulled (idx : Z) (st st' : caster_state) : Prop :=
  bit_is_set st' idx = false /\
  (forall j, j <> idx -> bit_is_set st' j = bit_is_set st j) /\
  null_count st' = null_count st + 1 /\
  (forall j, 0 <= j -> j <> idx ->
             NodeTree.at_index 0 (d_offsets st') j = NodeTree.at_index 0 (d_offsets st) j) /\
  (size_pass st = true -> NodeTree.at_index 0 (d_offsets st') idx = 0).

End Caster.

(** ** Columns used in the examples of the caster *)

Module CasterRows.
Import Caster.

(** Strings are quoted with the double quote, quotes are dropped and the
    only null literal is [null]. *)
Definition example_options : parse_options_view :=
  mk_options 34 false
    (fun span => match span with
                 | [110; 117; 108; 108] => true
                 | _ => false
                 end).

(** A valid string of 130 letters: a column that holds it is decoded by
    the warp kernel. *)
Definition long_row : list Z := json_bytes "'" ++ repeat 97 130 ++ json_bytes "'".

(** An escaped backslash followed by a letter: the string of the two
    characters backslash and x. *)
Definition escaped_backslash_row : list Z := json_bytes "'\\x'".

(** A string that ends in a backslash. *)
Definition trailing_backslash_row : list Z := json_bytes "'a\'".

(** A low surrogate with no high surrogate before it. *)
Definition orphaned_low_surrogate_row : list Z := json_bytes "'\uDC00'".

Definition plain_row : list Z := json_bytes "'ab'".

(** The state at the start of the size pass over a column of two valid
    rows, and over one whose first row is null already. *)
Definition two_valid_rows : caster_state :=
  mk_state (Some [true; true]) 0 [0; 0; 0] None.

Definition first_row_null : caster_state :=
  mk_state (Some [false; true]) 1 [7; 0; 0] None.

End CasterRows.

(** ** Bookkeeping of the caster's null mask *)

Module CasterMask.
Import NodeTree Caster.

(** The number of cleared bits of a mask. *)
Definition count_cleared (m : list bool) : Z :=
  Z.of_nat (length (filter negb m)).

(** The number of rows a state's null mask marks as null (none without a
    mask). *)
Definition nulls_in_mask (st : caster_state) : Z :=
  match null_mask st with
  | Some m => count_cleared m
  | None => 0
  end.

(** What processing row [idx] may change between [st] and [st']: no
    validity bit but the row's own, which is never set; the null counter
    grows by one exactly when that bit is cleared; the presence of the
    mask, the number of offsets and every other row's offset stay. *)
Definition row_frame (idx : Z) (st st' : caster_state) : Prop :=
  (forall j, j <> idx -> bit_is_set st' j = bit_is_set st j) /\
  (bit_is_set st' idx = true -> bit_is_set st idx = true) /\
  null_count st'
  = null_count st + (if bit_is_set st idx && negb (bit_is_set st' idx) then 1 else 0) /\
  has_mask st' = has_mask st /\
  length (d_offsets st') = length (d_offsets st) /\
  (forall j, 0 <= j -> j <> idx ->
             at_index 0 (d_offsets st') j = at_index 0 (d_offsets st) j).



End CasterMask.

(** ** Column tree in CSR form (reduce_to_column_tree, experimental) *)

Module CsrColumnTree.
Import NodeTree.

(** [level_ordering::operator()]: the comparator of the merge sort that
    orders the nodes level by level. *)
Definition level_ordering (node_levels col_ids parent_node_ids : list Z)
           (lhs_node_id rhs_node_id : Z) : bool :=
  let lhs_parent_col_id :=
    if at_index 0 parent_node_ids lhs_node_id =? -1 then -1
    else at_index 0 col_ids (at_index 0 parent_node_ids lhs_node_id) in
  let rhs_parent_col_id :=
    if at_index 0 parent_node_ids rhs_node_id =? -1 then -1
    else at_index 0 col_ids (at_index 0 parent_node_ids rhs_node_id) in
  (at_index 0 node_levels lhs_node_id <? at_index 0 node_levels rhs_node_id)
  || ((at_index 0 node_levels lhs_node_id =? at_index 0 node_levels rhs_node_id)
      && (lhs_parent_col_id <? rhs_parent_col_id))
  || ((at_index 0 node_levels lhs_node_id =? at_index 0 node_levels rhs_node_id)
      && (lhs_parent_col_id =? rhs_parent_col_id)
      && (at_index 0 col_ids lhs_node_id <? at_index 0 col_ids rhs_node_id)).

(** [parent_nodeids_to_colids::operator()] *)
Definition parent_nodeids_to_colids (col_ids rev_mapped_col_ids : list Z)
           (parent_node_id : Z) : Z :=
  if parent_node_id =? parent_node_sentinel then parent_node_sentinel
  else at_index 0 rev_mapped_col_ids (at_index 0 col_ids parent_node_id).

(** The key the comparator orders by: level, column of the parent,
    column. *)
Definition level_key (node_levels col_ids parent_node_ids : list Z) (node_id : Z)
  : Z * Z * Z :=
  (at_index 0 node_levels node_id,
   if at_index 0 parent_node_ids node_id =? -1 then -1
   else at_index 0 col_ids (at_index 0 parent_node_ids node_id),
   at_index 0 col_ids node_id).

End CsrColumnTree.

(** ** Column tree of the later revision (make_device_json_column) *)

Module DeviceColumnTree.
Import NodeTree Caster.

(** [is_all_nulls_each_column]: one flag per column, initially true; the
    [for_each_n] over the nodes clears the flag of the column of every
    string or value node whose text is no null literal.  The serialized
    trie of the null literals is represented by its membership test. *)
Definition is_all_nulls_each_column (trie_na : list Z -> bool) (input : list Z)
           (column_categories : list node_t) (tree : tree_meta_t) (col_ids : list Z)
  : list bool :=
  let num_nodes := length col_ids in
  let num_cols := length column_categories in
  fold_left
    (fun is_all_nulls i =>
       let node_category := at_index NC_ERR column_categories (at_index 0 col_ids i) in
       if node_eqb node_category NC_STR || node_eqb node_category NC_VAL then
         let is_null_literal :=
           trie_na (Buffer.slice input (at_index 0 (node_range_begin tree) i)
                                 (at_index 0 (node_range_end tree) i)) in
         if negb is_null_literal
         then update is_all_nulls (at_index 0 col_ids i) false
         else is_all_nulls
       else is_all_nulls)
    (Traversal.sequence num_nodes) (repeat true num_cols).

(** The text of node [i] is no null literal. *)
Definition holds_value (trie_na : list Z -> bool) (input : list Z)
           (tree : tree_meta_t) (i : Z) : bool :=
  negb (trie_na (Buffer.slice input (at_index 0 (node_range_begin tree) i)
                              (at_index 0 (node_range_end tree) i))).

End DeviceColumnTree.

(** ** Token streams in which every partner follows *)

Module TokenStreams.
Import Tokenizer NodeTree.

(** Every begin-of-string, begin-of-value and begin-of-field-name token
    but the last token of the stream is directly followed by its
    end-of-* partner. *)
Fixpoint partners_follow (tokens : list (token_t * Z)) : bool :=
  match tokens with
  | [] => true
  | (token, _) :: rest =>
      match rest with
      | [] => true
      | (next, _) :: _ =>
          (negb (is_begin_of_section token) || token_eqb (end_of_partner token) next)
          && partners_follow rest
      end
  end.

End TokenStreams.

(** ** Reading the schema of a converted column *)

Module Schema.
Import Reader.

(** The name a schema entry carries. *)
Definition info_name (info : column_name_info) : string :=
  match info with name_info name _ => name end.

End Schema.

(* ================================================================== *)
(** * Part II.  Properties *)
(* ================================================================== *)

(** ** Column category unification *)

Section UnifyFacts.
Import ColumnTree.

Lemma unify_comm : forall a b, unify_categories a b = unify_categories b a.
Proof. intros [] []; reflexivity. Qed.

Lemma unify_assoc : forall a b c,
  unify_categories (unify_categories a b) c
  = unify_categories a (unify_categories b c).
Proof. intros [] [] []; reflexivity. Qed.

Lemma csr_op_snd : forall a b,
  snd (max_row_offsets_col_categories_op a b)
  = unify_categories (snd a) (snd b).
Proof. intros [ra ta] [rb tb]; reflexivity. Qed.

Lemma csr_op_comm : forall a b,
  max_row_offsets_col_categories_op a b = max_row_offsets_col_categories_op b a.
Proof.
  intros [ra ta] [rb tb].
  apply injective_projections.
  - cbn [fst max_row_offsets_col_categories_op]. apply Z.max_comm.
  - rewrite !csr_op_snd. apply unify_comm.
Qed.

Lemma csr_op_assoc : forall a b c,
  max_row_offsets_col_categories_op (max_row_offsets_col_categories_op a b) c
  = max_row_offsets_col_categories_op a (max_row_offsets_col_categories_op b c).
Proof.
  intros [ra ta] [rb tb] [rc tc].
  apply injective_projections.
  - cbn [fst max_row_offsets_col_categories_op]. symmetry. apply Z.max_assoc.
  - rewrite !csr_op_snd. cbn [snd]. apply unify_assoc.
Qed.

End UnifyFacts.

(** Reductions with a commutative, associative operator do not depend on
    the grouping or on the order of the run. *)
Section OrderIndependence.
Import ColumnTree.
Context {A : Type} (op : A -> A -> A).
Hypothesis op_comm : forall a b, op a b = op b a.
Hypothesis op_assoc : forall a b c, op (op a b) c = op a (op b c).

Lemma fold_left_op_shift : forall l a b,
  fold_left op l (op a b) = op a (fold_left op l b).
Proof.
  induction l as [|x l IH]; intros a b; cbn; [reflexivity|].
  rewrite op_assoc. apply IH.
Qed.

Lemma reduce_grouping_leaves : forall g : grouping A,
  exists a l, leaves g = a :: l /\ reduce_grouping op g = reduce_run op a l.
Proof.
  induction g as [a | g1 IH1 g2 IH2].
  - exists a, []. split; reflexivity.
  - destruct IH1 as (a1 & l1 & E1 & R1), IH2 as (a2 & l2 & E2 & R2).
    exists a1, (l1 ++ a2 :: l2). cbn [leaves reduce_grouping].
    rewrite E1, E2, R1, R2. split; [reflexivity|].
    unfold reduce_run. rewrite fold_left_app. cbn [fold_left].
    rewrite fold_left_op_shift. reflexivity.
Qed.

Lemma fold_left_op_perm : forall l1 l2, Permutation l1 l2 ->
  forall a, fold_left op l1 a = fold_left op l2 a.
Proof.
  induction 1 as [| x l l' _ IH | x y l | l l' l'' _ IH1 _ IH2]; intros a; cbn.
  - reflexivity.
  - apply IH.
  - f_equal. rewrite !op_assoc. f_equal. apply op_comm.
  - rewrite IH1. apply IH2.
Qed.

Lemma reduce_run_perm : forall a l b l',
  Permutation (a :: l) (b :: l') -> reduce_run op a l = reduce_run op b l'.
Proof.
  intros a l b l' P. unfold reduce_run.
  destruct (Permutation_in a P (or_introl eq_refl)) as [Eab | Hin].
  - subst b. apply Permutation_cons_inv in P. now apply fold_left_op_perm.
  - apply in_split in Hin. destruct Hin as (m1 & m2 & ->).
    assert (P' : Permutation l (b :: m1 ++ m2)).
    { apply Permutation_cons_inv with (a := a).
      rewrite P. rewrite perm_swap. apply perm_skip.
      symmetry. apply Permutation_middle. }
    rewrite (fold_left_op_perm _ _ P'). cbn [fold_left].
    rewrite !fold_left_app. cbn [fold_left].
    rewrite fold_left_op_shift. f_equal. apply op_comm.
Qed.

Lemma reduce_grouping_perm : forall g1 g2 : grouping A,
  Permutation (leaves g1) (leaves g2) ->
  reduce_grouping op g1 = reduce_grouping op g2.
Proof.
  intros g1 g2 P.
  destruct (reduce_grouping_leaves g1) as (a1 & l1 & E1 & R1).
  destruct (reduce_grouping_leaves g2) as (a2 & l2 & E2 & R2).
  rewrite R1, R2. apply reduce_run_perm. now rewrite <- E1, <- E2.
Qed.

End OrderIndependence.

(** ** Node tree builder *)

Section NodeTreeFacts.
Import Tokenizer NodeTree.

Lemma at_index_app_old {A} (d : A) (v : list A) (x : A) (i : Z) :
  0 <= i < Z.of_nat (length v) -> at_index d (v ++ [x]) i = at_index d v i.
Proof.
  intros H. unfold at_index. apply app_nth1. lia.
Qed.

Lemma at_index_app_new {A} (d : A) (v : list A) (x : A) :
  at_index d (v ++ [x]) (Z.of_nat (length v)) = x.
Proof.
  unfold at_index. rewrite Nat2Z.id, app_nth2, Nat.sub_diag by lia. reflexivity.
Qed.

Lemma stack_ok_grow levels n st x :
  Z.of_nat (length levels) = n ->
  stack_ok levels n st -> stack_ok (levels ++ [x]) (n + 1) st.
Proof.
  intros Hlen. induction st as [|top below IH]; cbn; [trivial|].
  intros (Hr & Hl & Hs). repeat split; try lia.
  - rewrite at_index_app_old by lia. exact Hl.
  - now apply IH.
Qed.

Lemma node_ok_grow t i token rb re p depth :
  arrays_aligned t (Z.of_nat (length (parent_node_ids t))) ->
  0 <= i < Z.of_nat (length (parent_node_ids t)) ->
  node_ok t i -> node_ok (push_node token rb re p depth t) i.
Proof.
  intros (_ & _ & Hl & _) Hi H. unfold node_ok in *. cbn [push_node parent_node_ids node_levels].
  assert (Hi' : 0 <= i < Z.of_nat (length (node_levels t))) by lia.
  rewrite (at_index_app_old 0 (parent_node_ids t)) by exact Hi.
  rewrite (at_index_app_old 0 (node_levels t) depth i) by exact Hi'.
  destruct H as [H | (Hp & Hlev)]; [left; exact H | right].
  split; [exact Hp|]. rewrite at_index_app_old by lia. exact Hlev.
Qed.

Lemma to_TreeDepthT_small n :
  0 <= n <= TreeDepthT_max -> to_TreeDepthT n = n.
Proof.
  unfold to_TreeDepthT, TreeDepthT_max. intros H.
  rewrite Z.mod_small by lia. lia.
Qed.

(** A stack of 128 entries is the first whose height does not fit. *)
Lemma to_TreeDepthT_fits n :
  0 <= n <= TreeDepthT_max + 1 -> 0 <= to_TreeDepthT n -> n <= TreeDepthT_max.
Proof.
  unfold to_TreeDepthT, TreeDepthT_max. intros H Hn.
  destruct (Z.eq_dec n 128) as [->|Hne]; [|lia].
  change ((128 + 128) mod 256) with 0 in Hn. lia.
Qed.

Lemma builder_inv_push st n t token rb re :
  builder_inv st n t ->
  Z.of_nat (length st) <= TreeDepthT_max ->
  let p := match st with top :: _ => fst top | [] => parent_node_sentinel end in
  let t' := push_node token rb re p (to_TreeDepthT (Z.of_nat (length st))) t in
  builder_inv st (n + 1) t' /\
  at_index 0 (node_levels t') n = Z.of_nat (length st).
Proof.
  intros ((Hc & Hp & Hl & Hb & He) & Hst & Hok) Hdepth p. cbv zeta.
  rewrite to_TreeDepthT_small by lia.
  set (t' := push_node token rb re p (Z.of_nat (length st)) t).
  assert (Hal : arrays_aligned t (Z.of_nat (length (parent_node_ids t)))).
  { rewrite Hp. repeat split; assumption. }
  assert (Hnew : at_index 0 (node_levels t') n = Z.of_nat (length st)).
  { subst t'. cbn [push_node node_levels]. rewrite <- Hl. apply at_index_app_new. }
  split; [|exact Hnew]. split; [|split].
  - subst t'. unfold arrays_aligned. cbn [push_node node_categories parent_node_ids
      node_levels node_range_begin node_range_end].
    rewrite !length_app. cbn [length]. repeat split; lia.
  - subst t'. cbn [push_node node_levels]. now apply stack_ok_grow.
  - intros i Hi. destruct (Z.eq_dec i n) as [-> | Hne].
    + unfold node_ok. rewrite Hnew.
      subst t'. cbn [push_node parent_node_ids node_levels].
      pose proof (at_index_app_new 0 (parent_node_ids t) p) as E.
      rewrite Hp in E. rewrite !E. clear E.
      subst p. destruct st as [|top below].
      * left. split; reflexivity.
      * right. cbn in Hst. destruct Hst as (Hr & Hlev & _).
        split; [lia|]. rewrite at_index_app_old by lia. rewrite Hlev.
        cbn [length]. lia.
    + subst t'. apply node_ok_grow; [exact Hal | lia | apply Hok; lia].
Qed.

Lemma stack_ok_pop_field_name levels n (st : list (Z * bool)) :
  stack_ok levels n st ->
  stack_ok levels n
    (match st with top :: below => if snd top then below else st | [] => st end).
Proof.
  destruct st as [|top below]; [trivial|]. destruct (snd top); [|trivial].
  cbn. tauto.
Qed.

Lemma pop_field_name_length (st : list (Z * bool)) :
  (length (match st with top :: below => if snd top then below else st | [] => st end)
   <= length st)%nat.
Proof.
  destruct st as [|top below]; [lia|]. destruct (snd top); cbn [length]; lia.
Qed.

(** The loop only appends to the arrays: the levels it starts from are a
    prefix of the levels it returns. *)
Lemma token_loop_levels consume_next : forall tokens skip st n t t',
  token_loop consume_next tokens skip st n t = Some t' ->
  exists more, node_levels t' = node_levels t ++ more.
Proof.
  induction tokens as [|[token token_index] rest IH]; intros skip st n t t' Hrun.
  - cbn in Hrun. injection Hrun as <-. exists []. now rewrite app_nil_r.
  - cbn [token_loop] in Hrun. destruct skip; [now apply (IH _ _ _ _ _ Hrun)|].
    assert (Hstep : forall sk st1 n1 d rb re p,
              token_loop consume_next rest sk st1 n1
                (if is_node token then push_node token rb re p d t else t) = Some t' ->
              exists more, node_levels t' = node_levels t ++ more).
    { intros sk st1 n1 d rb re p H. apply IH in H. destruct H as (more & ->).
      destruct (is_node token); [|now exists more].
      cbn [push_node node_levels]. rewrite <- app_assoc. now eexists. }
    destruct (token_eqb token TK_BFN); [now apply Hstep in Hrun|].
    destruct (does_push token); [now apply Hstep in Hrun|].
    destruct (does_pop token); [|now apply Hstep in Hrun].
    destruct st as [|top below]; [discriminate Hrun | now apply Hstep in Hrun].
Qed.

(** As long as no level wraps around, the loop keeps its invariant. *)
Lemma token_loop_inv consume_next : forall tokens skip st n t t',
  builder_inv st n t ->
  Z.of_nat (length st) <= TreeDepthT_max + 1 ->
  token_loop consume_next tokens skip st n t = Some t' ->
  Forall (fun level => 0 <= level) (node_levels t') ->
  exists n', arrays_aligned t' n' /\ forall i, 0 <= i < n' -> node_ok t' i.
Proof.
  induction tokens as [|[token token_index] rest IH];
    intros skip st n t t' Hinv Hdepth Hrun Hpos.
  - cbn in Hrun. injection Hrun as <-. exists n. destruct Hinv as (Ha & _ & Hok). now split.
  - cbn [token_loop] in Hrun.
    destruct skip; [now apply (IH _ _ _ _ _ Hinv Hdepth Hrun)|].
    set (rb := get_token_index token token_index) in *.
    set (consumed := is_begin_of_section token && _) in *.
    set (re := if consumed then _ else _) in *.
    set (p := match st with top :: _ => fst top | [] => parent_node_sentinel end) in *.
    (* a node is created below the height that wraps *)
    assert (Hfits : is_node token = true -> Z.of_nat (length st) <= TreeDepthT_max).
    { intros Hnode. rewrite Hnode in Hrun.
      apply to_TreeDepthT_fits; [lia|].
      assert (Hin : exists more,
                node_levels t'
                = (node_levels t ++ [to_TreeDepthT (Z.of_nat (length st))]) ++ more).
      { destruct (token_eqb token TK_BFN);
          [now apply token_loop_levels in Hrun|].
        destruct (does_push token); [now apply token_loop_levels in Hrun|].
        destruct (does_pop token); [|now apply token_loop_levels in Hrun].
        destruct st as [|top below];
          [discriminate Hrun | now apply token_loop_levels in Hrun]. }
      destruct Hin as (more & Hin). rewrite Hin in Hpos.
      apply Forall_app in Hpos. destruct Hpos as (Hpos & _).
      apply Forall_app in Hpos. destruct Hpos as (_ & Hpos).
      now inversion Hpos. }
    assert (Hnext : exists n1 t1,
              n1 = (if is_node token then n + 1 else n)
              /\ t1 = (if is_node token
                       then push_node token rb re p
                                      (to_TreeDepthT (Z.of_nat (length st))) t
                       else t)
              /\ builder_inv st n1 t1
              /\ (is_node token = true ->
                  forall fn, stack_ok (node_levels t1) n1 ((n, fn) :: st))).
    { destruct (is_node token) eqn:Hnode.
      - pose proof (builder_inv_push st n t token rb re Hinv (Hfits eq_refl)) as Hpush.
        cbv zeta in Hpush. fold p in Hpush. destruct Hpush as (Hinv' & Hnew).
        do 2 eexists. split; [reflexivity|]. split; [reflexivity|].
        split; [exact Hinv'|]. intros _ fn.
        assert (Hn : 0 <= n) by (destruct Hinv as ((_ & E & _) & _); lia).
        destruct Hinv' as (_ & Hst' & _).
        cbn. repeat split; [lia | lia | exact Hnew | exact Hst'].
      - do 2 eexists. split; [reflexivity|]. split; [reflexivity|].
        split; [exact Hinv|]. discriminate. }
    destruct Hnext as (n1 & t1 & En & Et & (Ha1 & Hst1 & Hok1) & Hpushed).
    rewrite <- En, <- Et in Hrun. clear En Et.
    destruct (token_eqb token TK_BFN) eqn:Hbfn.
    { assert (Hnode : is_node token = true) by (destruct token; try discriminate Hbfn; reflexivity).
      eapply IH; [| |exact Hrun|exact Hpos].
      - split; [exact Ha1|]. split; [now apply Hpushed | exact Hok1].
      - specialize (Hfits Hnode). cbn [length]. lia. }
    destruct (does_push token) eqn:Hpush.
    { assert (Hnode : is_node token = true) by (destruct token; try discriminate Hpush; reflexivity).
      eapply IH; [| |exact Hrun|exact Hpos].
      - split; [exact Ha1|]. split; [|exact Hok1].
        apply (stack_ok_pop_field_name _ _ ((n, no_field_name_node) :: st)).
        now apply Hpushed.
      - specialize (Hfits Hnode).
        pose proof (pop_field_name_length ((n, no_field_name_node) :: st)) as Hle.
        cbn [length] in Hle. cbn [snd no_field_name_node] in *. cbn [length]. lia. }
    destruct (does_pop token) eqn:Hpop.
    { destruct st as [|top below]; [discriminate Hrun|].
      eapply IH; [| |exact Hrun|exact Hpos].
      - split; [exact Ha1|]. split; [|exact Hok1].
        apply stack_ok_pop_field_name. cbn in Hst1. tauto.
      - pose proof (pop_field_name_length below) as Hle. cbn [length] in Hdepth. lia. }
    eapply IH; [| |exact Hrun|exact Hpos].
    + split; [exact Ha1|]. split; [|exact Hok1]. now apply stack_ok_pop_field_name.
    + pose proof (pop_field_name_length st) as Hle. lia.
Qed.

Lemma tree_of_tokens_ok consume_next tokens t :
  tree_of_tokens consume_next tokens = Some t ->
  Forall (fun level => 0 <= level) (node_levels t) ->
  exists n, arrays_aligned t n /\ forall i, 0 <= i < n -> node_ok t i.
Proof.
  intros Hrun Hpos.
  apply (token_loop_inv consume_next tokens false [] 0 empty_tree t); try assumption.
  - split; [|split].
    + repeat split.
    + exact I.
    + intros i Hi. lia.
  - cbn. unfold TreeDepthT_max. lia.
Qed.

End NodeTreeFacts.

(** ** Claims about the column category unification *)

Section UnifyClaims.
Import ColumnTree.

(** C1.  The category merge operator of the Column Tree Reducer: equal
    categories unify to themselves; a leaf (String or Value) with a nested
    category (Struct or List) gives the nested category; a leaf with the
    field-name category gives Error; String with Value gives String; every
    other pair of distinct categories (Struct with List, anything else
    with Error, a non-leaf with the field-name category) gives Error. *)
Theorem unify_categories_table :
  (forall a, unify_categories a a = a) /\
  (forall l n, is_leaf_category l = true -> is_nested_category n = true ->
     unify_categories l n = n /\ unify_categories n l = n) /\
  (forall l, is_leaf_category l = true ->
     unify_categories l NC_FN = NC_ERR /\ unify_categories NC_FN l = NC_ERR) /\
  (unify_categories NC_STR NC_VAL = NC_STR /\
   unify_categories NC_VAL NC_STR = NC_STR) /\
  (forall a b, a <> b ->
     (is_leaf_category a = false \/ b = NC_ERR) ->
     (is_leaf_category b = false \/ a = NC_ERR) ->
     unify_categories a b = NC_ERR).
Proof.
  repeat split.
  - intros []; reflexivity.
  - destruct l, n; cbn in *; congruence.
  - destruct l, n; cbn in *; congruence.
  - destruct l; cbn in *; congruence.
  - destruct l; cbn in *; congruence.
  - intros a b Hne Ha Hb; destruct a, b; cbn in *; destruct Ha, Hb; congruence.
Qed.

Lemma unify_categories_table_witness :
  unify_categories NC_VAL NC_LIST = NC_LIST /\
  unify_categories NC_STR NC_FN = NC_ERR /\
  unify_categories NC_STRUCT NC_LIST = NC_ERR.
Proof.
  destruct unify_categories_table as (_ & Hnest & Hfn & _ & Hother).
  split; [|split].
  - apply (Hnest NC_VAL NC_LIST); reflexivity.
  - apply (Hfn NC_STR); reflexivity.
  - apply (Hother NC_STRUCT NC_LIST); [discriminate | left; reflexivity | left; reflexivity].
Defined.

(** C2.  The category merge operator is commutative and associative, and
    so is the (row offset, category) operator of the CSR variant; hence
    reducing a run of categories of one column gives the same result for
    every grouping and every order of the run. *)
Theorem unify_reduction_order_independent :
  (forall a b, unify_categories a b = unify_categories b a) /\
  (forall a b c, unify_categories (unify_categories a b) c
                 = unify_categories a (unify_categories b c)) /\
  (forall g1 g2 : grouping node_t,
     Permutation (leaves g1) (leaves g2) ->
     reduce_grouping unify_categories g1 = reduce_grouping unify_categories g2) /\
  (forall g : grouping node_t, forall first rest,
     Permutation (leaves g) (first :: rest) ->
     reduce_grouping unify_categories g = reduce_run unify_categories first rest) /\
  (forall g1 g2 : grouping (Z * node_t),
     Permutation (leaves g1) (leaves g2) ->
     reduce_grouping max_row_offsets_col_categories_op g1
     = reduce_grouping max_row_offsets_col_categories_op g2).
Proof.
  split; [exact unify_comm|]. split; [exact unify_assoc|]. split; [|split].
  - apply reduce_grouping_perm; [exact unify_comm | exact unify_assoc].
  - intros g first rest P.
    destruct (reduce_grouping_leaves unify_categories unify_assoc g)
      as (a & l & E & ->).
    apply reduce_run_perm; [exact unify_comm | exact unify_assoc |].
    now rewrite <- E.
  - apply reduce_grouping_perm; [exact csr_op_comm | exact csr_op_assoc].
Qed.

Lemma unify_reduction_order_independent_witness :
  reduce_grouping unify_categories
    (Join (Join (One NC_VAL) (One NC_STR)) (One NC_LIST))
  = reduce_grouping unify_categories
    (Join (One NC_LIST) (Join (One NC_VAL) (One NC_STR))).
Proof.
  apply (proj1 (proj2 (proj2 unify_reduction_order_independent))).
  cbn [leaves app].
  symmetry.
  apply Permutation_cons_app with (l1 := [NC_VAL; NC_STR]) (l2 := []).
  apply Permutation_refl.
Defined.

End UnifyClaims.

(** ** Claims about the tokenizing pushdown automaton *)

Section PdaClaims.
Import Tokenizer.

(** The stack context and the token stream of two small inputs without
    escaped quotes. *)
Example stack_context_in_string_brackets :
  get_stack_context (json_bytes "[{'t': '{}[]'}] ")
  = bytes_of_string "_[{{{{{{{{{{{{[_".
Proof. vm_compute. reflexivity. Qed.

Example token_stream_small :
  get_token_stream (json_bytes "[{'a':0.0,'b':[1]}]")
  = [(TK_BOL, 0); (TK_BOS, 1); (TK_BFN, 2); (TK_EFN, 4); (TK_BOV, 6);
     (TK_POV, 9); (TK_BFN, 10); (TK_EFN, 12); (TK_BOL, 14); (TK_BOV, 15);
     (TK_POV, 16); (TK_EOL, 16); (TK_EOS, 17); (TK_EOL, 18)].
Proof. vm_compute. reflexivity. Qed.

(** C6, as the specification states it, does not hold: in the Error state
    no cell of the translation table emits a token. *)
Lemma pda_error_state_emits_no_error_token :
  ~ (forall g s,
       pda_transition PD_ERR (pda_sgid g s) = PD_ERR /\
       In TK_ERR (pda_translation PD_ERR (pda_sgid g s))).
Proof.
  intros H. destruct (H OBC STACK_ROOT) as (_ & Hin). cbn in Hin. exact Hin.
Qed.

Lemma pda_error_row g s :
  pda_transition PD_ERR (pda_sgid g s) = PD_ERR /\
  pda_translation PD_ERR (pda_sgid g s) = [].
Proof. destruct g, s; split; reflexivity. Qed.

Lemma pda_entering_error_emits st g s :
  st <> PD_ERR -> pda_transition st (pda_sgid g s) = PD_ERR ->
  pda_translation st (pda_sgid g s) = [TK_ERR].
Proof.
  destruct st, g, s; intros Hne; cbn; intros E;
    first [reflexivity | discriminate E | exfalso; apply Hne; reflexivity].
Qed.

Lemma pda_error_token_enters_error st g s :
  In TK_ERR (pda_translation st (pda_sgid g s)) ->
  st <> PD_ERR /\ pda_transition st (pda_sgid g s) = PD_ERR.
Proof.
  destruct st, g, s; cbn; intros Hin;
    repeat (destruct Hin as [Hin|Hin]; [discriminate Hin|]);
    first [contradiction | split; [discriminate | reflexivity]].
Qed.

(** C6 (amended).  The Error state is sticky: for every input symbol group
    and every stack context the transition out of PD_ERR leads back to
    PD_ERR and emits no token.  The Error token is emitted once, by the
    transition that enters the Error state: every transition from another
    state into PD_ERR emits exactly one TK_ERR, and no other cell of the
    translation table holds a TK_ERR, so a transition that emits it
    starts outside PD_ERR and ends in it. *)
Theorem pda_error_state_sticky :
  (forall g s,
     pda_transition PD_ERR (pda_sgid g s) = PD_ERR /\
     pda_translation PD_ERR (pda_sgid g s) = []) /\
  (forall st g s,
     st <> PD_ERR -> pda_transition st (pda_sgid g s) = PD_ERR ->
     pda_translation st (pda_sgid g s) = [TK_ERR]) /\
  (forall st g s,
     In TK_ERR (pda_translation st (pda_sgid g s)) ->
     st <> PD_ERR /\ pda_transition st (pda_sgid g s) = PD_ERR).
Proof.
  split; [exact pda_error_row|].
  split; [exact pda_entering_error_emits | exact pda_error_token_enters_error].
Qed.

Lemma pda_error_state_sticky_witness :
  pda_translation PD_PVL (pda_sgid OTR STACK_ROOT) = [TK_ERR]
  /\ pda_transition PD_PVL (pda_sgid OTR STACK_ROOT) = PD_ERR.
Proof.
  split.
  - apply (proj1 (proj2 pda_error_state_sticky) PD_PVL OTR STACK_ROOT);
      [discriminate | reflexivity].
  - apply (proj2 (proj2 pda_error_state_sticky) PD_PVL OTR STACK_ROOT).
    left. reflexivity.
Defined.

(** Once the automaton is in the Error state, the rest of the input
    produces no token at all. *)
Lemma transduce_from_error_silent : forall sgids pos,
  Forall (fun sg => (sg < 30)%nat) sgids ->
  Fst.transduce pda_transition pda_translation PD_ERR pos sgids = [].
Proof.
  induction sgids as [|sg tl IH]; intros pos Hall; [reflexivity|].
  inversion Hall as [|? ? Hsg Htl]; subst. cbn [Fst.transduce].
  assert (E : pda_transition PD_ERR sg = PD_ERR /\ pda_translation PD_ERR sg = []).
  { do 30 (destruct sg as [|sg]; [split; reflexivity|]). lia. }
  destruct E as (-> & ->). cbn. now apply IH.
Qed.

Lemma pda_sgid_bound g s : (pda_sgid g s < 30)%nat.
Proof. destruct g, s; cbn; lia. Qed.

Lemma symbol_group_is_pda_sgid symbol stack_symbol :
  exists g s, PdaSymbolToSymbolGroupId symbol stack_symbol = pda_sgid g s.
Proof. unfold PdaSymbolToSymbolGroupId, pda_sgid. now eexists _, _. Qed.

(** In a run of the automaton the Error token comes at most once, and
    then it is the last token of the stream. *)
Lemma transduce_error_token_last : forall sgids st pos,
  Forall (fun sg => exists g s, sg = pda_sgid g s) sgids ->
  exists before,
    Forall (fun tk => fst tk <> TK_ERR) before /\
    (Fst.transduce pda_transition pda_translation st pos sgids = before \/
     exists p,
       Fst.transduce pda_transition pda_translation st pos sgids
       = before ++ [(TK_ERR, p)]).
Proof.
  induction sgids as [|sg rest IH]; intros st pos Hall.
  - exists []. split; [constructor | now left].
  - inversion Hall as [|? ? (g & s & ->) Hrest]; subst. cbn [Fst.transduce].
    assert (Hdec : forall a b : token_t, {a = b} + {a <> b}) by decide equality.
    destruct (in_dec Hdec TK_ERR (pda_translation st (pda_sgid g s))) as [Hin|Hnin].
    + destruct (pda_error_token_enters_error _ _ _ Hin) as (Hne & Hto).
      rewrite (pda_entering_error_emits _ _ _ Hne Hto), Hto.
      rewrite transduce_from_error_silent.
      * exists []. split; [constructor | right; now exists pos].
      * eapply Forall_impl; [|exact Hrest].
        intros sg (g' & s' & ->). apply pda_sgid_bound.
    + destruct (IH (pda_transition st (pda_sgid g s)) (pos + 1) Hrest)
        as (before & Hb & Hrun).
      exists (map (fun o => (o, pos)) (pda_translation st (pda_sgid g s)) ++ before).
      split.
      * apply Forall_app. split; [|exact Hb].
        apply Forall_forall. intros tk Htk. apply in_map_iff in Htk.
        destruct Htk as (o & <- & Ho). cbn. intros ->. now apply Hnin.
      * destruct Hrun as [-> | (p & ->)]; [now left | right].
        exists p. now rewrite app_assoc.
Qed.

Lemma get_token_stream_error_token_last input :
  exists before,
    Forall (fun tk => fst tk <> TK_ERR) before /\
    (get_token_stream input = before \/
     exists p, get_token_stream input = before ++ [(TK_ERR, p)]).
Proof.
  unfold get_token_stream. apply transduce_error_token_last.
  apply Forall_forall. intros sg Hin. apply in_map_iff in Hin.
  destruct Hin as ((symbol & stack_symbol) & <- & _).
  apply symbol_group_is_pda_sgid.
Qed.

End PdaClaims.

(** ** Claims about the node tree builder *)

Section NodeTreeClaims.
Import Tokenizer NodeTree.

(** The golden tree of the TreeRepresentation2 test. *)
Example tree_representation2_golden :
  get_tree_representation (fun _ => true)
    (json_bytes "[ {}, { 'a': { 'y' : 6, 'z': [] }}, { 'a' : { 'x' : 8, 'y': 9}, 'b' : {'x': 10 , 'z': 11}}]")
  = Some (mk_tree
      [NC_LIST; NC_STRUCT;
       NC_STRUCT; NC_FN; NC_STRUCT; NC_FN; NC_VAL; NC_FN; NC_LIST;
       NC_STRUCT; NC_FN; NC_STRUCT; NC_FN; NC_VAL; NC_FN; NC_VAL;
       NC_FN; NC_STRUCT; NC_FN; NC_VAL; NC_FN; NC_VAL]
      [parent_node_sentinel; 0; 0; 2; 3; 4; 5; 4; 7; 0; 9; 10; 11; 12; 11; 14;
       9; 16; 17; 18; 17; 20]
      [0; 1; 1; 2; 3; 4; 5; 4; 5; 1; 2; 3; 4; 5; 4; 5; 2; 3; 4; 5; 4; 5]
      [0; 2; 6; 9; 13; 16; 21; 25; 29; 36; 39; 44; 47; 52; 56; 60; 65; 70; 72;
       76; 82; 86]
      [1; 3; 7; 10; 14; 17; 22; 26; 30; 37; 40; 45; 48; 53; 57; 61; 66; 71; 73;
       78; 83; 88]).
Proof. vm_compute. reflexivity. Qed.

(** C3, as the specification states it, does not hold: the input [1 2]
    makes the builder return two nodes (the value and the error) that both
    have the sentinel as parent, whatever the numbering of the tokens. *)
Lemma forest_invariant_two_roots :
  (exists t, get_tree_representation (fun _ => true) (json_bytes "1 2") = Some t
             /\ ~ forest_invariant t) /\
  (exists t, get_tree_representation (fun _ => false) (json_bytes "1 2") = Some t
             /\ ~ forest_invariant t).
Proof.
  assert (K : ~ forest_invariant (mk_tree [NC_VAL; NC_ERR] [-1; -1] [0; 0] [0; 2] [1; 3])).
  { intros ((i & Hi & _ & Huniq) & _). cbn in Hi, Huniq.
    assert (E0 : 0 = i) by (apply Huniq; [lia | reflexivity]).
    assert (E1 : 1 = i) by (apply Huniq; [lia | reflexivity]).
    lia. }
  split; eexists; (split; [vm_compute; reflexivity | exact K]).
Qed.

(** Beyond 127 open brackets the stored level wraps around: the 129th
    list of a run of opening brackets is stored with level -128. *)
Example level_wraps_at_depth_128 :
  exists t,
    get_tree_representation (fun _ => true) (repeat 91 130) = Some t
    /\ at_index 0 (node_levels t) 127 = 127
    /\ at_index 0 (node_levels t) 128 = -128
    /\ at_index 0 (parent_node_ids t) 128 = 127.
Proof. eexists. split; [vm_compute; reflexivity|]. repeat split. Qed.

(** C3 (amended).  For every input on which [get_tree_representation]
    returns without a level having wrapped around (the levels are kept
    in [TreeDepthT]; none is negative as long as no node lies deeper than
    127), the arrays have one entry per node and every node either has
    the sentinel as parent and sits at level 0, or has an earlier node as
    parent and sits one level below it.  The number of nodes with the
    sentinel as parent is not fixed. *)
Theorem get_tree_representation_forest :
  forall token_nonzero input t,
    get_tree_representation token_nonzero input = Some t ->
    Forall (fun level => 0 <= level) (node_levels t) ->
    exists n, arrays_aligned t n /\ forall i, 0 <= i < n -> node_ok t i.
Proof.
  intros nz input t H Hpos. exact (tree_of_tokens_ok _ _ _ H Hpos).
Qed.

Lemma get_tree_representation_forest_witness :
  exists t,
    get_tree_representation (fun _ => true) (json_bytes "[{'a':[1,{}]}]") = Some t /\
    Forall (fun level => 0 <= level) (node_levels t) /\
    exists n, arrays_aligned t n /\ forall i, 0 <= i < n -> node_ok t i.
Proof.
  eexists. split; [|split].
  - vm_compute. reflexivity.
  - repeat constructor; discriminate.
  - apply (get_tree_representation_forest (fun _ => true)
             (json_bytes "[{'a':[1,{}]}]")).
    + vm_compute. reflexivity.
    + repeat constructor; discriminate.
Defined.

End NodeTreeClaims.

(** ** Claims about the column materialiser *)

Section ScanFacts.

Lemma fold_left_max_ge : forall v acc, acc <= fold_left Z.max v acc.
Proof.
  induction v as [|x v IH]; intros acc; cbn; [lia|].
  specialize (IH (Z.max acc x)). lia.
Qed.

Lemma scan_from_sorted : forall v acc,
  Sorted Z.le (Buffer.inclusive_scan_from Z.max acc v) /\
  HdRel Z.le acc (Buffer.inclusive_scan_from Z.max acc v).
Proof.
  induction v as [|x v IH]; intros acc; cbn.
  - split; constructor.
  - destruct (IH (Z.max acc x)) as (Hs & Hh). split.
    + constructor; assumption.
    + constructor. lia.
Qed.

Lemma scan_from_last : forall v acc d,
  last (Buffer.inclusive_scan_from Z.max acc v) d
  = match v with [] => d | _ => fold_left Z.max v acc end.
Proof.
  induction v as [|x v IH]; intros acc d; [reflexivity|].
  cbn [Buffer.inclusive_scan_from fold_left].
  destruct v as [|y v']; [reflexivity|].
  specialize (IH (Z.max acc x) d).
  cbn [Buffer.inclusive_scan_from] in *. exact IH.
Qed.

Lemma scan_from_length : forall v acc,
  length (Buffer.inclusive_scan_from Z.max acc v) = length v.
Proof. induction v as [|x v IH]; intros acc; cbn; [reflexivity | now rewrite IH]. Qed.

Lemma scan_from_dominates : forall v acc i,
  (i < length v)%nat ->
  nth i v 0 <= nth i (Buffer.inclusive_scan_from Z.max acc v) 0.
Proof.
  induction v as [|x v IH]; intros acc i Hi; cbn in *; [lia|].
  destruct i as [|i]; [lia|]. apply IH. lia.
Qed.

(** The inclusive scan with [maximum] yields a non-decreasing buffer of
    the same length, whose entries dominate the scattered ones and whose
    last entry is the largest scattered value. *)
Lemma inclusive_scan_max_spec : forall v d,
  Sorted Z.le (Buffer.inclusive_scan Z.max v) /\
  length (Buffer.inclusive_scan Z.max v) = length v /\
  (forall i, (i < length v)%nat ->
             nth i v 0 <= nth i (Buffer.inclusive_scan Z.max v) 0) /\
  last (Buffer.inclusive_scan Z.max v) d = Buffer.maximum d v.
Proof.
  intros [|x v] d; cbn [Buffer.inclusive_scan Buffer.maximum].
  - repeat split; [constructor | intros i Hi; cbn in Hi; lia].
  - destruct (scan_from_sorted v x) as (Hs & Hh). repeat split.
    + constructor; assumption.
    + cbn. now rewrite scan_from_length.
    + intros [|i] Hi; cbn in *; [lia|]. apply scan_from_dominates. lia.
    + destruct v as [|y v']; [reflexivity|].
      change (last (x :: Buffer.inclusive_scan_from Z.max x (y :: v')) d)
        with (last (Buffer.inclusive_scan_from Z.max x (y :: v')) d).
      apply scan_from_last.
Qed.

End ScanFacts.

Section MaterializerClaims.
Import NodeTree Traversal Reducer Materializer.

(** The node tree, the column ids and the row offsets of
    [[{"a":0.0,"b":1.0},{"a":0.1,"b":1.1}]]. *)
Example scenario1_tree :
  get_tree_representation_cpu
    (json_bytes "[{'a':0.0,'b':1.0},{'a':0.1,'b':1.1}]")
  = Some (mk_tree
      [NC_LIST; NC_STRUCT; NC_FN; NC_VAL; NC_FN; NC_VAL; NC_STRUCT; NC_FN;
       NC_VAL; NC_FN; NC_VAL]
      [-1; 0; 1; 2; 1; 4; 0; 6; 7; 6; 9]
      [0; 1; 2; 3; 2; 3; 1; 2; 3; 2; 3]
      [0; 1; 3; 6; 11; 14; 19; 21; 24; 29; 32]
      [1; 2; 4; 9; 12; 17; 20; 22; 27; 30; 35]).
Proof. vm_compute. reflexivity. Qed.

(** C7, as the specification states it, does not hold for String columns:
    [string_offsets] holds the byte offsets of the rows in the input, so
    after the scan its last entry is the largest such offset, not the
    number of characters of the column.  Column "a" of
    [[{"a":0.0,"b":1.0},{"a":0.1,"b":1.1}]] ends with offset 24 and holds
    6 characters. *)
Lemma string_offsets_last_is_not_char_count :
  exists root elem a,
    make_json_column2 0
      (json_bytes "[{'a':0.0,'b':1.0},{'a':0.1,'b':1.1}]")
      (mk_tree
         [NC_LIST; NC_STRUCT; NC_FN; NC_VAL; NC_FN; NC_VAL; NC_STRUCT; NC_FN;
          NC_VAL; NC_FN; NC_VAL]
         [-1; 0; 1; 2; 1; 4; 0; 6; 7; 6; 9]
         [0; 1; 2; 3; 2; 3; 1; 2; 3; 2; 3]
         [0; 1; 3; 6; 11; 14; 19; 21; 24; 29; 32]
         [1; 2; 4; 9; 12; 17; 20; 22; 27; 30; 35])
      [0; 1; 2; 3; 4; 5; 1; 2; 3; 4; 5]
      [0; 0; 0; 0; 0; 0; 1; 1; 1; 1; 1] = Ok root /\
    lookup_name "element" (child_columns root) = Some elem /\
    lookup_name "a" (child_columns elem) = Some a /\
    col_type a = StringColumn /\
    string_offsets a = [6; 24] /\
    string_lengths a = [3; 3] /\
    last (string_offsets a) 0 <> chars_written a.
Proof.
  do 3 eexists. split; [vm_compute; reflexivity|].
  split; [reflexivity|]. split; [reflexivity|].
  split; [reflexivity|]. split; [reflexivity|]. split; [reflexivity|].
  vm_compute. discriminate.
Qed.

(** C7 (amended).  The scan over the offsets of a materialised String or
    List column leaves an offsets buffer ([string_offsets], respectively
    [child_offsets]) of the same length that is non-decreasing, dominates
    the scattered values, and whose last value is the largest value that
    was scattered into it. *)
Theorem scan_offsets_monotone : forall col d,
  (b_type col = StringColumn ->
     Sorted Z.le (b_string_offsets (scan_offsets col)) /\
     length (b_string_offsets (scan_offsets col)) = length (b_string_offsets col) /\
     (forall i, (i < length (b_string_offsets col))%nat ->
        nth i (b_string_offsets col) 0
        <= nth i (b_string_offsets (scan_offsets col)) 0) /\
     last (b_string_offsets (scan_offsets col)) d
     = Buffer.maximum d (b_string_offsets col)) /\
  (b_type col = ListColumn ->
     Sorted Z.le (b_child_offsets (scan_offsets col)) /\
     length (b_child_offsets (scan_offsets col)) = length (b_child_offsets col) /\
     (forall i, (i < length (b_child_offsets col))%nat ->
        nth i (b_child_offsets col) 0
        <= nth i (b_child_offsets (scan_offsets col)) 0) /\
     last (b_child_offsets (scan_offsets col)) d
     = Buffer.maximum d (b_child_offsets col)).
Proof.
  intros col d. split; intros E; unfold scan_offsets; rewrite E;
    cbn [b_string_offsets b_child_offsets]; apply inclusive_scan_max_spec.
Qed.

Lemma scan_offsets_monotone_witness :
  Sorted Z.le
    (b_string_offsets
       (scan_offsets (mk_buffers StringColumn [6; 0; 24] [3; 0; 3] []
                                 [true; false; true] [] [] 3))) /\
  last (b_child_offsets
          (scan_offsets (mk_buffers ListColumn [] [] [0; 2; 0; 3]
                                    [true; false; true] [] [] 3))) 0 = 3.
Proof.
  split.
  - apply (proj1 (scan_offsets_monotone
                    (mk_buffers StringColumn [6; 0; 24] [3; 0; 3] []
                                [true; false; true] [] [] 3) 0)).
    reflexivity.
  - apply (proj2 (scan_offsets_monotone
                    (mk_buffers ListColumn [] [] [0; 2; 0; 3]
                                [true; false; true] [] [] 3) 0)).
    reflexivity.
Defined.

End MaterializerClaims.

(** ** Where the failures of the reader come from *)

Section FailureSites.
Import NodeTree Traversal Reducer Materializer Reader.






















End FailureSites.

(** ** Claims about [parse_nested_json2] *)

Section ReaderClaims.
Import NodeTree Traversal Reducer Materializer Reader.

(** C4.  Parsing [[{"a":0.0,"b":1.0},{"a":0.1,"b":1.1}]] yields a table
    of two rows with exactly two columns, named "a" and "b", both String
    columns without nulls, holding "0.0", "0.1" and "1.0", "1.1". *)
Theorem scenario1_table : forall past_the_end new_line_delimited_json,
  parse_nested_json2 past_the_end
    (json_bytes "[{'a':0.0,'b':1.0},{'a':0.1,'b':1.1}]")
    new_line_delimited_json
  = Ok ([strings_column [bytes_of_string "0.0"; bytes_of_string "0.1"] [] 0;
         strings_column [bytes_of_string "1.0"; bytes_of_string "1.1"] [] 0],
        [name_info "a" [name_info "offsets" []; name_info "chars" []];
         name_info "b" [name_info "offsets" []; name_info "chars" []]]).
Proof.
  intros pte [|]; vm_compute; reflexivity.
Qed.








End ReaderClaims.

(** ** The device string caster *)

Section CasterBuffers.
Import Caster.

Lemma update_length {A} (v : list A) i x : length (update v i x) = length v.
Proof.
  unfold update. destruct ((0 <=? i) && (i <? Z.of_nat (length v))) eqn:E; [|reflexivity].
  apply andb_prop in E. destruct E as (E1 & E2).
  apply Z.leb_le in E1. apply Z.ltb_lt in E2.
  rewrite length_app. cbn [length]. rewrite length_firstn, length_skipn. lia.
Qed.

Lemma nth_update_same {A} (v : list A) i x d :
  0 <= i < Z.of_nat (length v) -> nth (Z.to_nat i) (update v i x) d = x.
Proof.
  intros H. unfold update.
  replace ((0 <=? i) && (i <? Z.of_nat (length v))) with true
    by (symmetry; apply andb_true_intro; split; [apply Z.leb_le | apply Z.ltb_lt]; lia).
  rewrite app_nth2; rewrite length_firstn; [|lia].
  replace (Z.to_nat i - Nat.min (Z.to_nat i) (length v))%nat with 0%nat by lia.
  reflexivity.
Qed.

Lemma nth_update_other {A} (v : list A) i x d (k : nat) :
  Z.of_nat k <> i -> nth k (update v i x) d = nth k v d.
Proof.
  intros Hne. unfold update.
  destruct ((0 <=? i) && (i <? Z.of_nat (length v))) eqn:E; [|reflexivity].
  apply andb_prop in E. destruct E as (E1 & E2).
  apply Z.leb_le in E1. apply Z.ltb_lt in E2.
  destruct (Nat.lt_ge_cases k (Z.to_nat i)) as [Hlt | Hge].
  - rewrite app_nth1 by (rewrite length_firstn; lia).
    rewrite nth_firstn. destruct (Nat.ltb_spec k (Z.to_nat i)); [reflexivity | lia].
  - rewrite app_nth2 by (rewrite length_firstn; lia).
    rewrite length_firstn.
    replace (k - Nat.min (Z.to_nat i) (length v))%nat
      with (S (k - S (Z.to_nat i)))%nat by lia.
    cbn [nth]. rewrite nth_skipn. f_equal. lia.
Qed.

End CasterBuffers.

Section CasterState.
Import NodeTree Caster.

Lemma nth_update_here {A} (v : list A) (k : nat) x d :
  (k < length v)%nat -> nth k (update v (Z.of_nat k) x) d = x.
Proof.
  intros H. rewrite <- (Nat2Z.id k) at 1. apply nth_update_same. lia.
Qed.

Lemma update_idem {A} (v : list A) i x : update (update v i x) i x = update v i x.
Proof.
  apply nth_ext with (d := x) (d' := x); [now rewrite !update_length|].
  intros k Hk. rewrite !update_length in Hk.
  destruct (Z.eq_dec (Z.of_nat k) i) as [E | Hne].
  - subst i. rewrite !nth_update_here; rewrite ?update_length; auto.
  - now rewrite nth_update_other.
Qed.

Lemma update_comm {A} (v : list A) i j x y :
  i <> j -> update (update v i x) j y = update (update v j y) i x.
Proof.
  intros Hij.
  apply nth_ext with (d := x) (d' := x); [now rewrite !update_length|].
  intros k Hk. rewrite !update_length in Hk.
  destruct (Z.eq_dec (Z.of_nat k) i) as [E | Hi];
    destruct (Z.eq_dec (Z.of_nat k) j) as [E' | Hj]; try lia.
  - subst i. rewrite nth_update_other by lia.
    rewrite !nth_update_here; rewrite ?update_length; auto.
  - subst j. rewrite (nth_update_other (update v (Z.of_nat k) y)) by lia.
    rewrite !nth_update_here; rewrite ?update_length; auto.
  - now rewrite !nth_update_other.
Qed.

Lemma overwrite_update_comm : forall data v p q b,
  p < q -> update (overwrite v q data) p b = overwrite (update v p b) q data.
Proof.
  induction data as [|c data IH]; intros v p q b Hpq; cbn [overwrite]; [reflexivity|].
  rewrite IH by lia. f_equal. apply update_comm. lia.
Qed.

Lemma overwrite_idem : forall data v p,
  overwrite (overwrite v p data) p data = overwrite v p data.
Proof.
  induction data as [|c data IH]; intros v p; cbn [overwrite]; [reflexivity|].
  rewrite overwrite_update_comm by lia. rewrite update_idem. apply IH.
Qed.

Lemma zero_offset_idem idx st : zero_offset idx (zero_offset idx st) = zero_offset idx st.
Proof.
  unfold zero_offset. destruct (size_pass st) eqn:E.
  - unfold size_pass, set_offset in *. cbn. rewrite E.
    cbn. now rewrite update_idem.
  - now rewrite E.
Qed.

Lemma set_offset_idem idx x st : set_offset idx x (set_offset idx x st) = set_offset idx x st.
Proof. unfold set_offset. cbn. now rewrite update_idem. Qed.

Lemma bit_is_set_mark_null idx st : bit_is_set (mark_null idx st) idx = false.
Proof.
  unfold bit_is_set, mark_null. cbn. destruct (null_mask st) as [m|]; [|reflexivity].
  destruct (Z.leb_spec 0 idx) as [H0|H0]; [|reflexivity]. cbn.
  destruct (Z.ltb_spec idx (Z.of_nat (length m))) as [Hlt|Hge].
  - apply nth_update_same. lia.
  - unfold update.
    replace ((0 <=? idx) && (idx <? Z.of_nat (length m))) with false.
    + apply nth_overflow. lia.
    + symmetry. apply andb_false_iff. right. apply Z.ltb_ge. lia.
Qed.

Lemma bit_is_set_mark_null_other idx j st :
  j <> idx -> bit_is_set (mark_null idx st) j = bit_is_set st j.
Proof.
  intros Hne. unfold bit_is_set, mark_null. cbn.
  destruct (null_mask st) as [m|]; [|reflexivity].
  destruct (Z.leb_spec 0 j) as [H0|H0]; [|reflexivity]. cbn.
  apply nth_update_other. lia.
Qed.

Lemma at_index_update_other (v : list Z) i j x :
  0 <= j -> j <> i -> at_index 0 (update v i x) j = at_index 0 v j.
Proof. intros H0 Hne. unfold at_index. apply nth_update_other. lia. Qed.

Lemma at_index_update_same (v : list Z) i x :
  0 <= i < Z.of_nat (length v) -> at_index 0 (update v i x) i = x.
Proof. intros H. unfold at_index. now apply nth_update_same. Qed.

Lemma has_mask_zero_offset idx st : has_mask (zero_offset idx st) = has_mask st.
Proof. unfold zero_offset. now destruct (size_pass st). Qed.

Lemma has_mask_mark_null idx st : has_mask (mark_null idx st) = has_mask st.
Proof. unfold has_mask, mark_null. cbn. now destruct (null_mask st). Qed.

Lemma bit_is_set_zero_offset idx j st :
  bit_is_set (zero_offset idx st) j = bit_is_set st j.
Proof. unfold zero_offset. now destruct (size_pass st). Qed.

(** A row whose validity bit is cleared on entry is skipped by both
    kernels. *)
Lemma string_parse_skips_null options rows idx st :
  has_mask st = true -> bit_is_set st idx = false ->
  string_parse options rows idx st = zero_offset idx st.
Proof. intros Hm Hb. unfold string_parse. now rewrite Hm, Hb. Qed.

Lemma parallel_skips_null is_warp options rows idx st :
  has_mask st = true -> bit_is_set st idx = false ->
  parse_fn_string_parallel is_warp options rows idx st = zero_offset idx st.
Proof. intros Hm Hb. unfold parse_fn_string_parallel. now rewrite Hm, Hb. Qed.

Lemma cleared_bit_reads_false (m : list bool) idx :
  (0 <=? idx) && nth (Z.to_nat idx) (update m idx false) false = false.
Proof.
  exact (bit_is_set_mark_null idx (mk_state (Some m) 0 [] None)).
Qed.

Lemma string_parse_fixes_result options rows idx st s1 :
  s1 = string_parse options rows idx st ->
  string_parse options rows idx s1 = s1.
Proof.
  intros ->. destruct st as [mask cnt offs chars].
  unfold string_parse.
  generalize (process_string (at_index [] rows idx) options) as info.
  generalize (trie_na options (at_index [] rows idx)) as lit.
  intros lit info.
  unfold zero_offset, mark_null, set_offset, store_chars, has_mask, bit_is_set,
    size_pass.
  destruct mask as [m|], chars as [c|]; cbn;
    try destruct ((0 <=? idx) && nth (Z.to_nat idx) m false) eqn:Hbit; cbn;
    try rewrite Hbit; cbn;
    try destruct lit; cbn;
    try destruct (is_success (result_code info)) eqn:Hres; cbn;
    rewrite ?Hbit, ?Hres, ?cleared_bit_reads_false; cbn;
    rewrite ?update_idem, ?overwrite_idem; try reflexivity.
Qed.

Lemma string_parse_idempotent options rows idx st :
  string_parse options rows idx (string_parse options rows idx st)
  = string_parse options rows idx st.
Proof. now apply string_parse_fixes_result with (st := st). Qed.

End CasterState.

Section SequentialUnescape.
Import NodeTree Caster.

Lemma hex_digit_is_hex ch :
  (is_hex ch = true -> exists v, hex_digit ch = Some v /\ 0 <= v) /\
  (is_hex ch = false -> hex_digit ch = None).
Proof.
  unfold is_hex, hex_digit.
  destruct ((48 <=? ch) && (ch <=? 57)) eqn:E1; cbn.
  - split; [|discriminate]. intros _. eexists. split; [reflexivity|].
    apply andb_prop in E1. destruct E1 as (E & _). apply Z.leb_le in E. lia.
  - destruct ((65 <=? ch) && (ch <=? 70)) eqn:E2; cbn.
    + split; [|discriminate]. intros _. eexists. split; [reflexivity|].
      apply andb_prop in E2. destruct E2 as (E & _). apply Z.leb_le in E. lia.
    + destruct ((97 <=? ch) && (ch <=? 102)) eqn:E3; cbn.
      * split; [|discriminate]. intros _. eexists. split; [reflexivity|].
        apply andb_prop in E3. destruct E3 as (E & _). apply Z.leb_le in E. lia.
      * split; [discriminate | reflexivity].
Qed.

Lemma parse_hex_from_all_hex str : forall index result base,
  0 <= result -> 0 < base ->
  (forall i, (i < index)%nat -> is_hex (nth i str 0) = true) ->
  0 <= parse_hex_from str index result base.
Proof.
  induction index as [|index IH]; intros result base Hr Hb Hall; cbn; [exact Hr|].
  destruct (proj1 (hex_digit_is_hex (nth index str 0)) (Hall index (Nat.lt_succ_diag_r _)))
    as (v & -> & Hv).
  apply IH; [nia | lia | intros i Hi; apply Hall; lia].
Qed.

Lemma parse_hex_from_not_hex str : forall index result base,
  (exists i, (i < index)%nat /\ is_hex (nth i str 0) = false) ->
  parse_hex_from str index result base = -1.
Proof.
  induction index as [|index IH]; intros result base (i & Hi & Hbad); [lia|].
  cbn. destruct (hex_digit (nth index str 0)) as [v|] eqn:E; [|reflexivity].
  apply IH. exists i. split; [|exact Hbad].
  destruct (Nat.eq_dec i index) as [-> | Hne]; [|lia].
  rewrite (proj2 (hex_digit_is_hex _) Hbad) in E. discriminate.
Qed.

Lemma is_hex_zero : is_hex 0 = false.
Proof. reflexivity. Qed.

Lemma four_hex_digits_nth str :
  four_hex_digits str <-> forall i, (i < 4)%nat -> is_hex (nth i str 0) = true.
Proof.
  unfold four_hex_digits. split.
  - intros (Hlen & Hall) i Hi.
    rewrite Forall_forall in Hall.
    rewrite <- (nth_firstn 4 str i 0) || idtac.
    assert (E : nth i (firstn 4 str) 0 = nth i str 0).
    { rewrite nth_firstn. destruct (Nat.ltb_spec i 4); [reflexivity | lia]. }
    rewrite <- E. apply Hall. apply nth_In. rewrite length_firstn. lia.
  - intros Hall.
    assert (Hlen : (4 <= length str)%nat).
    { destruct (Nat.le_gt_cases 4 (length str)) as [H|H]; [exact H|].
      specialize (Hall (length str) H). rewrite nth_overflow in Hall by lia.
      discriminate. }
    split; [exact Hlen|]. apply Forall_forall. intros ch Hin.
    apply In_nth with (d := 0) in Hin. destruct Hin as (i & Hi & <-).
    rewrite length_firstn in Hi.
    rewrite nth_firstn. destruct (Nat.ltb_spec i 4); [|lia]. apply Hall. lia.
Qed.

Lemma parse_unicode_hex_valid str :
  four_hex_digits str <-> 0 <= parse_unicode_hex str.
Proof.
  rewrite four_hex_digits_nth. unfold parse_unicode_hex. split.
  - intros Hall. apply parse_hex_from_all_hex; [lia | lia | exact Hall].
  - intros Hpos i Hi.
    destruct (is_hex (nth i str 0)) eqn:E; [reflexivity|].
    rewrite parse_hex_from_not_hex in Hpos by (exists i; split; assumption). lia.
Qed.

Lemma is_surrogate_pair_low hex_val hex_low_val :
  is_surrogate_pair hex_val hex_low_val = true -> 0 < hex_low_val.
Proof.
  unfold is_surrogate_pair, UTF16_LOW_SURROGATE_BEGIN. intros H.
  repeat (apply andb_prop in H; destruct H as (H & ?)).
  match goal with H' : (_ <=? hex_low_val) = true |- _ => apply Z.leb_le in H' end.
  lia.
Qed.

Lemma unescape_advance : forall input advance escape n out,
  (advance <= length input)%nat ->
  unescape input advance escape n out = unescape (skipn advance input) 0 escape n out.
Proof.
  induction input as [|c rest IH]; intros advance escape n out Hle.
  - cbn in Hle. assert (advance = 0%nat) by lia. subst. reflexivity.
  - destruct advance as [|advance']; [reflexivity|].
    cbn [unescape skipn]. apply IH. cbn in Hle. lia.
Qed.

Lemma get_escape_char_unicode c :
  get_escape_char c = UNICODE_SEQ -> c = u_char.
Proof.
  unfold get_escape_char, UNICODE_SEQ, NON_ESCAPE_CHAR, u_char.
  repeat match goal with
         | |- context [?a =? ?b] => destruct (Z.eqb_spec a b)
         end; intros E; try discriminate E; assumption.
Qed.

(** The sequential path fails on every malformed escape. *)
Lemma unescape_malformed : forall len body,
  (length body <= len)%nat ->
  malformed_escape body ->
  forall n out, result_code (unescape body 0 false n out) = PARSING_FAILURE.
Proof.
  induction len as [|len IH]; intros body Hlen Hbad n out.
  { destruct body; [inversion Hbad | cbn in Hlen; lia]. }
  inversion Hbad as [ | c rest Hc | rest Hnd | c rest Hc Hrest
                    | c rest Hc Hu Hrest | rest Hd Hrest ]; subst.
  - reflexivity.
  - cbn. rewrite Hc. reflexivity.
  - cbn [unescape negb]. cbn [Z.eqb backslash_char Pos.eqb].
    change (get_escape_char u_char) with UNICODE_SEQ. cbn [Z.eqb UNICODE_SEQ NON_ESCAPE_CHAR Pos.eqb negb].
    destruct (Z.of_nat (length rest) <? UNICODE_HEX_DIGIT_COUNT) eqn:E; [reflexivity|].
    destruct (parse_unicode_hex rest <? 0) eqn:E'; [reflexivity|].
    exfalso. apply Hnd. apply parse_unicode_hex_valid. apply Z.ltb_ge in E'. exact E'.
  - cbn [unescape negb]. destruct (Z.eqb_spec c backslash_char) as [E|_]; [contradiction|].
    apply IH; [cbn in Hlen; lia | exact Hrest].
  - cbn [unescape negb]. cbn [Z.eqb backslash_char Pos.eqb].
    destruct (Z.eqb_spec (get_escape_char c) NON_ESCAPE_CHAR) as [E|_]; [contradiction|].
    destruct (Z.eqb_spec (get_escape_char c) UNICODE_SEQ) as [E|_].
    { apply get_escape_char_unicode in E. contradiction. }
    cbn [negb]. apply IH; [cbn in Hlen; lia | exact Hrest].
  - cbn [unescape negb]. cbn [Z.eqb backslash_char Pos.eqb].
    change (get_escape_char u_char) with UNICODE_SEQ. cbn [Z.eqb UNICODE_SEQ NON_ESCAPE_CHAR Pos.eqb negb].
    pose proof Hd as (Hlen4 & _).
    destruct (Z.ltb_spec (Z.of_nat (length rest)) UNICODE_HEX_DIGIT_COUNT) as [E|_];
      [unfold UNICODE_HEX_DIGIT_COUNT in E; lia|].
    pose proof (proj1 (parse_unicode_hex_valid rest) Hd) as Hpos.
    destruct (Z.ltb_spec (parse_unicode_hex rest) 0) as [E|_]; [lia|].
    set (after := skipn 4 rest) in *.
    destruct ((NUM_UNICODE_ESC_SEQ_CHARS <=? Z.of_nat (length after))
              && (nth 0 after 0 =? backslash_char) && (nth 1 after 0 =? u_char)) eqn:Hsecond.
    + destruct (is_surrogate_pair (parse_unicode_hex rest)
                                  (parse_unicode_hex (skipn 2 after))) eqn:Hpair.
      * (* both escapes are consumed *)
        apply andb_prop in Hsecond. destruct Hsecond as (Hsecond & Hu).
        apply andb_prop in Hsecond. destruct Hsecond as (Hsix & Hb).
        apply Z.leb_le in Hsix. apply Z.eqb_eq in Hu. apply Z.eqb_eq in Hb.
        unfold NUM_UNICODE_ESC_SEQ_CHARS, UNICODE_ESC_PREFIX, UNICODE_HEX_DIGIT_COUNT in Hsix.
        assert (Hlen_after : length after = (length rest - 4)%nat)
          by (subst after; apply length_skipn).
        rewrite unescape_advance by lia.
        destruct after as [|a0 [|a1 r2]] eqn:Hafter; cbn [length] in Hsix; try lia.
        cbn [nth] in Hb, Hu. subst a0 a1. cbn [skipn] in Hpair.
        assert (Hlow : four_hex_digits r2).
        { apply parse_unicode_hex_valid.
          apply is_surrogate_pair_low in Hpair. lia. }
        assert (Hr2 : malformed_escape (skipn 4 r2)).
        { inversion Hrest as [ | c' rest' Hc' | rest' Hnd' | c' rest' Hc' Hrest'
                             | c' rest' Hc' Hu' Hrest' | rest' Hd' Hrest' ]; subst.
          - discriminate Hc'.
          - contradiction.
          - exfalso. apply Hc'. reflexivity.
          - exfalso. apply Hu'. reflexivity.
          - exact Hrest'. }
        replace (skipn 10 rest) with (skipn 4 r2).
        -- apply IH; [|exact Hr2].
           rewrite length_skipn. cbn [length] in Hlen, Hlen_after. lia.
        -- change 10%nat with (6 + 4)%nat. rewrite <- skipn_skipn.
           fold after. rewrite Hafter. reflexivity.
      * rewrite unescape_advance by lia. fold after.
        apply IH; [|exact Hrest].
        subst after. rewrite length_skipn. cbn [length] in Hlen. lia.
    + assert (Hnp : is_surrogate_pair (parse_unicode_hex rest) 0 = false).
      { unfold is_surrogate_pair. cbn. now rewrite !andb_false_r. }
      rewrite Hnp. rewrite unescape_advance by lia. fold after.
      apply IH; [|exact Hrest].
      subst after. rewrite length_skipn. cbn [length] in Hlen. lia.
Qed.

Lemma process_string_malformed options span :
  is_string_value options span = true ->
  malformed_escape (string_body options span) ->
  result_code (process_string span options) = PARSING_FAILURE.
Proof.
  intros Hs Hbad. unfold process_string. rewrite Hs. cbn [negb].
  now apply (unescape_malformed (length (string_body options span))).
Qed.

End SequentialUnescape.

Section LaneFacts.
Import NodeTree Caster.

Variable body : list Z.

Lemma state_at_composite op1 op2 s :
  state_at (composite_op op1 op2) s = state_at op2 (state_at op1 s).
Proof. destruct s; reflexivity. Qed.

Lemma lane_c_nth i : (i < length body)%nat -> lane_c body (Z.of_nat i) = nth i body 0.
Proof.
  intros Hi. unfold lane_c, is_within_bounds.
  destruct (Z.ltb_spec (Z.of_nat i) (Z.of_nat (length body))) as [_|H]; [|lia].
  destruct (Z.ltb_spec (Z.of_nat i) 0) as [H|_]; [lia|].
  now rewrite Nat2Z.id.
Qed.

Lemma lane_c_outside i : (length body <= i)%nat -> lane_c body (Z.of_nat i) = 0.
Proof.
  intros Hi. unfold lane_c, is_within_bounds.
  destruct (Z.ltb_spec (Z.of_nat i) (Z.of_nat (length body))) as [H|_]; [lia|reflexivity].
Qed.

Lemma state_at_lane_curr i s :
  state_at (lane_curr body (Z.of_nat i)) s = escaping_step s (lane_c body (Z.of_nat i)).
Proof.
  unfold lane_curr, state_at, escaping_step. destruct s; cbn [fst snd]; [reflexivity|].
  destruct (Nat.lt_ge_cases i (length body)) as [Hi|Hi].
  - unfold is_within_bounds.
    destruct (Z.ltb_spec (Z.of_nat i) (Z.of_nat (length body))) as [_|H]; [|lia].
    reflexivity.
  - rewrite lane_c_outside by exact Hi. cbn. now rewrite andb_false_r.
Qed.

(** The scanned transition vectors, applied to the initial state, are the
    states of the sequential run. *)
Lemma scan_from_states : forall lanes acc init l,
  (l < length lanes)%nat ->
  nth l (map (fun t => state_at t init)
             (Buffer.inclusive_scan_from composite_op acc
                (map (fun i => lane_curr body (Z.of_nat i)) lanes))) false
  = escaping_after (state_at acc init) (lane_chars body (firstn (S l) lanes)).
Proof.
  induction lanes as [|i lanes IH]; intros acc init l Hl; [cbn in Hl; lia|].
  cbn [map Buffer.inclusive_scan_from firstn]. destruct l as [|l].
  - cbn. now rewrite state_at_composite, state_at_lane_curr.
  - cbn [nth]. rewrite IH by (cbn in Hl; lia).
    rewrite state_at_composite, state_at_lane_curr. reflexivity.
Qed.

Lemma scan_states lanes init l :
  (l < length lanes)%nat ->
  nth l (map (fun t => state_at t init)
             (Buffer.inclusive_scan composite_op
                (map (fun i => lane_curr body (Z.of_nat i)) lanes))) false
  = escaping_after init (lane_chars body (firstn (S l) lanes)).
Proof.
  destruct lanes as [|i lanes]; intros Hl; [cbn in Hl; lia|].
  cbn [map Buffer.inclusive_scan firstn]. destruct l as [|l].
  - cbn. now rewrite state_at_lane_curr.
  - cbn [nth]. rewrite scan_from_states by (cbn in Hl; lia).
    rewrite state_at_lane_curr. reflexivity.
Qed.

Lemma inclusive_scan_from_length {A} (op : A -> A -> A) : forall v acc,
  length (Buffer.inclusive_scan_from op acc v) = length v.
Proof. induction v as [|x v IH]; intros acc; cbn; [reflexivity | now rewrite IH]. Qed.

Lemma inclusive_scan_length {A} (op : A -> A -> A) v :
  length (Buffer.inclusive_scan op v) = length v.
Proof. destruct v; cbn; [reflexivity | now rewrite inclusive_scan_from_length]. Qed.

Lemma lanes_shift a : forall n s,
  map (fun l => Z.of_nat a + Z.of_nat l) (seq s n) = map Z.of_nat (seq (a + s) n).
Proof.
  induction n as [|n IH]; intros s; [reflexivity|].
  cbn [seq map]. f_equal; [lia|].
  rewrite IH. now rewrite Nat.add_succ_r.
Qed.

Lemma firstn_seq_le : forall n s len,
  (n <= len)%nat -> firstn n (seq s len) = seq s n.
Proof.
  induction n as [|n IH]; intros s len Hle; [reflexivity|].
  destruct len as [|len]; [lia|]. cbn. f_equal. apply IH. lia.
Qed.

Lemma escaping_after_app s l1 l2 :
  escaping_after s (l1 ++ l2) = escaping_after (escaping_after s l1) l2.
Proof. apply fold_left_app. Qed.

End LaneFacts.

Section ParallelDecode.
Import NodeTree Caster.

Variable body : list Z.
Variable BLOCK_SIZE : nat.
Hypothesis BLOCK_SIZE_pos : (0 < BLOCK_SIZE)%nat.

Lemma lanes_of_chunk k :
  map (fun l => Z.of_nat (k * BLOCK_SIZE) + Z.of_nat l) (seq 0 BLOCK_SIZE)
  = map Z.of_nat (seq (k * BLOCK_SIZE) BLOCK_SIZE).
Proof. rewrite lanes_shift. now rewrite Nat.add_0_r. Qed.

Lemma chunk_escaping_length start init :
  length (chunk_escaping body BLOCK_SIZE start init) = BLOCK_SIZE.
Proof.
  unfold chunk_escaping. now rewrite length_map, inclusive_scan_length, !length_map, length_seq.
Qed.

Lemma chunk_escaping_nth k init l :
  (l < BLOCK_SIZE)%nat ->
  nth l (chunk_escaping body BLOCK_SIZE (Z.of_nat (k * BLOCK_SIZE)) init) false
  = escaping_after init (lane_chars body (seq (k * BLOCK_SIZE) (S l))).
Proof.
  intros Hl. unfold chunk_escaping. rewrite lanes_of_chunk, map_map.
  rewrite scan_states by (rewrite length_seq; exact Hl).
  now rewrite firstn_seq_le by lia.
Qed.

Lemma escaping_up_to k l :
  escaping_after (escaping_after false (lane_chars body (seq 0 (k * BLOCK_SIZE))))
                 (lane_chars body (seq (k * BLOCK_SIZE) l))
  = escaping_after false (lane_chars body (seq 0 (k * BLOCK_SIZE + l))).
Proof. unfold lane_chars. now rewrite <- escaping_after_app, <- map_app, <- seq_app. Qed.

Lemma chunk_escaping_last k init :
  last (chunk_escaping body BLOCK_SIZE (Z.of_nat (k * BLOCK_SIZE)) init) false
  = escaping_after init (lane_chars body (seq (k * BLOCK_SIZE) BLOCK_SIZE)).
Proof.
  pose proof (chunk_escaping_length (Z.of_nat (k * BLOCK_SIZE)) init) as Hlen.
  pose proof (chunk_escaping_nth k init (BLOCK_SIZE - 1)) as Hnth.
  replace (S (BLOCK_SIZE - 1)) with BLOCK_SIZE in Hnth by lia.
  rewrite <- Hnth by lia.
  set (v := chunk_escaping _ _ _ _) in *.
  destruct (exists_last (l := v)) as (v' & x & ->).
  { intros ->. cbn in Hlen. lia. }
  rewrite last_last. rewrite length_app in Hlen. cbn in Hlen.
  rewrite app_nth2 by lia.
  replace (BLOCK_SIZE - 1 - length v')%nat with 0%nat by lia. reflexivity.
Qed.

(** A lane that sees an error stops the character loop. *)
Lemma char_loop_error ci :
  lane_error body (Z.of_nat ci) (escaping_after false (lane_chars body (seq 0 (S ci)))) = true ->
  forall m k offset done,
    (k * BLOCK_SIZE <= ci < (k + m) * BLOCK_SIZE)%nat ->
    decode_error
      (char_loop body BLOCK_SIZE
         (map (fun k => Z.of_nat (k * BLOCK_SIZE)) (seq k m))
         (escaping_after false (lane_chars body (seq 0 (k * BLOCK_SIZE)))) offset done)
    = true.
Proof.
  intros Herr. induction m as [|m IH]; intros k offset done Hrange; [lia|].
  cbn [seq map char_loop].
  match goal with
  | |- context [existsb ?f ?l] => destruct (existsb f l) eqn:Hex
  end; [reflexivity|].
  rewrite chunk_escaping_last, escaping_up_to.
  replace (k * BLOCK_SIZE + BLOCK_SIZE)%nat with (S k * BLOCK_SIZE)%nat by lia.
  apply IH.
  destruct (Nat.lt_ge_cases ci (S k * BLOCK_SIZE)) as [Hin|Hout]; [|lia].
  exfalso.
  assert (Hl : (ci - k * BLOCK_SIZE < BLOCK_SIZE)%nat) by lia.
  set (l := (ci - k * BLOCK_SIZE)%nat) in *.
  assert (Hsome : existsb (fun le => lane_error body (fst le) (snd le))
            (combine (map (fun l => Z.of_nat (k * BLOCK_SIZE) + Z.of_nat l) (seq 0 BLOCK_SIZE))
                     (chunk_escaping body BLOCK_SIZE (Z.of_nat (k * BLOCK_SIZE))
                        (escaping_after false (lane_chars body (seq 0 (k * BLOCK_SIZE)))))) = true).
  { apply existsb_exists.
    exists (Z.of_nat ci, escaping_after false (lane_chars body (seq 0 (S ci)))).
    split; [|exact Herr].
    replace (Z.of_nat ci, escaping_after false (lane_chars body (seq 0 (S ci))))
      with (nth l (combine (map (fun l => Z.of_nat (k * BLOCK_SIZE) + Z.of_nat l)
                                (seq 0 BLOCK_SIZE))
                           (chunk_escaping body BLOCK_SIZE (Z.of_nat (k * BLOCK_SIZE))
                              (escaping_after false (lane_chars body (seq 0 (k * BLOCK_SIZE))))))
                  (0, false)).
    - apply nth_In. rewrite length_combine, length_map, length_seq, chunk_escaping_length. lia.
    - rewrite combine_nth
        by (now rewrite length_map, length_seq, chunk_escaping_length).
      f_equal.
      + rewrite lanes_of_chunk.
        change 0 with (Z.of_nat 0). rewrite map_nth, seq_nth by exact Hl.
        f_equal. subst l. lia.
      + rewrite chunk_escaping_nth by exact Hl. rewrite escaping_up_to.
        do 3 f_equal. subst l. lia. }
  rewrite Hsome in Hex. discriminate.
Qed.

Lemma decode_parallel_error ci :
  (ci < length body)%nat ->
  lane_error body (Z.of_nat ci) (escaping_after false (lane_chars body (seq 0 (S ci)))) = true ->
  decode_error (decode_parallel body BLOCK_SIZE) = true.
Proof.
  intros Hci Herr. unfold decode_parallel, chunk_starts.
  apply (char_loop_error ci Herr _ 0%nat 0 []).
  split; [lia|]. cbn [Nat.add].
  pose proof (Nat.div_mod_eq (length body + BLOCK_SIZE - 1) BLOCK_SIZE) as E.
  pose proof (Nat.mod_upper_bound (length body + BLOCK_SIZE - 1) BLOCK_SIZE) as Hr.
  nia.
Qed.

Lemma char_loop_error_offset : forall starts init offset done,
  decode_error (char_loop body BLOCK_SIZE starts init offset done) = true ->
  last_offset (char_loop body BLOCK_SIZE starts init offset done) = 0.
Proof.
  induction starts as [|start starts IH]; intros init offset done; cbn [char_loop].
  - discriminate.
  - match goal with
    | |- context [existsb ?f ?l] => destruct (existsb f l)
    end; [reflexivity | apply IH].
Qed.

End ParallelDecode.

Section MalformedLanes.
Import NodeTree Caster.

Lemma lane_chars_firstn (body : list Z) m :
  (m <= length body)%nat ->
  lane_chars body (seq 0 m) = firstn m body.
Proof.
  intros Hm. unfold lane_chars. apply nth_ext with (d := lane_c body (Z.of_nat 0)) (d' := 0).
  - rewrite length_map, length_seq, length_firstn. lia.
  - intros i Hi. rewrite length_map, length_seq in Hi.
    rewrite (map_nth (fun i => lane_c body (Z.of_nat i)) (seq 0 m) 0%nat i).
    rewrite seq_nth by exact Hi. cbn [Nat.add].
    rewrite lane_c_nth by lia.
    rewrite nth_firstn. destruct (Nat.ltb_spec i m); [reflexivity | lia].
Qed.

Lemma lane_error_intro (body : list Z) ci esc :
  (ci < length body)%nat ->
  (esc = true /\ S ci = length body)
  \/ ((0 < ci)%nat /\ nth (ci - 1) body 0 = backslash_char
      /\ get_escape_char (nth ci body 0) = NON_ESCAPE_CHAR)
  \/ ((0 < ci)%nat /\ nth (ci - 1) body 0 = backslash_char
      /\ nth ci body 0 = u_char
      /\ ~ four_hex_digits (skipn (S ci) body)) ->
  lane_error body (Z.of_nat ci) esc = true.
Proof.
  intros Hci Hcase. unfold lane_error.
  rewrite lane_c_nth by exact Hci.
  unfold lane_prev_c, is_within_bounds.
  destruct (Z.ltb_spec (Z.of_nat ci) (Z.of_nat (length body))) as [_|H]; [|lia].
  cbn [andb].
  destruct Hcase as [(-> & Hlast) | [(Hpos & Hprev & Hesc) | (Hpos & Hprev & Hu & Hnd)]].
  - destruct (Z.eqb_spec (Z.of_nat ci) (Z.of_nat (length body) - 1)) as [_|H]; [|lia].
    reflexivity.
  - destruct (Z.ltb_spec 0 (Z.of_nat ci)) as [_|H]; [|lia]. cbn [andb].
    destruct (Z.ltb_spec (Z.of_nat ci - 1) 0) as [H|_]; [lia|].
    replace (Z.to_nat (Z.of_nat ci - 1)) with (ci - 1)%nat by lia.
    rewrite Hprev, Hesc, !Z.eqb_refl. cbn [andb]. now rewrite orb_true_r.
  - destruct (Z.ltb_spec 0 (Z.of_nat ci)) as [_|H]; [|lia]. cbn [andb].
    destruct (Z.ltb_spec (Z.of_nat ci - 1) 0) as [H|_]; [lia|].
    replace (Z.to_nat (Z.of_nat ci - 1)) with (ci - 1)%nat by lia.
    rewrite Hprev, Hu, !Z.eqb_refl. cbn [andb].
    assert (Hin : forall k, (k < 4)%nat ->
              (if Z.of_nat ci + Z.of_nat (S k) <? 0 then 0
               else nth (Z.to_nat (Z.of_nat ci + Z.of_nat (S k))) body 0)
              = nth k (skipn (S ci) body) 0).
    { intros k _. destruct (Z.ltb_spec (Z.of_nat ci + Z.of_nat (S k)) 0) as [H|_]; [lia|].
      rewrite nth_skipn. f_equal. lia. }
    pose proof (Hin 0%nat ltac:(lia)) as H1. pose proof (Hin 1%nat ltac:(lia)) as H2.
    pose proof (Hin 2%nat ltac:(lia)) as H3. pose proof (Hin 3%nat ltac:(lia)) as H4.
    cbn [Z.of_nat Pos.of_succ_nat Pos.succ] in H1, H2, H3, H4.
    rewrite H1, H2, H3, H4.
    destruct (is_hex (nth 0 (skipn (S ci) body) 0)) eqn:E0;
      [|cbn; now rewrite ?orb_true_r].
    destruct (is_hex (nth 1 (skipn (S ci) body) 0)) eqn:E1;
      [|cbn; now rewrite ?orb_true_r].
    destruct (is_hex (nth 2 (skipn (S ci) body) 0)) eqn:E2;
      [|cbn; now rewrite ?orb_true_r].
    destruct (is_hex (nth 3 (skipn (S ci) body) 0)) eqn:E3;
      [|cbn; now rewrite ?orb_true_r].
    exfalso. apply Hnd. apply four_hex_digits_nth. intros i Hi.
    destruct i as [|[|[|[|i]]]]; try assumption. lia.
Qed.

Lemma is_hex_not_backslash c : is_hex c = true -> (c =? backslash_char) = false.
Proof.
  intros H. destruct (Z.eqb_spec c backslash_char) as [->|_]; [|reflexivity].
  discriminate H.
Qed.

Lemma escaping_after_hex l :
  Forall (fun c => is_hex c = true) l -> escaping_after false l = false.
Proof.
  induction 1 as [|c l Hc _ IH]; [reflexivity|].
  unfold escaping_after. cbn [fold_left escaping_step].
  rewrite is_hex_not_backslash by exact Hc. exact IH.
Qed.

(** Wherever a malformed escape starts, one lane of the parallel kernel
    raises the error flag. *)
Lemma malformed_has_error_lane tail :
  malformed_escape tail ->
  forall prefix,
    escaping_after false prefix = false ->
    exists ci, (ci < length (prefix ++ tail))%nat /\
      lane_error (prefix ++ tail) (Z.of_nat ci)
                 (escaping_after false (firstn (S ci) (prefix ++ tail))) = true.
Proof.
  induction 1 as [ | c rest Hc | rest Hnd | c rest Hc Hrest IH
                 | c rest Hc Hu Hrest IH | rest Hd Hrest IH ]; intros prefix Hpre.
  - exists (length prefix). rewrite length_app. cbn [length]. split; [lia|].
    apply lane_error_intro; [rewrite length_app; cbn; lia|]. left. split.
    + rewrite firstn_all2 by (rewrite length_app; cbn; lia).
      rewrite escaping_after_app, Hpre. reflexivity.
    + rewrite length_app. cbn. lia.
  - exists (S (length prefix)). rewrite length_app. cbn [length]. split; [lia|].
    apply lane_error_intro; [rewrite length_app; cbn; lia|]. right. left.
    split; [lia|]. split.
    + rewrite app_nth2 by lia.
      replace (S (length prefix) - 1 - length prefix)%nat with 0%nat by lia. reflexivity.
    + rewrite app_nth2 by lia.
      replace (S (length prefix) - length prefix)%nat with 1%nat by lia. exact Hc.
  - exists (S (length prefix)). rewrite length_app. cbn [length]. split; [lia|].
    apply lane_error_intro; [rewrite length_app; cbn; lia|]. right. right.
    split; [lia|]. split; [|split].
    + rewrite app_nth2 by lia.
      replace (S (length prefix) - 1 - length prefix)%nat with 0%nat by lia. reflexivity.
    + rewrite app_nth2 by lia.
      replace (S (length prefix) - length prefix)%nat with 1%nat by lia. reflexivity.
    + rewrite skipn_app, skipn_all2 by lia.
      replace (S (S (length prefix)) - length prefix)%nat with 2%nat by lia. exact Hnd.
  - specialize (IH (prefix ++ [c])). rewrite <- app_assoc in IH. apply IH.
    rewrite escaping_after_app, Hpre. cbn.
    destruct (Z.eqb_spec c backslash_char); [contradiction | reflexivity].
  - specialize (IH (prefix ++ [backslash_char; c])). rewrite <- app_assoc in IH. apply IH.
    rewrite escaping_after_app, Hpre. reflexivity.
  - specialize (IH (prefix ++ backslash_char :: u_char :: firstn 4 rest)).
    rewrite <- app_assoc in IH. cbn [app] in IH. rewrite firstn_skipn in IH. apply IH.
    rewrite escaping_after_app, Hpre.
    change (escaping_after false (backslash_char :: u_char :: firstn 4 rest))
      with (escaping_after false (firstn 4 rest)).
    apply escaping_after_hex. apply Hd.
Qed.

Lemma decode_parallel_malformed body BLOCK_SIZE :
  (0 < BLOCK_SIZE)%nat ->
  malformed_escape body ->
  decode_error (decode_parallel body BLOCK_SIZE) = true
  /\ last_offset (decode_parallel body BLOCK_SIZE) = 0.
Proof.
  intros Hpos Hbad.
  destruct (malformed_has_error_lane body Hbad [] eq_refl) as (ci & Hci & Herr).
  cbn [app] in Hci, Herr.
  assert (E : decode_error (decode_parallel body BLOCK_SIZE) = true).
  { apply (decode_parallel_error body BLOCK_SIZE Hpos ci Hci).
    rewrite lane_chars_firstn by lia. exact Herr. }
  split; [exact E|]. apply char_loop_error_offset. exact E.
Qed.

End MalformedLanes.

Section NullingRows.
Import NodeTree Caster.

Lemma bit_is_set_nonneg st idx : bit_is_set st idx = true -> 0 <= idx.
Proof.
  unfold bit_is_set. destruct (null_mask st); [|discriminate].
  intros H. apply andb_prop in H. destruct H as (H & _). now apply Z.leb_le.
Qed.

Lemma at_index_update_zero (v : list Z) idx :
  0 <= idx -> at_index 0 (update v idx 0) idx = 0.
Proof.
  intros Hidx. destruct (Z.lt_ge_cases idx (Z.of_nat (length v))) as [Hin|Hout].
  - apply at_index_update_same. lia.
  - unfold update. destruct (Z.ltb_spec idx (Z.of_nat (length v))) as [H|_]; [lia|].
    rewrite andb_false_r. unfold at_index. apply nth_overflow. lia.
Qed.

Lemma store_chars_frame pos data st :
  null_mask (store_chars pos data st) = null_mask st
  /\ null_count (store_chars pos data st) = null_count st
  /\ d_offsets (store_chars pos data st) = d_offsets st
  /\ size_pass (store_chars pos data st) = size_pass st.
Proof.
  unfold store_chars, size_pass. destruct (d_chars st) eqn:E; cbn; rewrite ?E; auto.
Qed.

Lemma apply_stores_frame base : forall sts st,
  null_mask (apply_stores base sts st) = null_mask st
  /\ null_count (apply_stores base sts st) = null_count st
  /\ d_offsets (apply_stores base sts st) = d_offsets st
  /\ size_pass (apply_stores base sts st) = size_pass st.
Proof.
  unfold apply_stores. induction sts as [|w sts IH]; intros st; cbn [fold_left]; [auto|].
  destruct (IH (store_chars (base + fst w) (snd w) st)) as (-> & -> & -> & ->).
  apply store_chars_frame.
Qed.

(** Marking a row null and zeroing its size nulls the row, whatever was
    stored into the characters before. *)
Lemma row_nulled_intro idx st st1 :
  0 <= idx ->
  null_mask st1 = null_mask st -> null_count st1 = null_count st ->
  d_offsets st1 = d_offsets st -> size_pass st1 = size_pass st ->
  row_nulled idx st (zero_offset idx (mark_null idx st1)).
Proof.
  intros Hidx Hmask Hcount Hoffs Hpass.
  assert (Hbits : forall j, bit_is_set st1 j = bit_is_set st j)
    by (intros j; unfold bit_is_set; now rewrite Hmask).
  unfold row_nulled. repeat split.
  - rewrite bit_is_set_zero_offset. apply bit_is_set_mark_null.
  - intros j Hj. rewrite bit_is_set_zero_offset, bit_is_set_mark_null_other by exact Hj.
    apply Hbits.
  - unfold zero_offset. destruct (size_pass (mark_null idx st1)); cbn; lia.
  - intros j Hj Hne. unfold zero_offset.
    destruct (size_pass (mark_null idx st1)); cbn [set_offset mark_null d_offsets];
      rewrite Hoffs; [now apply at_index_update_other | reflexivity].
  - intros Hsize. unfold zero_offset.
    replace (size_pass (mark_null idx st1)) with true
      by (unfold size_pass, mark_null in *; cbn; congruence).
    cbn [set_offset mark_null d_offsets]. now apply at_index_update_zero.
Qed.

Lemma has_mask_frame st st1 : null_mask st1 = null_mask st -> has_mask st1 = has_mask st.
Proof. unfold has_mask. now intros ->. Qed.

Lemma string_parse_nulls_malformed options rows idx st :
  has_mask st = true -> bit_is_set st idx = true ->
  is_string_value options (at_index [] rows idx) = true ->
  malformed_escape (string_body options (at_index [] rows idx)) ->
  row_nulled idx st (string_parse options rows idx st).
Proof.
  intros Hmask Hbit Hstr Hbad.
  pose proof (bit_is_set_nonneg _ _ Hbit) as Hidx.
  unfold string_parse. rewrite Hmask, Hbit. cbn [negb andb].
  destruct (size_pass st && trie_na options (at_index [] rows idx)); cbn [andb].
  - now apply row_nulled_intro.
  - rewrite (process_string_malformed _ _ Hstr Hbad). cbn [is_success negb].
    destruct (store_chars_frame (at_index 0 (d_offsets st) idx)
                (written (process_string (at_index [] rows idx) options)) st)
      as (E1 & E2 & E3 & E4).
    rewrite (has_mask_frame _ _ E1), Hmask.
    now apply row_nulled_intro.
Qed.

Lemma parallel_nulls_malformed (is_warp : bool) options rows idx st :
  has_mask st = true -> bit_is_set st idx = true ->
  is_string_value options (at_index [] rows idx) = true ->
  malformed_escape (string_body options (at_index [] rows idx)) ->
  (if is_warp then WARP_THRESHOLD <? Z.of_nat (length (at_index [] rows idx))
   else Z.of_nat (length (at_index [] rows idx)) <=? WARP_THRESHOLD) = false ->
  row_nulled idx st (parse_fn_string_parallel is_warp options rows idx st).
Proof.
  intros Hmask Hbit Hstr Hbad Hlen.
  pose proof (bit_is_set_nonneg _ _ Hbit) as Hidx.
  unfold parse_fn_string_parallel. rewrite Hmask, Hbit, Hlen. cbn [negb andb].
  destruct (size_pass st && trie_na options (at_index [] rows idx)); cbn [andb].
  - now apply row_nulled_intro.
  - rewrite Hstr. cbn [negb].
    assert (Hpos : (0 < block_size is_warp)%nat) by (unfold block_size, warp_size, warps_per_block; destruct is_warp; lia).
    destruct (decode_parallel_malformed _ _ Hpos Hbad) as (-> & ->).
    set (st1 := apply_stores _ _ st).
    destruct (apply_stores_frame (at_index 0 (d_offsets st) idx)
                (stores (decode_parallel (string_body options (at_index [] rows idx))
                                         (block_size is_warp))) st)
      as (E1 & E2 & E3 & E4).
    fold st1 in E1, E2, E3, E4.
    rewrite (has_mask_frame _ _ E1), Hmask.
    change (if size_pass (mark_null idx st1)
            then set_offset idx 0 (mark_null idx st1) else mark_null idx st1)
      with (zero_offset idx (mark_null idx st1)).
    now apply row_nulled_intro.
Qed.

End NullingRows.

Section CasterClaims.
Import NodeTree Caster CasterRows.

(** C9. A row whose validity bit is already cleared is skipped by the
    single-thread functor and by both parallel kernels before the null
    literal is looked up: the null counter, the null mask, the characters
    and every other row's offset are left as they were, the row's size is
    set to 0 while sizes are computed, and running the functor again over
    the result changes nothing. *)
Theorem nulled_row_is_skipped options rows idx st :
  has_mask st = true -> bit_is_set st idx = false ->
  let st' := string_parse options rows idx st in
  st' = zero_offset idx st
  /\ (forall is_warp, parse_fn_string_parallel is_warp options rows idx st = st')
  /\ null_count st' = null_count st
  /\ null_mask st' = null_mask st
  /\ d_chars st' = d_chars st
  /\ (forall j, 0 <= j -> j <> idx ->
                at_index 0 (d_offsets st') j = at_index 0 (d_offsets st) j)
  /\ string_parse options rows idx st' = st'
  /\ (forall is_warp, parse_fn_string_parallel is_warp options rows idx st' = st').
Proof.
  intros Hmask Hbit st'. subst st'.
  rewrite (string_parse_skips_null options rows idx st Hmask Hbit).
  assert (Hmask' : has_mask (zero_offset idx st) = true)
    by now rewrite has_mask_zero_offset.
  assert (Hbit' : bit_is_set (zero_offset idx st) idx = false)
    by now rewrite bit_is_set_zero_offset.
  split; [reflexivity|]. split.
  { intros is_warp. now apply parallel_skips_null. }
  split; [unfold zero_offset; destruct (size_pass st); reflexivity|].
  split; [unfold zero_offset; destruct (size_pass st); reflexivity|].
  split; [unfold zero_offset; destruct (size_pass st); reflexivity|].
  split.
  { intros j Hj Hne. unfold zero_offset.
    destruct (size_pass st); cbn [set_offset d_offsets];
      [now apply at_index_update_other | reflexivity]. }
  split.
  - rewrite string_parse_skips_null by assumption. apply zero_offset_idem.
  - intros is_warp. rewrite parallel_skips_null by assumption. apply zero_offset_idem.
Qed.

Lemma nulled_row_is_skipped_witness :
  let st' := string_parse example_options [escaped_backslash_row; plain_row] 0 first_row_null in
  st' = mk_state (Some [false; true]) 1 [0; 0; 0] None
  /\ null_count st' = null_count first_row_null
  /\ string_parse example_options [escaped_backslash_row; plain_row] 0 st' = st'.
Proof.
  destruct (nulled_row_is_skipped example_options [escaped_backslash_row; plain_row] 0
              first_row_null eq_refl eq_refl)
    as (H1 & _ & H3 & _ & _ & _ & H7 & _).
  cbv zeta. split; [exact H1|]. split; [exact H3 | exact H7].
Defined.

(** C8. The single-thread path and the warp kernel disagree on a string
    that holds an escaped backslash followed by a character that is no
    escape character: [process_string] decodes it to the two bytes
    backslash and x, while the warp kernel flags an error and nulls the
    row.  A column that holds the string next to a value of 132 bytes,
    which selects the parallel path, therefore comes out with a null
    row. *)
Theorem decode_paths_disagree :
  process_string escaped_backslash_row example_options
    = mk_info 2 [92; 120] PARSING_SUCCESS
  /\ column_rows 2 (parse_data example_options [escaped_backslash_row; plain_row]
                               (Some [true; true]) 0)
     = [Some [92; 120]; Some [97; 98]]
  /\ string_parse example_options [escaped_backslash_row; plain_row] 0 two_valid_rows
     = mk_state (Some [true; true]) 0 [2; 0; 0] None
  /\ parse_fn_string_parallel true example_options [escaped_backslash_row; plain_row] 0
                              two_valid_rows
     = mk_state (Some [false; true]) 1 [0; 0; 0] None
  /\ column_rows 2 (parse_data example_options [escaped_backslash_row; long_row]
                               (Some [true; true]) 0)
     = [None; Some (repeat 97 130)]
  /\ null_count (parse_data example_options [escaped_backslash_row; long_row]
                            (Some [true; true]) 0) = 1.
Proof. repeat split; vm_compute; reflexivity. Qed.

(** C5, the case the code does not treat as an error: a low surrogate
    with no high surrogate before it.  The single-thread path stores its
    three-byte encoding, the warp kernel stores nothing for it; neither
    clears the validity bit nor counts a null. *)
Lemma orphaned_low_surrogate_row_stays_valid :
  process_string orphaned_low_surrogate_row example_options
    = mk_info 3 [237; 176; 128] PARSING_SUCCESS
  /\ string_parse example_options [orphaned_low_surrogate_row; plain_row] 0 two_valid_rows
     = mk_state (Some [true; true]) 0 [3; 0; 0] None
  /\ parse_fn_string_parallel true example_options [orphaned_low_surrogate_row; plain_row] 0
                              two_valid_rows
     = mk_state (Some [true; true]) 0 [0; 0; 0] None
  /\ ~ row_nulled 0 two_valid_rows
         (string_parse example_options [orphaned_low_surrogate_row; plain_row] 0
                       two_valid_rows)
  /\ ~ row_nulled 0 two_valid_rows
         (parse_fn_string_parallel true example_options
                                   [orphaned_low_surrogate_row; plain_row] 0 two_valid_rows).
Proof.
  split; [vm_compute; reflexivity|]. split; [vm_compute; reflexivity|].
  split; [vm_compute; reflexivity|].
  split; intros (Hbit & _); vm_compute in Hbit; discriminate Hbit.
Qed.

(** C5. A valid row of a column with a null mask whose string runs into
    a malformed escape (a backslash at the end of the string, a backslash
    before a character that is no escape character, or a backslash and u
    not followed by four hex digits) is nulled by the single-thread
    functor and, when it is no longer than [WARP_THRESHOLD], by the warp
    kernel: the row's validity bit is cleared and no other bit changes,
    the null counter grows by one, no other row's offset changes and the
    row's size is 0.  The functor returns a state: nothing is raised. *)
Theorem malformed_escape_nulls_row options rows idx st :
  has_mask st = true -> bit_is_set st idx = true ->
  is_string_value options (at_index [] rows idx) = true ->
  malformed_escape (string_body options (at_index [] rows idx)) ->
  row_nulled idx st (string_parse options rows idx st)
  /\ ((WARP_THRESHOLD <? Z.of_nat (length (at_index [] rows idx))) = false ->
      row_nulled idx st (parse_fn_string_parallel true options rows idx st)).
Proof.
  intros Hmask Hbit Hstr Hbad. split.
  - now apply string_parse_nulls_malformed.
  - intros Hlen. now apply (parallel_nulls_malformed true).
Qed.

Lemma malformed_escape_nulls_row_witness :
  row_nulled 0 two_valid_rows
    (string_parse example_options [trailing_backslash_row; plain_row] 0 two_valid_rows)
  /\ row_nulled 0 two_valid_rows
       (parse_fn_string_parallel true example_options [trailing_backslash_row; plain_row] 0
                                 two_valid_rows)
  /\ string_parse example_options [trailing_backslash_row; plain_row] 0 two_valid_rows
     = mk_state (Some [false; true]) 1 [0; 0; 0] None
  /\ column_rows 2 (parse_data example_options [trailing_backslash_row; plain_row]
                               (Some [true; true]) 0)
     = [None; Some [97; 98]]
  /\ column_rows 2 (parse_data example_options [trailing_backslash_row; long_row]
                               (Some [true; true]) 0)
     = [None; Some (repeat 97 130)].
Proof.
  assert (Hbad : malformed_escape
                   (string_body example_options
                                (at_index [] [trailing_backslash_row; plain_row] 0))).
  { change (malformed_escape [97; backslash_char]).
    apply after_plain_char; [unfold backslash_char; lia | apply backslash_at_end]. }
  destruct (malformed_escape_nulls_row example_options [trailing_backslash_row; plain_row] 0
              two_valid_rows eq_refl eq_refl eq_refl Hbad) as (Hseq & Hpar).
  split; [exact Hseq|]. split; [apply Hpar; reflexivity|].
  repeat split; vm_compute; reflexivity.
Defined.

End CasterClaims.

(* ================================================================== *)
(** * Part III.  Further properties *)
(* ================================================================== *)

(** ** The string decoder ([process_string]) *)

Section DecodeFacts.
Import NodeTree Caster CasterRows.

Lemma hex_digit_range ch v : hex_digit ch = Some v -> 0 <= v < 16.
Proof.
  unfold hex_digit.
  destruct ((48 <=? ch) && (ch <=? 57)) eqn:E1; [|
  destruct ((65 <=? ch) && (ch <=? 70)) eqn:E2; [|
  destruct ((97 <=? ch) && (ch <=? 102)) eqn:E3; [|discriminate]]];
    intros H; injection H as <-;
    match goal with
    | E : (_ && _) = true |- _ =>
        apply andb_prop in E; destruct E as (Ea & Eb);
        apply Z.leb_le in Ea; apply Z.leb_le in Eb; lia
    end.
Qed.

(** X1. [parse_unicode_hex] reads four hex digits with the most
    significant one first: when the four characters are hex digits the
    result is their positional value, a number below 65536; otherwise it
    is -1. *)
Theorem parse_unicode_hex_value str :
  (four_hex_digits str ->
   exists d0 d1 d2 d3,
     hex_digit (nth 0 str 0) = Some d0 /\ hex_digit (nth 1 str 0) = Some d1 /\
     hex_digit (nth 2 str 0) = Some d2 /\ hex_digit (nth 3 str 0) = Some d3 /\
     parse_unicode_hex str = 4096 * d0 + 256 * d1 + 16 * d2 + d3 /\
     0 <= parse_unicode_hex str < 65536) /\
  (~ four_hex_digits str -> parse_unicode_hex str = -1).
Proof.
  split.
  - intros Hd. pose proof (proj1 (four_hex_digits_nth str) Hd) as Hall.
    destruct (proj1 (hex_digit_is_hex _) (Hall 0%nat ltac:(lia))) as (d0 & E0 & _).
    destruct (proj1 (hex_digit_is_hex _) (Hall 1%nat ltac:(lia))) as (d1 & E1 & _).
    destruct (proj1 (hex_digit_is_hex _) (Hall 2%nat ltac:(lia))) as (d2 & E2 & _).
    destruct (proj1 (hex_digit_is_hex _) (Hall 3%nat ltac:(lia))) as (d3 & E3 & _).
    exists d0, d1, d2, d3.
    pose proof (hex_digit_range _ _ E0). pose proof (hex_digit_range _ _ E1).
    pose proof (hex_digit_range _ _ E2). pose proof (hex_digit_range _ _ E3).
    assert (E : parse_unicode_hex str = 4096 * d0 + 256 * d1 + 16 * d2 + d3).
    { unfold parse_unicode_hex. cbn [parse_hex_from]. rewrite E3, E2, E1, E0. lia. }
    repeat split; try assumption; lia.
  - intros Hnd.
    destruct (Z.lt_ge_cases (parse_unicode_hex str) 0) as [Hneg|Hpos].
    + unfold parse_unicode_hex in *. cbn [parse_hex_from] in *.
      destruct (hex_digit (nth 3 str 0)) as [d3|] eqn:E3; [|reflexivity].
      destruct (hex_digit (nth 2 str 0)) as [d2|] eqn:E2; [|reflexivity].
      destruct (hex_digit (nth 1 str 0)) as [d1|] eqn:E1; [|reflexivity].
      destruct (hex_digit (nth 0 str 0)) as [d0|] eqn:E0; [|reflexivity].
      pose proof (hex_digit_range _ _ E0). pose proof (hex_digit_range _ _ E1).
      pose proof (hex_digit_range _ _ E2). pose proof (hex_digit_range _ _ E3). lia.
    + exfalso. apply Hnd. now apply parse_unicode_hex_valid.
Qed.

Lemma parse_unicode_hex_value_witness :
  parse_unicode_hex (bytes_of_string "20aC") = 8364
  /\ parse_unicode_hex (bytes_of_string "20g0") = -1
  /\ parse_unicode_hex (bytes_of_string "20a") = -1.
Proof.
  assert (Hd : four_hex_digits (bytes_of_string "20aC")).
  { split; [cbn; lia|]. repeat constructor. }
  destruct (proj1 (parse_unicode_hex_value (bytes_of_string "20aC")) Hd)
    as (d0 & d1 & d2 & d3 & E0 & E1 & E2 & E3 & E & _).
  vm_compute in E0, E1, E2, E3.
  injection E0 as <-. injection E1 as <-. injection E2 as <-. injection E3 as <-.
  split; [exact E|]. split.
  - apply (proj2 (parse_unicode_hex_value (bytes_of_string "20g0"))).
    intros (_ & Hall). vm_compute in Hall.
    inversion Hall as [|? ? _ H1]. inversion H1 as [|? ? _ H2].
    inversion H2 as [|? ? Hg _]. discriminate Hg.
  - apply (proj2 (parse_unicode_hex_value (bytes_of_string "20a"))).
    intros (Hlen & _). vm_compute in Hlen. lia.
Defined.

(** X2. The code point computed from a UTF-16 surrogate pair lies in the
    supplementary planes: between 0x10000 and 0x10FFFF. *)
Theorem surrogate_code_point_range hex_val hex_low_val :
  is_surrogate_pair hex_val hex_low_val = true ->
  65536 <= surrogate_code_point hex_val hex_low_val <= 1114111.
Proof.
  unfold is_surrogate_pair, surrogate_code_point, UTF16_HIGH_SURROGATE_BEGIN,
    UTF16_HIGH_SURROGATE_END, UTF16_LOW_SURROGATE_BEGIN, UTF16_LOW_SURROGATE_END.
  intros H.
  apply andb_prop in H. destruct H as (H & H4).
  apply andb_prop in H. destruct H as (H & H3).
  apply andb_prop in H. destruct H as (H1 & H2).
  apply Z.leb_le in H1. apply Z.ltb_lt in H2. apply Z.leb_le in H3. apply Z.ltb_lt in H4.
  rewrite Z.shiftl_mul_pow2 by lia. change (2 ^ 10) with 1024. lia.
Qed.

Lemma surrogate_code_point_range_witness :
  65536 <= surrogate_code_point 55357 56832 <= 1114111
  /\ surrogate_code_point 55357 56832 = 128512.
Proof.
  split; [apply surrogate_code_point_range; reflexivity | reflexivity].
Defined.

Lemma unescape_plain : forall body n out,
  Forall (fun c => c <> backslash_char) body ->
  unescape body 0 false n out
  = mk_info (n + Z.of_nat (length body)) (out ++ body) PARSING_SUCCESS.
Proof.
  induction body as [|c body IH]; intros n out Hplain.
  - cbn. now rewrite Z.add_0_r, app_nil_r.
  - inversion Hplain as [|? ? Hc Hrest]; subst.
    cbn [unescape negb]. destruct (Z.eqb_spec c backslash_char) as [E|_]; [contradiction|].
    rewrite IH by exact Hrest. rewrite <- app_assoc. cbn [app length].
    f_equal. lia.
Qed.

Lemma plain_string_body options span :
  Forall (fun c => c <> backslash_char) span ->
  Forall (fun c => c <> backslash_char) (string_body options span).
Proof.
  intros H. unfold string_body. destruct (keepquotes options); [exact H|].
  rewrite Forall_forall in *. intros c Hin. apply H.
  destruct span as [|q rest]; [contradiction|]. cbn [List.tl] in Hin. right.
  destruct (exists_last (l := rest)) as (rest' & x & ->).
  { intros ->. contradiction. }
  rewrite removelast_last in Hin. apply in_or_app. now left.
Qed.

Lemma process_string_without_escape options span :
  Forall (fun c => c <> backslash_char) span ->
  process_string span options
  = mk_info (Z.of_nat (length (if is_string_value options span
                               then string_body options span else span)))
            (if is_string_value options span then string_body options span else span)
            PARSING_SUCCESS.
Proof.
  intros Hplain. unfold process_string.
  destruct (is_string_value options span); cbn [negb]; [|reflexivity].
  now rewrite unescape_plain by (now apply plain_string_body).
Qed.

(** X3. A value without a backslash is copied unchanged: a literal or a
    number as it stands, a string value without its quotes (with them
    when [keepquotes] is set); the byte count is the number of bytes
    copied and the parse succeeds. *)
Theorem process_string_plain options span :
  Forall (fun c => c <> backslash_char) span ->
  let payload := if is_string_value options span
                 then string_body options span else span in
  process_string span options
  = mk_info (Z.of_nat (length payload)) payload PARSING_SUCCESS.
Proof. intros Hplain. cbv zeta. now apply process_string_without_escape. Qed.

Lemma process_string_plain_witness :
  process_string plain_row example_options = mk_info 2 [97; 98] PARSING_SUCCESS
  /\ process_string [49; 46; 53] example_options = mk_info 3 [49; 46; 53] PARSING_SUCCESS.
Proof.
  split.
  - apply (process_string_plain example_options plain_row).
    vm_compute. repeat constructor; discriminate.
  - apply (process_string_plain example_options [49; 46; 53]).
    repeat constructor; discriminate.
Defined.

Lemma unescape_bytes_written : forall input advance escape n out,
  exists more,
    written (unescape input advance escape n out) = out ++ more /\
    bytes (unescape input advance escape n out) = n + Z.of_nat (length more).
Proof.
  assert (Hstop : forall n out r,
            exists more, written (mk_info n out r) = out ++ more /\
                         bytes (mk_info n out r) = n + Z.of_nat (length more)).
  { intros n out r. exists []. cbn. now rewrite app_nil_r, Z.add_0_r. }
  assert (Hgo : forall (r : data_casting_result_info) n out extra,
            (exists more, written r = (out ++ extra) ++ more /\
                          bytes r = (n + Z.of_nat (length extra)) + Z.of_nat (length more)) ->
            exists more, written r = out ++ more /\
                         bytes r = n + Z.of_nat (length more)).
  { intros r n out extra (more & Hw & Hb). exists (extra ++ more).
    rewrite <- app_assoc in Hw. split; [exact Hw|]. rewrite length_app. lia. }
  induction input as [|c rest IH]; intros advance escape n out.
  - cbn. destruct escape; apply Hstop.
  - cbn [unescape]. destruct advance as [|advance']; [|apply IH].
    destruct escape; cbn [negb].
    + destruct (get_escape_char c =? NON_ESCAPE_CHAR); [apply Hstop|].
      destruct (negb (get_escape_char c =? UNICODE_SEQ)).
      { apply (Hgo _ n out [get_escape_char c]). apply IH. }
      destruct (Z.of_nat (length rest) <? UNICODE_HEX_DIGIT_COUNT); [apply Hstop|].
      destruct (parse_unicode_hex rest <? 0); [apply Hstop|].
      match goal with
      | |- context [if ?b then _ else _] => destruct b
      end; eapply Hgo; apply IH.
    + destruct (c =? backslash_char); [apply IH|].
      apply (Hgo _ n out [c]). apply IH.
Qed.

(** [process_string] counts the bytes it stores, whether it succeeds or
    stops at an error. *)
Lemma process_string_counts_stores span options :
  bytes (process_string span options)
  = Z.of_nat (length (written (process_string span options))).
Proof.
  unfold process_string. destruct (is_string_value options span); cbn [negb].
  - destruct (unescape_bytes_written (string_body options span) 0 false 0 [])
      as (more & -> & ->). cbn [app]. lia.
  - reflexivity.
Qed.

End DecodeFacts.

(** ** The parallel kernel on strings without escapes *)

Section PlainStrings.
Import NodeTree Caster.

Variable body : list Z.
Hypothesis body_plain : Forall (fun c => c <> backslash_char) body.











End PlainStrings.

Section StoreFacts.
Import NodeTree Caster.




Lemma apply_stores_size_pass base : forall sts st,
  d_chars st = None -> apply_stores base sts st = st.
Proof.
  unfold apply_stores. induction sts as [|w sts IH]; intros st Hc; [reflexivity|].
  cbn [fold_left].
  assert (E : store_chars (base + fst w) (snd w) st = st)
    by (unfold store_chars; now rewrite Hc).
  rewrite E. now apply IH.
Qed.



End StoreFacts.

Section PlainDecode.
Import NodeTree Caster.

Variable body : list Z.
Variable BLOCK_SIZE : nat.
Hypothesis body_plain : Forall (fun c => c <> backslash_char) body.
Hypothesis BLOCK_SIZE_pos : (0 < BLOCK_SIZE)%nat.






End PlainDecode.

Section CasterAgreement.
Import NodeTree Caster CasterRows CasterMask.





End CasterAgreement.

(** ** What the caster changes in its state *)

Section CasterFrames.
Import NodeTree Caster CasterRows CasterMask.

Lemma no_mask_bits st j : has_mask st = false -> bit_is_set st j = false.
Proof. unfold has_mask, bit_is_set. now destruct (null_mask st). Qed.

(** X6. Without a null mask a malformed escape is not reported: the
    single-thread functor and, for a row no longer than [WARP_THRESHOLD],
    the warp kernel leave the state an empty string would leave in the
    size pass, size 0 and the null counter untouched. *)
Theorem malformed_escape_without_mask options rows idx st :
  has_mask st = false -> size_pass st = true ->
  is_string_value options (at_index [] rows idx) = true ->
  malformed_escape (string_body options (at_index [] rows idx)) ->
  string_parse options rows idx st = set_offset idx 0 st
  /\ ((WARP_THRESHOLD <? Z.of_nat (length (at_index [] rows idx))) = false ->
      parse_fn_string_parallel true options rows idx st = set_offset idx 0 st).
Proof.
  intros Hmask Hpass Hstr Hbad.
  assert (Hc : d_chars st = None)
    by (unfold size_pass in Hpass; destruct (d_chars st); [discriminate | reflexivity]).
  split.
  - unfold string_parse. rewrite Hmask. cbn [andb]. rewrite andb_false_r.
    rewrite (process_string_malformed _ _ Hstr Hbad). cbn [is_success negb].
    unfold store_chars. rewrite Hc, Hmask. unfold zero_offset. now rewrite Hpass.
  - intros Hlen. unfold parse_fn_string_parallel.
    rewrite Hmask, Hlen. cbn [andb]. rewrite andb_false_r, Hstr. cbn [negb].
    assert (Hpos : (0 < block_size true)%nat)
      by (unfold block_size, warp_size, warps_per_block; lia).
    destruct (decode_parallel_malformed _ _ Hpos Hbad) as (-> & ->).
    rewrite (apply_stores_size_pass _ _ _ Hc), Hmask, Hpass. reflexivity.
Qed.

Lemma malformed_escape_without_mask_witness :
  string_parse example_options [trailing_backslash_row; plain_row] 0
               (mk_state None 0 [7; 0; 0] None)
  = mk_state None 0 [0; 0; 0] None
  /\ parse_fn_string_parallel true example_options [trailing_backslash_row; plain_row] 0
                              (mk_state None 0 [7; 0; 0] None)
     = mk_state None 0 [0; 0; 0] None.
Proof.
  assert (Hbad : malformed_escape
                   (string_body example_options
                                (at_index [] [trailing_backslash_row; plain_row] 0))).
  { change (malformed_escape [97; backslash_char]).
    apply after_plain_char; [unfold backslash_char; lia | apply backslash_at_end]. }
  destruct (malformed_escape_without_mask example_options
              [trailing_backslash_row; plain_row] 0 (mk_state None 0 [7; 0; 0] None)
              eq_refl eq_refl eq_refl Hbad) as (Hseq & Hpar).
  split; [exact Hseq | apply Hpar; reflexivity].
Defined.

(** X7. In the size pass a valid row that holds a null literal is nulled
    by the single-thread functor and by the parallel kernel responsible
    for its length, before any unescaping. *)
Theorem null_literal_nulls_row options rows idx st :
  has_mask st = true -> bit_is_set st idx = true -> size_pass st = true ->
  trie_na options (at_index [] rows idx) = true ->
  row_nulled idx st (string_parse options rows idx st)
  /\ string_parse options rows idx st = zero_offset idx (mark_null idx st)
  /\ (forall is_warp : bool,
        (if is_warp then WARP_THRESHOLD <? Z.of_nat (length (at_index [] rows idx))
         else Z.of_nat (length (at_index [] rows idx)) <=? WARP_THRESHOLD) = false ->
        parse_fn_string_parallel is_warp options rows idx st
        = zero_offset idx (mark_null idx st)).
Proof.
  intros Hmask Hbit Hpass Hna.
  pose proof (bit_is_set_nonneg _ _ Hbit) as Hidx.
  assert (E : string_parse options rows idx st = zero_offset idx (mark_null idx st)).
  { unfold string_parse. now rewrite Hmask, Hbit, Hpass, Hna. }
  split; [rewrite E; now apply row_nulled_intro|]. split; [exact E|].
  intros is_warp Hlen. unfold parse_fn_string_parallel.
  now rewrite Hmask, Hbit, Hlen, Hpass, Hna.
Qed.

Lemma null_literal_nulls_row_witness :
  string_parse example_options [bytes_of_string "null"; plain_row] 0 two_valid_rows
  = mk_state (Some [false; true]) 1 [0; 0; 0] None.
Proof.
  rewrite (proj1 (proj2 (null_literal_nulls_row example_options
                           [bytes_of_string "null"; plain_row] 0 two_valid_rows
                           eq_refl eq_refl eq_refl eq_refl))).
  reflexivity.
Defined.

Lemma row_frame_refl idx st : row_frame idx st st.
Proof.
  unfold row_frame. repeat split; auto.
  destruct (bit_is_set st idx); cbn; lia.
Qed.

Lemma row_frame_set_offset idx x st st1 :
  null_mask st1 = null_mask st -> null_count st1 = null_count st ->
  d_offsets st1 = d_offsets st ->
  row_frame idx st (set_offset idx x st1).
Proof.
  intros Hm Hc Ho.
  assert (Hbits : forall j, bit_is_set (set_offset idx x st1) j = bit_is_set st j)
    by (intros j; unfold bit_is_set, set_offset; cbn; now rewrite Hm).
  unfold row_frame. repeat split.
  - intros j _. apply Hbits.
  - now rewrite Hbits.
  - rewrite Hbits. cbn. rewrite Hc. destruct (bit_is_set st idx); cbn; lia.
  - unfold has_mask, set_offset. cbn. now rewrite Hm.
  - cbn. now rewrite update_length, Ho.
  - intros j Hj Hne. cbn. rewrite Ho. now apply at_index_update_other.
Qed.

Lemma row_frame_keep idx st st1 :
  null_mask st1 = null_mask st -> null_count st1 = null_count st ->
  d_offsets st1 = d_offsets st ->
  row_frame idx st st1.
Proof.
  intros Hm Hc Ho.
  assert (Hbits : forall j, bit_is_set st1 j = bit_is_set st j)
    by (intros j; unfold bit_is_set; now rewrite Hm).
  unfold row_frame. repeat split.
  - intros j _. apply Hbits.
  - now rewrite Hbits.
  - rewrite Hbits, Hc. destruct (bit_is_set st idx); cbn; lia.
  - unfold has_mask. now rewrite Hm.
  - now rewrite Ho.
  - intros j _ _. now rewrite Ho.
Qed.

Lemma row_frame_zero_offset idx st st1 :
  null_mask st1 = null_mask st -> null_count st1 = null_count st ->
  d_offsets st1 = d_offsets st ->
  row_frame idx st (zero_offset idx st1).
Proof.
  intros Hm Hc Ho. unfold zero_offset.
  destruct (size_pass st1); [now apply row_frame_set_offset | now apply row_frame_keep].
Qed.

Lemma row_frame_mark_null idx st st1 :
  bit_is_set st idx = true ->
  null_mask st1 = null_mask st -> null_count st1 = null_count st ->
  d_offsets st1 = d_offsets st ->
  row_frame idx st (zero_offset idx (mark_null idx st1)).
Proof.
  intros Hbit Hm Hc Ho.
  assert (Hbits : forall j, bit_is_set st1 j = bit_is_set st j)
    by (intros j; unfold bit_is_set; now rewrite Hm).
  unfold row_frame. repeat split.
  - intros j Hj. rewrite bit_is_set_zero_offset, bit_is_set_mark_null_other by exact Hj.
    apply Hbits.
  - now rewrite bit_is_set_zero_offset, bit_is_set_mark_null.
  - rewrite bit_is_set_zero_offset, bit_is_set_mark_null, Hbit. cbn [andb negb].
    unfold zero_offset. destruct (size_pass (mark_null idx st1)); cbn; lia.
  - rewrite has_mask_zero_offset, has_mask_mark_null. unfold has_mask. now rewrite Hm.
  - unfold zero_offset. destruct (size_pass (mark_null idx st1)); cbn;
      rewrite ?update_length; now rewrite Ho.
  - intros j Hj Hne. unfold zero_offset.
    destruct (size_pass (mark_null idx st1)); cbn [set_offset mark_null d_offsets];
      rewrite Ho; [now apply at_index_update_other | reflexivity].
Qed.

Lemma unskipped_row_is_valid st idx :
  has_mask st && negb (bit_is_set st idx) = false ->
  has_mask st = true -> bit_is_set st idx = true.
Proof. intros H Hm. rewrite Hm in H. now destruct (bit_is_set st idx). Qed.

(** X8. Whatever a row holds, processing it changes no validity bit of
    another row and no other row's offset, never sets a validity bit, and
    increments the null counter exactly when it clears the row's bit;
    this holds for the single-thread functor and for both kernels. *)
Theorem caster_row_frame options rows idx st :
  row_frame idx st (string_parse options rows idx st)
  /\ forall is_warp, row_frame idx st (parse_fn_string_parallel is_warp options rows idx st).
Proof.
  split.
  - unfold string_parse.
    destruct (has_mask st && negb (bit_is_set st idx)) eqn:Hskip;
      [now apply row_frame_zero_offset|].
    pose proof (unskipped_row_is_valid _ _ Hskip) as Hvalid.
    destruct (size_pass st && trie_na options (at_index [] rows idx) && has_mask st)
      eqn:Hnull.
    { apply andb_prop in Hnull. destruct Hnull as (_ & Hm).
      apply row_frame_mark_null; auto. }
    set (info := process_string (at_index [] rows idx) options).
    destruct (store_chars_frame (at_index 0 (d_offsets st) idx) (written info) st)
      as (E1 & E2 & E3 & E4).
    destruct (negb (is_success (result_code info))).
    + rewrite (has_mask_frame _ _ E1).
      destruct (has_mask st) eqn:Hm.
      * apply row_frame_mark_null; auto.
      * now apply row_frame_zero_offset.
    + destruct (size_pass (store_chars (at_index 0 (d_offsets st) idx) (written info) st));
        [now apply row_frame_set_offset | now apply row_frame_keep].
  - intros is_warp. unfold parse_fn_string_parallel.
    destruct (has_mask st && negb (bit_is_set st idx)) eqn:Hskip;
      [now apply row_frame_zero_offset|].
    pose proof (unskipped_row_is_valid _ _ Hskip) as Hvalid.
    match goal with |- context [if ?b then st else _] => destruct b end;
      [apply row_frame_refl|].
    destruct (size_pass st && trie_na options (at_index [] rows idx) && has_mask st)
      eqn:Hnull.
    { apply andb_prop in Hnull. destruct Hnull as (_ & Hm).
      apply row_frame_mark_null; auto. }
    destruct (negb (is_string_value options (at_index [] rows idx))).
    { destruct (size_pass st); [now apply row_frame_set_offset|].
      destruct (store_chars_frame (at_index 0 (d_offsets st) idx) (at_index [] rows idx) st)
        as (E1 & E2 & E3 & E4).
      now apply row_frame_keep. }
    set (outcome := decode_parallel _ _).
    destruct (apply_stores_frame (at_index 0 (d_offsets st) idx) (stores outcome) st)
      as (E1 & E2 & E3 & E4).
    set (st1 := apply_stores _ _ st) in *.
    destruct (decode_error outcome) eqn:Herr.
    + rewrite (has_mask_frame _ _ E1).
      destruct (has_mask st) eqn:Hm.
      * assert (Hoff : last_offset outcome = 0)
          by (apply char_loop_error_offset; exact Herr).
        rewrite Hoff.
        change (if size_pass (mark_null idx st1)
                then set_offset idx 0 (mark_null idx st1) else mark_null idx st1)
          with (zero_offset idx (mark_null idx st1)).
        apply row_frame_mark_null; auto.
      * destruct (size_pass st1);
          [now apply row_frame_set_offset | now apply row_frame_keep].
    + destruct (size_pass st1);
        [now apply row_frame_set_offset | now apply row_frame_keep].
Qed.

End CasterFrames.

(** ** The null count over a whole column *)

Section NullCountBalance.
Import NodeTree Caster CasterRows CasterMask.

Lemma count_cleared_app m1 m2 :
  count_cleared (m1 ++ m2) = count_cleared m1 + count_cleared m2.
Proof. unfold count_cleared. rewrite filter_app, length_app. lia. Qed.

Lemma count_cleared_update m idx :
  count_cleared (update m idx false)
  = count_cleared m + (if (0 <=? idx) && nth (Z.to_nat idx) m false then 1 else 0).
Proof.
  unfold update.
  destruct (Z.leb_spec 0 idx) as [Hlo|Hlo]; cbn [andb]; [|lia].
  destruct (Z.ltb_spec idx (Z.of_nat (length m))) as [Hhi|Hhi].
  - rewrite <- (firstn_skipn (Z.to_nat idx) m) at 3 4.
    destruct (skipn (Z.to_nat idx) m) as [|b tl] eqn:E.
    { pose proof (length_skipn (Z.to_nat idx) m) as L. rewrite E in L. cbn in L. lia. }
    assert (Etl : skipn (S (Z.to_nat idx)) m = tl).
    { change (S (Z.to_nat idx)) with (1 + Z.to_nat idx)%nat.
      rewrite <- skipn_skipn, E. reflexivity. }
    rewrite Etl, app_nth2 by (rewrite length_firstn; lia).
    rewrite length_firstn, Nat.min_l by lia. rewrite Nat.sub_diag. cbn [nth].
    rewrite !count_cleared_app.
    change (false :: tl) with ([false] ++ tl). change (b :: tl) with ([b] ++ tl).
    rewrite !count_cleared_app. change (count_cleared [false]) with 1.
    destruct b; [change (count_cleared [true]) with 0 | change (count_cleared [false]) with 1];
      lia.
  - rewrite nth_overflow by lia. lia.
Qed.

(** What processing a row does to the mask and the counter: nothing, or
    the row's set bit is cleared and the counter grows by one. *)
Lemma caster_row_outcome options rows idx st :
  let outcome st' :=
    (null_mask st' = null_mask st /\ null_count st' = null_count st)
    \/ (bit_is_set st idx = true
        /\ null_mask st' = null_mask (mark_null idx st)
        /\ null_count st' = null_count st + 1) in
  outcome (string_parse options rows idx st)
  /\ forall is_warp, outcome (parse_fn_string_parallel is_warp options rows idx st).
Proof.
  intros outcome.
  assert (Hzero : forall s, null_mask (zero_offset idx s) = null_mask s
                            /\ null_count (zero_offset idx s) = null_count s).
  { intros s. unfold zero_offset. now destruct (size_pass s). }
  assert (Hkeep : forall st1 x,
            null_mask st1 = null_mask st -> null_count st1 = null_count st ->
            outcome (if size_pass st1 then set_offset idx x st1 else st1)).
  { intros st1 x E1 E2. left. destruct (size_pass st1); cbn; now split. }
  assert (Hnull : forall st1,
            bit_is_set st idx = true ->
            null_mask st1 = null_mask st -> null_count st1 = null_count st ->
            outcome (zero_offset idx (mark_null idx st1))).
  { intros st1 Hb E1 E2. right. split; [exact Hb|].
    destruct (Hzero (mark_null idx st1)) as (-> & ->). cbn. rewrite E1, E2. now split. }
  split.
  - unfold string_parse.
    destruct (has_mask st && negb (bit_is_set st idx)) eqn:Hskip.
    { left. apply Hzero. }
    pose proof (unskipped_row_is_valid _ _ Hskip) as Hvalid.
    destruct (size_pass st && trie_na options (at_index [] rows idx) && has_mask st)
      eqn:Hlit.
    { apply andb_prop in Hlit. destruct Hlit as (_ & Hm). now apply Hnull; auto. }
    set (info := process_string (at_index [] rows idx) options).
    destruct (store_chars_frame (at_index 0 (d_offsets st) idx) (written info) st)
      as (E1 & E2 & E3 & E4).
    destruct (negb (is_success (result_code info))).
    + rewrite (has_mask_frame _ _ E1). destruct (has_mask st) eqn:Hm.
      * now apply Hnull; auto.
      * left. destruct (Hzero (store_chars (at_index 0 (d_offsets st) idx)
                                           (written info) st)) as (-> & ->).
        now split.
    + now apply Hkeep.
  - intros is_warp. unfold parse_fn_string_parallel.
    destruct (has_mask st && negb (bit_is_set st idx)) eqn:Hskip.
    { left. apply Hzero. }
    pose proof (unskipped_row_is_valid _ _ Hskip) as Hvalid.
    match goal with |- context [if ?b then st else _] => destruct b end;
      [left; now split|].
    destruct (size_pass st && trie_na options (at_index [] rows idx) && has_mask st)
      eqn:Hlit.
    { apply andb_prop in Hlit. destruct Hlit as (_ & Hm). now apply Hnull; auto. }
    destruct (negb (is_string_value options (at_index [] rows idx))).
    { left. destruct (size_pass st); [now split|].
      destruct (store_chars_frame (at_index 0 (d_offsets st) idx) (at_index [] rows idx) st)
        as (E1 & E2 & _). now split. }
    set (decoded := decode_parallel _ _).
    destruct (apply_stores_frame (at_index 0 (d_offsets st) idx) (stores decoded) st)
      as (E1 & E2 & E3 & E4).
    set (st1 := apply_stores _ _ st) in *.
    destruct (decode_error decoded) eqn:Herr.
    + rewrite (has_mask_frame _ _ E1). destruct (has_mask st) eqn:Hm.
      * assert (Hoff : last_offset decoded = 0)
          by (apply char_loop_error_offset; exact Herr).
        rewrite Hoff.
        change (if size_pass (mark_null idx st1)
                then set_offset idx 0 (mark_null idx st1) else mark_null idx st1)
          with (zero_offset idx (mark_null idx st1)).
        now apply Hnull; auto.
      * now apply Hkeep.
    + now apply Hkeep.
Qed.

Lemma balance_of_outcome idx st st' :
  (null_mask st' = null_mask st /\ null_count st' = null_count st)
  \/ (bit_is_set st idx = true
      /\ null_mask st' = null_mask (mark_null idx st)
      /\ null_count st' = null_count st + 1) ->
  null_count st' - nulls_in_mask st' = null_count st - nulls_in_mask st.
Proof.
  unfold nulls_in_mask. intros [(-> & ->) | (Hbit & -> & ->)]; [reflexivity|].
  unfold bit_is_set in Hbit. cbn [mark_null null_mask].
  destruct (null_mask st) as [m|]; [|discriminate].
  rewrite count_cleared_update, Hbit. lia.
Qed.

Lemma for_rows_balance (f : Z -> caster_state -> caster_state) :
  (forall idx st,
     null_count (f idx st) - nulls_in_mask (f idx st) = null_count st - nulls_in_mask st) ->
  forall col_size st,
    null_count (for_rows f col_size st) - nulls_in_mask (for_rows f col_size st)
    = null_count st - nulls_in_mask st.
Proof.
  intros Hstep col_size. unfold for_rows.
  induction (Traversal.sequence col_size) as [|idx idxs IH]; intros st; [reflexivity|].
  cbn [fold_left]. now rewrite IH, Hstep.
Qed.

Lemma string_parse_balance options rows idx st :
  null_count (string_parse options rows idx st)
  - nulls_in_mask (string_parse options rows idx st)
  = null_count st - nulls_in_mask st.
Proof.
  apply (balance_of_outcome idx). apply (caster_row_outcome options rows idx st).
Qed.

Lemma parallel_balance is_warp options rows idx st :
  null_count (parse_fn_string_parallel is_warp options rows idx st)
  - nulls_in_mask (parse_fn_string_parallel is_warp options rows idx st)
  = null_count st - nulls_in_mask st.
Proof.
  apply (balance_of_outcome idx). apply (caster_row_outcome options rows idx st).
Qed.

(** X9. [parse_data] keeps the null count in step with the null mask:
    over a whole string column, on the single-thread path and on the
    parallel path, the count grows by the number of validity bits that
    are cleared.  A count that equals the number of cleared bits on entry
    equals it on return. *)
Theorem parse_data_null_count_balance options rows mask nulls :
  let st := parse_data options rows mask nulls in
  null_count st - nulls_in_mask st
  = nulls - nulls_in_mask (mk_state mask nulls [] None).
Proof.
  cbv zeta. unfold parse_data.
  destruct (fold_left Z.max (map (fun t => Z.of_nat (length t)) rows) 0
            <? SINGLE_THREAD_THRESHOLD).
  - unfold make_strings_children.
    destruct (sizes_to_offsets _) as [offsets total].
    rewrite for_rows_balance by (intros; apply string_parse_balance).
    unfold nulls_in_mask at 1. cbn [null_mask null_count].
    fold (nulls_in_mask (for_rows (string_parse options rows) (length rows)
            (mk_state mask nulls (Buffer.zeros (Z.of_nat (length rows) + 1)) None))).
    rewrite for_rows_balance by (intros; apply string_parse_balance).
    reflexivity.
  - destruct (sizes_to_offsets _) as [offsets total].
    rewrite for_rows_balance by (intros; apply parallel_balance).
    rewrite for_rows_balance by (intros; apply parallel_balance).
    unfold nulls_in_mask at 1. cbn [null_mask null_count].
    match goal with
    | |- null_count ?s - _ = _ => fold (nulls_in_mask s)
    end.
    rewrite for_rows_balance by (intros; apply parallel_balance).
    rewrite for_rows_balance by (intros; apply parallel_balance).
    reflexivity.
Qed.

End NullCountBalance.

(** ** The level ordering of the CSR column tree *)

Section LevelOrdering.
Import NodeTree CsrColumnTree.

Variables node_levels col_ids parent_node_ids : list Z.

Lemma level_ordering_lex a b :
  level_ordering node_levels col_ids parent_node_ids a b = true <->
  (fst (fst (level_key node_levels col_ids parent_node_ids a))
   < fst (fst (level_key node_levels col_ids parent_node_ids b)))
  \/ (fst (fst (level_key node_levels col_ids parent_node_ids a))
      = fst (fst (level_key node_levels col_ids parent_node_ids b))
      /\ snd (fst (level_key node_levels col_ids parent_node_ids a))
         < snd (fst (level_key node_levels col_ids parent_node_ids b)))
  \/ (fst (fst (level_key node_levels col_ids parent_node_ids a))
      = fst (fst (level_key node_levels col_ids parent_node_ids b))
      /\ snd (fst (level_key node_levels col_ids parent_node_ids a))
         = snd (fst (level_key node_levels col_ids parent_node_ids b))
      /\ snd (level_key node_levels col_ids parent_node_ids a)
         < snd (level_key node_levels col_ids parent_node_ids b)).
Proof.
  unfold level_ordering, level_key. cbn [fst snd].
  rewrite !orb_true_iff, !andb_true_iff, !Z.ltb_lt, !Z.eqb_eq. tauto.
Qed.

(** X10. The comparator [level_ordering] is a strict weak ordering, as
    the merge sort it is handed to requires: it is irreflexive and
    transitive, and being unordered either way is transitive too; two
    nodes are unordered exactly when they agree on level, parent column
    and column. *)
Theorem level_ordering_strict_weak :
  (forall a, level_ordering node_levels col_ids parent_node_ids a a = false)
  /\ (forall a b c,
        level_ordering node_levels col_ids parent_node_ids a b = true ->
        level_ordering node_levels col_ids parent_node_ids b c = true ->
        level_ordering node_levels col_ids parent_node_ids a c = true)
  /\ (forall a b,
        level_ordering node_levels col_ids parent_node_ids a b = false /\
        level_ordering node_levels col_ids parent_node_ids b a = false
        <-> level_key node_levels col_ids parent_node_ids a
            = level_key node_levels col_ids parent_node_ids b)
  /\ (forall a b c,
        level_ordering node_levels col_ids parent_node_ids a b = false ->
        level_ordering node_levels col_ids parent_node_ids b a = false ->
        level_ordering node_levels col_ids parent_node_ids b c = false ->
        level_ordering node_levels col_ids parent_node_ids c b = false ->
        level_ordering node_levels col_ids parent_node_ids a c = false /\
        level_ordering node_levels col_ids parent_node_ids c a = false).
Proof.
  set (lt := level_ordering node_levels col_ids parent_node_ids).
  set (key := level_key node_levels col_ids parent_node_ids).
  pose proof level_ordering_lex as Hlex. fold lt key in Hlex.
  assert (Hneg : forall a b, lt a b = false <-> ~ lt a b = true)
    by (intros a b; destruct (lt a b); split; congruence).
  assert (Hkey : forall a b,
            lt a b = false /\ lt b a = false <-> key a = key b).
  { intros a b. rewrite !Hneg, !Hlex.
    destruct (key a) as [[la pa] ca], (key b) as [[lb pb] cb]. cbn [fst snd].
    split.
    - intros (H1 & H2). assert (la = lb) by lia. assert (pa = pb) by lia.
      assert (ca = cb) by lia. congruence.
    - intros E. injection E as -> -> ->. lia. }
  split; [|split; [|split]].
  - intros a. apply Hneg. rewrite Hlex. lia.
  - intros a b c. rewrite !Hlex. lia.
  - exact Hkey.
  - intros a b c Hab Hba Hbc Hcb. apply Hkey.
    transitivity (key b); apply Hkey; now split.
Qed.

End LevelOrdering.

Lemma level_ordering_strict_weak_witness :
  CsrColumnTree.level_ordering [0; 1; 1; 2] [0; 1; 1; 2] [-1; 0; 0; 1] 0 3 = true
  /\ CsrColumnTree.level_ordering [0; 1; 1; 2] [0; 1; 1; 2] [-1; 0; 0; 1] 1 2 = false.
Proof.
  destruct (level_ordering_strict_weak [0; 1; 1; 2] [0; 1; 1; 2] [-1; 0; 0; 1])
    as (_ & Htrans & Hkey & _).
  split.
  - apply (Htrans 0 1 3); reflexivity.
  - apply (proj2 (Hkey 1 2)). reflexivity.
Defined.

(** ** Columns that hold null literals only *)

Section AllNulls.
Import NodeTree Caster ColumnTree DeviceColumnTree.

Variable trie_na : list Z -> bool.
Variable input : list Z.
Variable column_categories : list node_t.
Variable tree : tree_meta_t.
Variable col_ids : list Z.

Lemma at_index_update_flag (v : list bool) k c :
  0 <= c < Z.of_nat (length v) ->
  at_index true (update v k false) c
  = if k =? c then false else at_index true v c.
Proof.
  intros Hc. unfold at_index. destruct (Z.eqb_spec k c) as [->|Hne].
  - now apply nth_update_same.
  - apply nth_update_other. lia.
Qed.

Lemma in_sequence n i : In i (Traversal.sequence n) <-> 0 <= i < Z.of_nat n.
Proof.
  unfold Traversal.sequence. rewrite in_map_iff. split.
  - intros (k & <- & Hk). apply in_seq in Hk. lia.
  - intros Hi. exists (Z.to_nat i). split; [lia|]. apply in_seq. lia.
Qed.

Lemma all_nulls_fold c : forall idxs acc,
  0 <= c < Z.of_nat (length acc) ->
  at_index true
    (fold_left
       (fun is_all_nulls i =>
          let node_category := at_index NC_ERR column_categories (at_index 0 col_ids i) in
          if node_eqb node_category NC_STR || node_eqb node_category NC_VAL then
            let is_null_literal :=
              trie_na (Buffer.slice input (at_index 0 (node_range_begin tree) i)
                                    (at_index 0 (node_range_end tree) i)) in
            if negb is_null_literal
            then update is_all_nulls (at_index 0 col_ids i) false
            else is_all_nulls
          else is_all_nulls)
       idxs acc) c = false
  <-> at_index true acc c = false
      \/ exists i, In i idxs /\ at_index 0 col_ids i = c
                   /\ is_leaf_category (at_index NC_ERR column_categories c) = true
                   /\ holds_value trie_na input tree i = true.
Proof.
  induction idxs as [|i idxs IH]; intros acc Hc.
  - cbn. split; [now left | intros [H | (i & [] & _)]; exact H].
  - cbn [fold_left]. cbv zeta.
    assert (Hleaf : forall cat, node_eqb cat NC_STR || node_eqb cat NC_VAL
                                = is_leaf_category cat) by (now intros []).
    rewrite Hleaf. fold (holds_value trie_na input tree i).
    destruct (is_leaf_category (at_index NC_ERR column_categories (at_index 0 col_ids i)))
      eqn:Ecat.
    + destruct (holds_value trie_na input tree i) eqn:Eval.
      * rewrite IH by (now rewrite update_length).
        rewrite at_index_update_flag by exact Hc.
        destruct (Z.eqb_spec (at_index 0 col_ids i) c) as [Ecol|Ecol].
        -- split; [|tauto]. intros _. right. exists i. subst c. cbn [In]. tauto.
        -- split.
           ++ intros [H | (j & Hin & Hj)]; [now left | right; exists j; cbn [In]; tauto].
           ++ intros [H | (j & [-> | Hin] & Hj)]; [now left | tauto | right; now exists j].
      * rewrite IH by exact Hc. split.
        -- intros [H | (j & Hin & Hj)]; [now left | right; exists j; cbn [In]; tauto].
        -- intros [H | (j & [-> | Hin] & Hj)]; [now left | | right; now exists j].
           destruct Hj as (_ & _ & Hv). congruence.
    + rewrite IH by exact Hc. split.
      * intros [H | (j & Hin & Hj)]; [now left | right; exists j; cbn [In]; tauto].
      * intros [H | (j & [-> | Hin] & Hj)]; [now left | | right; now exists j].
        destruct Hj as (Hcol & Hl & _). rewrite Hcol in Ecat. congruence.
Qed.

(** X11. [is_all_nulls_each_column] clears the flag of a column exactly
    when the column is a string or value column one of whose nodes holds
    something other than a null literal; every other flag stays set, and
    there is one flag per column. *)
Theorem is_all_nulls_each_column_spec c :
  0 <= c < Z.of_nat (length column_categories) ->
  length (is_all_nulls_each_column trie_na input column_categories tree col_ids)
  = length column_categories
  /\ (at_index true
        (is_all_nulls_each_column trie_na input column_categories tree col_ids) c = false
      <-> exists i, 0 <= i < Z.of_nat (length col_ids)
                    /\ at_index 0 col_ids i = c
                    /\ is_leaf_category (at_index NC_ERR column_categories c) = true
                    /\ holds_value trie_na input tree i = true).
Proof.
  intros Hc. unfold is_all_nulls_each_column. split.
  - generalize (repeat_length true (length column_categories)).
    generalize (repeat true (length column_categories)) as acc.
    induction (Traversal.sequence (length col_ids)) as [|i idxs IH]; intros acc Hlen;
      [exact Hlen|].
    cbn [fold_left]. apply IH.
    repeat match goal with
           | |- context [if ?b then _ else _] => destruct b
           end; rewrite ?update_length; exact Hlen.
  - rewrite all_nulls_fold by (now rewrite repeat_length).
    unfold at_index at 1. rewrite nth_repeat. split.
    + intros [H | (i & Hin & Hi)]; [discriminate|]. exists i.
      now rewrite <- in_sequence.
    + intros (i & Hin & Hi). right. exists i. now rewrite in_sequence.
Qed.

End AllNulls.

Lemma is_all_nulls_each_column_spec_witness :
  let flags :=
    DeviceColumnTree.is_all_nulls_each_column
      (fun span => match span with [110; 117; 108; 108] => true | _ => false end)
      (json_bytes "[{'a':null,'b':1},{'a':null}]")
      [NC_LIST; NC_STRUCT; NC_FN; NC_VAL; NC_FN; NC_VAL]
      (NodeTree.mk_tree
         [NC_LIST; NC_STRUCT; NC_FN; NC_VAL; NC_FN; NC_VAL; NC_STRUCT; NC_FN; NC_VAL]
         [-1; 0; 1; 2; 1; 4; 0; 6; 7]
         [0; 1; 2; 3; 2; 3; 1; 2; 3]
         [0; 1; 3; 6; 12; 15; 18; 20; 23]
         [1; 2; 4; 10; 13; 16; 19; 21; 27])
      [0; 1; 2; 3; 4; 5; 1; 2; 3] in
  length flags = 6%nat
  /\ NodeTree.at_index true flags 5 = false
  /\ flags = [true; true; true; true; true; false].
Proof.
  cbv zeta.
  destruct (is_all_nulls_each_column_spec
              (fun span => match span with [110; 117; 108; 108] => true | _ => false end)
              (json_bytes "[{'a':null,'b':1},{'a':null}]")
              [NC_LIST; NC_STRUCT; NC_FN; NC_VAL; NC_FN; NC_VAL]
              (NodeTree.mk_tree
                 [NC_LIST; NC_STRUCT; NC_FN; NC_VAL; NC_FN; NC_VAL; NC_STRUCT; NC_FN; NC_VAL]
                 [-1; 0; 1; 2; 1; 4; 0; 6; 7]
                 [0; 1; 2; 3; 2; 3; 1; 2; 3]
                 [0; 1; 3; 6; 12; 15; 18; 20; 23]
                 [1; 2; 4; 10; 13; 16; 19; 21; 27])
              [0; 1; 2; 3; 4; 5; 1; 2; 3] 5 ltac:(cbn; lia)) as (Hlen & Hflag).
  split; [exact Hlen|]. split.
  - apply Hflag. exists 5. repeat split; try reflexivity; cbn; lia.
  - vm_compute. reflexivity.
Defined.

(** ** The shape of the column tree *)

Section GatherColumnInfo.
Import NodeTree ColumnTree Traversal Reducer.

Lemma insert_by_perm {A} (key : A -> Z) x : forall l,
  Permutation (x :: l) (insert_by key x l).
Proof.
  induction l as [|y l IH]; [reflexivity|].
  cbn [insert_by]. destruct (key y <=? key x); [|reflexivity].
  rewrite perm_swap. now apply perm_skip.
Qed.

Lemma insert_by_hd {A} (key : A -> Z) x a : forall l,
  a <= key x -> HdRel Z.le a (map key l) -> HdRel Z.le a (map key (insert_by key x l)).
Proof.
  intros [|y l] Hx Hl; cbn [insert_by map]; [now constructor|].
  destruct (key y <=? key x); [|now constructor].
  cbn [map]. constructor. now inversion Hl.
Qed.

Lemma insert_by_sorted {A} (key : A -> Z) x : forall l,
  Sorted Z.le (map key l) -> Sorted Z.le (map key (insert_by key x l)).
Proof.
  induction l as [|y l IH]; intros Hs; [repeat constructor|].
  cbn [insert_by]. inversion Hs as [|? ? Hs' Hhd]; subst.
  destruct (Z.leb_spec (key y) (key x)) as [Hle|Hgt].
  - cbn [map]. constructor; [now apply IH | now apply insert_by_hd].
  - cbn [map]. constructor; [exact Hs|]. constructor. lia.
Qed.

Lemma stable_sort_by_spec {A} (key : A -> Z) (v : list A) :
  Permutation v (stable_sort_by key v) /\ Sorted Z.le (map key (stable_sort_by key v)).
Proof.
  unfold stable_sort_by.
  assert (H : forall v acc,
            Sorted Z.le (map key acc) ->
            Permutation (acc ++ v) (fold_left (fun acc x => insert_by key x acc) v acc)
            /\ Sorted Z.le (map key (fold_left (fun acc x => insert_by key x acc) v acc))).
  { clear v. induction v as [|x v IH]; intros acc Hs.
    - cbn. rewrite app_nil_r. now split.
    - cbn [fold_left]. destruct (IH (insert_by key x acc) (insert_by_sorted key x acc Hs))
        as (Hp & Hs'). split; [|exact Hs'].
      rewrite <- Hp. rewrite <- (insert_by_perm key x acc).
      symmetry. apply Permutation_middle. }
  apply (H v []). constructor.
Qed.

Lemma reduce_by_key_from_keys {A} (op : A -> A -> A) : forall kvs k acc,
  Sorted Z.le (k :: map fst kvs) ->
  (exists tl, map fst (reduce_by_key_from op k acc kvs) = k :: tl)
  /\ Sorted Z.lt (map fst (reduce_by_key_from op k acc kvs))
  /\ (forall c, In c (map fst (reduce_by_key_from op k acc kvs))
                <-> c = k \/ In c (map fst kvs)).
Proof.
  induction kvs as [|[k' v] kvs IH]; intros k acc Hs.
  - cbn. split; [now exists []|]. split; [repeat constructor|]. intros c. intuition.
  - cbn [reduce_by_key_from map fst] in *.
    inversion Hs as [|? ? Hs' Hhd]; subst. inversion Hhd as [|? ? Hle]; subst.
    destruct (Z.eqb_spec k k') as [->|Hne].
    + destruct (IH k' (op acc v) Hs') as (Hh & Hsorted & Hin).
      split; [exact Hh|]. split; [exact Hsorted|].
      intros c. rewrite Hin. cbn [In]. intuition.
    + destruct (IH k' v Hs') as ((tl & Hh) & Hsorted & Hin).
      cbn [map fst]. split; [now eexists|]. split.
      * constructor; [exact Hsorted|]. rewrite Hh. constructor. lia.
      * intros c. cbn [In]. rewrite Hin. intuition.
Qed.

Lemma reduce_by_key_from_length {A B} (op : A -> A -> A) :
  forall (kvs : list (Z * A)) (kvs' : list (Z * B)) k acc,
    map fst kvs = map fst kvs' ->
    length (reduce_by_key_from op k acc kvs) = S (length (unique_by_key_from k kvs')).
Proof.
  induction kvs as [|[k1 v] kvs IH]; intros [|[k2 w] kvs'] k acc E; try discriminate E.
  - reflexivity.
  - cbn in E. injection E as <- E. cbn [reduce_by_key_from unique_by_key_from].
    rewrite (Z.eqb_sym k1 k). destruct (k =? k1).
    + now apply IH.
    + cbn [length]. f_equal. now apply IH.
Qed.

Lemma reduce_by_key_length {A B} (op : A -> A -> A)
      (kvs : list (Z * A)) (kvs' : list (Z * B)) :
  map fst kvs = map fst kvs' ->
  length (reduce_by_key op kvs) = length (unique_by_key_copy kvs').
Proof.
  destruct kvs as [|[k v] kvs], kvs' as [|[k' w] kvs']; intros E; try discriminate E.
  - reflexivity.
  - cbn in E. injection E as <- E. cbn [reduce_by_key unique_by_key_copy length].
    now apply reduce_by_key_from_length.
Qed.

Lemma reduce_by_key_keys {A} (op : A -> A -> A) (kvs : list (Z * A)) :
  Sorted Z.le (map fst kvs) ->
  Sorted Z.lt (map fst (reduce_by_key op kvs))
  /\ (forall c, In c (map fst (reduce_by_key op kvs)) <-> In c (map fst kvs)).
Proof.
  destruct kvs as [|[k v] kvs]; intros Hs.
  - cbn. split; [constructor | tauto].
  - cbn [reduce_by_key]. destruct (reduce_by_key_from_keys op kvs k v Hs) as (_ & H1 & H2).
    split; [exact H1|]. intros c. rewrite H2. cbn [map fst In]. intuition.
Qed.

Lemma transform_rows_length categories parents rows : forall cols out,
  transform_rows categories parents rows cols = Ok out -> length out = length cols.
Proof.
  induction cols as [|[col_id old] cols IH]; intros out H.
  - cbn in H. now injection H as <-.
  - cbn [transform_rows] in H.
    match type of H with
    | bind ?c _ = _ => destruct c as [new|e]; [|discriminate H]
    end.
    cbn [bind] in H.
    destruct (transform_rows categories parents rows cols) as [rest|e];
      [|discriminate H].
    cbn [bind] in H. injection H as <-. cbn [length]. f_equal. now apply IH.
Qed.

Lemma map_fst_combine_le {A B} : forall (l : list A) (l' : list B),
  (length l <= length l')%nat -> map fst (combine l l') = l.
Proof.
  induction l as [|a l IH]; intros [|b l'] H; cbn in *; try reflexivity; try lia.
  f_equal. apply IH. lia.
Qed.

(** X12. When [gather_column_info] returns, the column tree has one
    entry per distinct column id in each of its seven arrays, and the
    unique column ids are the column ids of the nodes in strictly
    increasing order. *)
Theorem gather_column_info_shape tree col_ids row_offsets ct :
  length col_ids = length row_offsets ->
  gather_column_info tree col_ids row_offsets = Ok ct ->
  length (column_categories ct) = length (unique_col_ids ct)
  /\ length (parent_col_ids ct) = length (unique_col_ids ct)
  /\ length (column_levels ct) = length (unique_col_ids ct)
  /\ length (col_range_begin ct) = length (unique_col_ids ct)
  /\ length (col_range_end ct) = length (unique_col_ids ct)
  /\ length (max_row_offsets ct) = length (unique_col_ids ct)
  /\ Sorted Z.lt (unique_col_ids ct)
  /\ (forall c, In c (unique_col_ids ct) <-> In c col_ids).
Proof.
  intros Hlen H. unfold gather_column_info in H.
  set (sorted := stable_sort_by fst
                   (combine col_ids (combine (sequence (length row_offsets)) row_offsets)))
    in *.
  set (max_rows := reduce_by_key Z.max (map (fun r => (fst r, snd (snd r))) sorted)) in *.
  set (categories := reduce_by_key unify_categories _) in *.
  set (firsts := unique_by_key_copy (map (fun r => (fst r, fst (snd r))) sorted)) in *.
  match type of H with
  | bind ?c _ = _ => destruct c as [rows|e] eqn:Hrows; [|discriminate H]
  end.
  cbn [bind] in H. injection H as <-.
  cbn [unique_col_ids column_categories parent_col_ids column_levels col_range_begin
       col_range_end max_row_offsets].
  apply transform_rows_length in Hrows.
  rewrite length_combine, !length_map, Nat.min_id in Hrows.
  assert (Hfirsts : length firsts = length max_rows).
  { symmetry. apply reduce_by_key_length. rewrite !map_map. reflexivity. }
  assert (Hcats : length categories = length max_rows).
  { subst categories max_rows.
    rewrite (reduce_by_key_length unify_categories _
               (map (fun r => (fst r, fst (snd r))) sorted))
      by (rewrite !map_map; reflexivity).
    rewrite (reduce_by_key_length Z.max _
               (map (fun r => (fst r, fst (snd r))) sorted))
      by (rewrite !map_map; reflexivity).
    reflexivity. }
  rewrite !length_map. repeat (split; [congruence|]).
  destruct (stable_sort_by_spec fst
              (combine col_ids (combine (sequence (length row_offsets)) row_offsets)))
    as (Hperm & Hsorted). fold sorted in Hperm, Hsorted.
  assert (Hkeys : map fst (map (fun r : Z * (Z * Z) => (fst r, snd (snd r))) sorted)
                  = map fst sorted) by (rewrite map_map; reflexivity).
  destruct (reduce_by_key_keys Z.max (map (fun r => (fst r, snd (snd r))) sorted))
    as (Hlt & Hin); [now rewrite Hkeys|].
  fold max_rows in Hlt, Hin. split; [exact Hlt|].
  intros c. rewrite Hin, Hkeys.
  assert (Hfst : map fst (combine col_ids
                            (combine (sequence (length row_offsets)) row_offsets))
                 = col_ids).
  { apply map_fst_combine_le.
    rewrite length_combine. unfold sequence. rewrite length_map, length_seq. lia. }
  rewrite <- Hfst at 1.
  split; intros Hc; eapply Permutation_in; try exact Hc;
    [symmetry|]; now apply Permutation_map.
Qed.

Lemma gather_column_info_shape_witness :
  exists ct,
    gather_column_info
      (mk_tree
         [NC_LIST; NC_STRUCT; NC_FN; NC_VAL; NC_FN; NC_VAL; NC_STRUCT; NC_FN;
          NC_VAL; NC_FN; NC_VAL]
         [-1; 0; 1; 2; 1; 4; 0; 6; 7; 6; 9]
         [0; 1; 2; 3; 2; 3; 1; 2; 3; 2; 3]
         [0; 1; 3; 6; 11; 14; 19; 21; 24; 29; 32]
         [1; 2; 4; 9; 12; 17; 20; 22; 27; 30; 35])
      [0; 1; 2; 3; 4; 5; 1; 2; 3; 4; 5]
      [0; 0; 0; 0; 0; 0; 1; 1; 1; 1; 1] = Ok ct
    /\ unique_col_ids ct = [0; 1; 2; 3; 4; 5]
    /\ Sorted Z.lt (unique_col_ids ct)
    /\ length (max_row_offsets ct) = length (unique_col_ids ct).
Proof.
  eexists. split; [vm_compute; reflexivity|]. split; [reflexivity|].
  match goal with
  | |- Sorted Z.lt (unique_col_ids ?ct) /\ _ =>
      destruct (gather_column_info_shape
                  (mk_tree
                     [NC_LIST; NC_STRUCT; NC_FN; NC_VAL; NC_FN; NC_VAL; NC_STRUCT; NC_FN;
                      NC_VAL; NC_FN; NC_VAL]
                     [-1; 0; 1; 2; 1; 4; 0; 6; 7; 6; 9]
                     [0; 1; 2; 3; 2; 3; 1; 2; 3; 2; 3]
                     [0; 1; 3; 6; 11; 14; 19; 21; 24; 29; 32]
                     [1; 2; 4; 9; 12; 17; 20; 22; 27; 30; 35])
                  [0; 1; 2; 3; 4; 5; 1; 2; 3; 4; 5]
                  [0; 0; 0; 0; 0; 0; 1; 1; 1; 1; 1] ct eq_refl)
        as (_ & _ & _ & _ & _ & Hrows & Hsorted & _)
  end; [vm_compute; reflexivity|].
  split; [exact Hsorted | exact Hrows].
Defined.

End GatherColumnInfo.

(** ** The two tree builders *)

Section BuilderFacts.
Import Tokenizer NodeTree TokenStreams.

Lemma partners_follow_tail token rest :
  partners_follow (token :: rest) = true -> partners_follow rest = true.
Proof.
  destruct token as [tk idx], rest as [|[next nidx] rest]; [reflexivity|].
  cbn [partners_follow]. intros H. apply andb_prop in H. apply H.
Qed.

Lemma partner_is_consumed token_nonzero token idx rest :
  token_nonzero TK_ERR = true ->
  partners_follow ((token, idx) :: rest) = true ->
  is_begin_of_section token &&
  match rest with
  | (next, _) :: _ => token_nonzero (end_of_partner next)
  | [] => false
  end
  = is_begin_of_section token &&
    match rest with
    | (next, _) :: _ => token_eqb (end_of_partner token) next
    | [] => false
    end.
Proof.
  intros Hnz Hp. destruct rest as [|[next nidx] rest]; [reflexivity|].
  cbn [partners_follow] in Hp. apply andb_prop in Hp. destruct Hp as (Hp & _).
  destruct (is_begin_of_section token) eqn:Hb; [|reflexivity].
  cbn [negb orb andb] in *. rewrite Hp.
  destruct token; try discriminate Hb; destruct next; try discriminate Hp; exact Hnz.
Qed.

Lemma token_loop_agree token_nonzero :
  token_nonzero TK_ERR = true ->
  forall tokens skip st n t,
    partners_follow tokens = true ->
    token_loop (fun _ next => token_nonzero (end_of_partner next)) tokens skip st n t
    = token_loop (fun token next => token_eqb (end_of_partner token) next)
                 tokens skip st n t.
Proof.
  intros Hnz. induction tokens as [|[token idx] rest IH]; intros skip st n t Hp;
    [reflexivity|].
  pose proof (partners_follow_tail _ _ Hp) as Hrest.
  pose proof (partner_is_consumed token_nonzero token idx rest Hnz Hp) as Hc.
  cbn [token_loop]. destruct skip; [now apply IH|].
  cbv zeta. rewrite Hc.
  repeat match goal with
         | |- context [if ?b then _ else _] =>
             lazymatch b with
             | context [token_loop] => fail
             | _ => destruct b
             end
         end;
    try (destruct st as [|top below]); rewrite ?IH by exact Hrest; reflexivity.
Qed.

(** X13. On a token stream in which every begin-of-string, begin-of-value
    and begin-of-field-name token is directly followed by its partner,
    the tree builder of nested_json_gpu.cu, which consumes whatever token
    follows such a token, builds the same tree as the reference builder
    of the tests, which consumes the partner only (the enumerator of the
    error token being non-zero). *)
Theorem device_builder_matches_reference token_nonzero tokens :
  token_nonzero TK_ERR = true ->
  partners_follow tokens = true ->
  tree_of_tokens (fun _ next => token_nonzero (end_of_partner next)) tokens
  = tree_of_tokens (fun token next => token_eqb (end_of_partner token) next) tokens.
Proof. intros Hnz Hp. unfold tree_of_tokens. now apply token_loop_agree. Qed.

Lemma device_builder_matches_reference_witness :
  tree_of_tokens (fun _ next => negb (token_eqb (end_of_partner next) TK_BOS))
                 [(TK_BOL, 0); (TK_BOV, 1); (TK_POV, 2); (TK_EOL, 2)]
  = tree_of_tokens (fun token next => token_eqb (end_of_partner token) next)
                   [(TK_BOL, 0); (TK_BOV, 1); (TK_POV, 2); (TK_EOL, 2)]
  /\ tree_of_tokens (fun _ next => negb (token_eqb (end_of_partner next) TK_BOS))
                    [(TK_BOV, 0); (TK_ERR, 1)]
     = Some (mk_tree [NC_VAL] [-1] [0] [0] [1])
  /\ tree_of_tokens (fun token next => token_eqb (end_of_partner token) next)
                    [(TK_BOV, 0); (TK_ERR, 1)]
     = Some (mk_tree [NC_VAL; NC_ERR] [-1; -1] [0; 0] [0; 1] [1; 2]).
Proof.
  split; [|split; reflexivity].
  apply (device_builder_matches_reference (fun tk => negb (token_eqb tk TK_BOS))
           [(TK_BOL, 0); (TK_BOV, 1); (TK_POV, 2); (TK_EOL, 2)]); reflexivity.
Defined.

Lemma partner_is_no_node token next :
  is_begin_of_section token && token_eqb (end_of_partner token) next = true ->
  is_node next = false.
Proof. destruct token, next; cbn; congruence. Qed.

Lemma reference_loop_categories : forall tokens skip st n t t',
  (skip = true -> match tokens with
                  | (token, _) :: _ => is_node token = false
                  | [] => True
                  end) ->
  token_loop (fun token next => token_eqb (end_of_partner token) next)
             tokens skip st n t = Some t' ->
  node_categories t'
  = node_categories t ++ map token_to_node (filter is_node (map fst tokens)).
Proof.
  induction tokens as [|[token idx] rest IH]; intros skip st n t t' Hskip Hrun.
  - cbn in Hrun. injection Hrun as <-. cbn. now rewrite app_nil_r.
  - cbn [token_loop] in Hrun. cbn [map fst filter].
    destruct skip.
    { rewrite (Hskip eq_refl).
      apply (IH false st n t t'); [discriminate | exact Hrun]. }
    cbv zeta in Hrun.
    set (consumed := is_begin_of_section token && _) in Hrun.
    assert (Hnext : consumed = true ->
                    match rest with
                    | (next, _) :: _ => is_node next = false
                    | [] => True
                    end).
    { subst consumed. destruct rest as [|[next nidx] rest']; [trivial|].
      apply partner_is_no_node. }
    assert (Hpush : forall rb re p d,
              node_categories (if is_node token then push_node token rb re p d t else t)
              ++ map token_to_node (filter is_node (map fst rest))
              = node_categories t
                ++ map token_to_node
                     (if is_node token then token :: filter is_node (map fst rest)
                      else filter is_node (map fst rest))).
    { intros rb re p d. destruct (is_node token); [|reflexivity].
      cbn [push_node node_categories map]. now rewrite <- app_assoc. }
    repeat match type of Hrun with
           | context [if ?b then _ else _] =>
               lazymatch b with
               | context [token_loop] => fail
               | is_node _ => fail
               | consumed => fail
               | _ => destruct b
               end
           end;
      try (destruct st as [|top below]; [discriminate Hrun|]);
      apply IH in Hrun; try exact Hnext; rewrite Hrun; apply Hpush.
Qed.

(** X14. The reference builder of the tests drops no node token: the
    categories of the tree it returns are the categories of the node
    tokens of the stream, in stream order; in particular every error
    token becomes an error node. *)
Theorem reference_builder_keeps_node_tokens tokens t :
  tree_of_tokens (fun token next => token_eqb (end_of_partner token) next) tokens
  = Some t ->
  node_categories t = map token_to_node (filter is_node (map fst tokens)).
Proof.
  intros H. apply reference_loop_categories in H; [exact H | discriminate].
Qed.

Lemma reference_builder_keeps_node_tokens_witness :
  exists t,
    tree_of_tokens (fun token next => token_eqb (end_of_partner token) next)
                   [(TK_BOL, 0); (TK_BOV, 1); (TK_ERR, 2); (TK_EOL, 3)] = Some t
    /\ node_categories t = [NC_LIST; NC_VAL; NC_ERR].
Proof.
  eexists. split; [reflexivity|].
  apply (reference_builder_keeps_node_tokens
           [(TK_BOL, 0); (TK_BOV, 1); (TK_ERR, 2); (TK_EOL, 3)]).
  reflexivity.
Defined.

Lemma token_loop_without_pop consume_next : forall tokens skip st n t,
  (forall token, In token (map fst tokens) -> does_pop token = false) ->
  exists t', token_loop consume_next tokens skip st n t = Some t'.
Proof.
  induction tokens as [|[token idx] rest IH]; intros skip st n t Hpop.
  - now eexists.
  - assert (Hrest : forall tk, In tk (map fst rest) -> does_pop tk = false)
      by (intros tk Hin; apply Hpop; now right).
    assert (Htok : does_pop token = false) by (apply Hpop; now left).
    cbn [token_loop]. destruct skip; [now apply IH|]. cbv zeta. rewrite Htok.
    repeat match goal with
           | |- context [if ?b then _ else _] =>
               lazymatch b with
               | context [token_loop] => fail
               | _ => destruct b
               end
           end; now apply IH.
Qed.

(** X15. The tree builder raises its only exception, "Invalid JSON
    input.", at a closing token that finds the parent stack empty: a
    stream without closing tokens always yields a tree, a stream that
    starts with a closing token never does. *)
Theorem builder_raises_only_at_closing_tokens consume_next tokens :
  ((forall token, In token (map fst tokens) -> does_pop token = false) ->
   exists t, tree_of_tokens consume_next tokens = Some t)
  /\ (forall token idx,
        does_pop token = true ->
        tree_of_tokens consume_next ((token, idx) :: tokens) = None).
Proof.
  split.
  - intros Hpop. now apply token_loop_without_pop.
  - intros token idx Hpop. unfold tree_of_tokens. cbn [token_loop]. cbv zeta.
    destruct token; try discriminate Hpop; reflexivity.
Qed.

Lemma builder_raises_only_at_closing_tokens_witness :
  (exists t, tree_of_tokens (fun _ _ => true)
               [(TK_BOL, 0); (TK_BOS, 1); (TK_BFN, 2); (TK_EFN, 4)] = Some t)
  /\ tree_of_tokens (fun _ _ => true) [(TK_EOL, 0); (TK_BOL, 1)] = None.
Proof.
  destruct (builder_raises_only_at_closing_tokens (fun _ _ => true)
              [(TK_BOL, 0); (TK_BOS, 1); (TK_BFN, 2); (TK_EFN, 4)]) as (Hok & _).
  destruct (builder_raises_only_at_closing_tokens (fun _ _ => true) [(TK_BOL, 1)])
    as (_ & Hfail).
  split.
  - apply Hok. intros token Hin. cbn in Hin.
    repeat (destruct Hin as [<- | Hin]; [reflexivity|]). contradiction.
  - apply Hfail. reflexivity.
Defined.

End BuilderFacts.

(** ** The tokenizer *)

Section TokenizerFacts.
Import Tokenizer NodeTree.

Lemma stack_op_symbol_group_quote c :
  stack_op_symbol_group c = 4%nat <-> c = 34.
Proof.
  unfold stack_op_symbol_group.
  repeat match goal with
         | |- context [?a =? ?b] => destruct (Z.eqb_spec a b)
         end; split; intros H; try discriminate H; try lia; reflexivity.
Qed.

Lemma to_stack_op_step s c :
  s <> TT_ESC ->
  to_stack_op_transition s (stack_op_symbol_group c)
  = if c =? 34 then match s with TT_OOS => TT_STR | _ => TT_OOS end else s.
Proof.
  intros Hs. unfold stack_op_symbol_group.
  repeat match goal with
         | |- context [?a =? ?b] => destruct (Z.eqb_spec a b); try lia
         end; destruct s; try reflexivity; contradiction.
Qed.

(** X16. The stack-operation DFA of this revision never enters its
    escape state: a backslash is read like any other character, so after
    any input the DFA is inside a string exactly when it has read an odd
    number of quote characters, escaped or not. *)
Theorem to_stack_op_state_is_quote_parity input :
  Fst.final_state to_stack_op_transition TT_OOS (map stack_op_symbol_group input)
  = if Nat.even (length (filter (fun c => c =? 34) input)) then TT_OOS else TT_STR.
Proof.
  assert (H : forall input s,
            s <> TT_ESC ->
            Fst.final_state to_stack_op_transition s (map stack_op_symbol_group input)
            = if Nat.even (length (filter (fun c => c =? 34) input)) then s
              else match s with TT_OOS => TT_STR | _ => TT_OOS end).
  { clear input. induction input as [|c input IH]; intros s Hs; [reflexivity|].
    cbn [map Fst.final_state filter]. rewrite to_stack_op_step by exact Hs.
    destruct (c =? 34).
    - cbn [length]. rewrite Nat.even_succ, <- Nat.negb_even.
      rewrite IH by (destruct s; discriminate || contradiction).
      destruct (Nat.even _), s; try reflexivity; contradiction.
    - now apply IH. }
  apply H. discriminate.
Qed.

Lemma transduce_length_bound {State Out : Type}
      (transition : State -> nat -> State) (translation : State -> nat -> list Out)
      (bound : nat) :
  (forall s sg, (length (translation s sg) <= bound)%nat) ->
  forall sgids s pos,
    (length (Fst.transduce transition translation s pos sgids)
     <= bound * length sgids)%nat.
Proof.
  intros Hb. induction sgids as [|sg sgids IH]; intros s pos; [cbn; lia|].
  cbn [Fst.transduce]. rewrite length_app, length_map. cbn [length].
  specialize (IH (transition s sg) (pos + 1)). specialize (Hb s sg). nia.
Qed.

Lemma transduce_length_exact {State Out : Type}
      (transition : State -> nat -> State) (translation : State -> nat -> list Out) :
  forall sgids s pos,
    (forall s sg, In sg sgids -> length (translation s sg) = 1%nat) ->
    length (Fst.transduce transition translation s pos sgids) = length sgids.
Proof.
  induction sgids as [|sg sgids IH]; intros s pos Hone; [reflexivity|].
  cbn [Fst.transduce]. rewrite length_app, length_map, Hone by (now left).
  cbn [length Nat.add]. f_equal. apply IH. intros s' sg' Hin. apply Hone. now right.
Qed.

Lemma top_of_stack_length to_op root : forall ops stack,
  length (Fst.top_of_stack_from to_op root stack ops) = length ops.
Proof.
  induction ops as [|s ops IH]; intros stack; [reflexivity|].
  cbn [Fst.top_of_stack_from length]. now rewrite IH.
Qed.

Lemma get_stack_context_length input :
  length (get_stack_context input) = length input.
Proof.
  unfold get_stack_context. cbv zeta.
  rewrite top_of_stack_length, length_map, transduce_length_exact, length_map;
    [reflexivity|].
  intros s sg Hin. apply in_map_iff in Hin. destruct Hin as (c & <- & _).
  unfold stack_op_symbol_group.
  repeat match goal with
         | |- context [?a =? ?b] => destruct (a =? b)
         end; destruct s; reflexivity.
Qed.

Lemma pda_translation_bound s sg : (length (pda_translation s sg) <= 2)%nat.
Proof.
  destruct (Nat.lt_ge_cases sg 30) as [Hlt|Hge].
  - assert (Hall : forallb
                     (fun s => forallb (fun sg => (length (pda_translation s sg) <=? 2)%nat)
                                       (seq 0 30))
                     [PD_BOV; PD_BOA; PD_LON; PD_STR; PD_SCE; PD_PVL;
                      PD_BFN; PD_FLN; PD_FNE; PD_PFN; PD_ERR] = true)
      by (vm_compute; reflexivity).
    rewrite forallb_forall in Hall.
    assert (Hs : In s [PD_BOV; PD_BOA; PD_LON; PD_STR; PD_SCE; PD_PVL;
                       PD_BFN; PD_FLN; PD_FNE; PD_PFN; PD_ERR])
      by (destruct s; cbn; tauto).
    specialize (Hall s Hs). rewrite forallb_forall in Hall.
    apply Nat.leb_le. apply Hall. apply in_seq. lia.
  - unfold pda_translation. rewrite nth_overflow; [cbn; lia|].
    destruct s; cbn; lia.
Qed.

(** X17. The stack context holds one symbol per input byte, and the
    tokenizer emits at most two tokens per input byte; one token per
    byte is not a bound: the three bytes of [[1]] yield four tokens. *)
Theorem token_stream_length_bound input :
  length (get_stack_context input) = length input
  /\ (length (get_token_stream input) <= 2 * length input)%nat
  /\ (length (json_bytes "[1]") < length (get_token_stream (json_bytes "[1]")))%nat.
Proof.
  split; [apply get_stack_context_length|]. split; [|vm_compute; lia].
  unfold get_token_stream. cbv zeta.
  etransitivity; [apply (transduce_length_bound _ _ 2 pda_translation_bound)|].
  rewrite length_map, length_combine, get_stack_context_length, Nat.min_id. lia.
Qed.

End TokenizerFacts.

(** ** The conversion into output columns *)

Section ReaderFacts.
Import NodeTree Materializer Reader Schema.

(** X18. A struct column is converted child by child in the order of
    [column_order]: the result is a struct column with as many rows as
    [current_offset], one child per entry of [column_order], each of that
    many rows, and the schema lists the children under their names in
    that order. *)
Theorem struct_column_children d_input offsets lengths child_offs valid children
        order current c info :
  json_column_to_cudf_column2 d_input
    (mk_json_column StructColumn offsets lengths child_offs valid children order current)
  = Ok (c, info) ->
  exists kids mask nulls,
    c = structs_column current kids mask nulls
    /\ length kids = length order
    /\ Forall (fun kid => column_size kid = current) kids
    /\ map info_name info = order.
Proof.
  cbn [json_column_to_cudf_column2]. intros H.
  match type of H with
  | bind (?each order) _ = _ =>
      assert (Heach : forall names res,
                each names = Ok res ->
                length (fst res) = length names
                /\ Forall (fun kid => column_size kid = current) (fst res)
                /\ map info_name (snd res) = names);
      [|destruct (each order) as [[kids infos]|e] eqn:E; [|discriminate H]]
  end.
  - induction names as [|col_name rest IH]; intros res Hres.
    + cbn in Hres. injection Hres as <-. cbn. repeat split. constructor.
    + cbn in Hres.
      match type of Hres with
      | bind ?found _ = _ => destruct found as [cn|e]; [|discriminate Hres]
      end.
      cbn [bind] in Hres.
      destruct (current =? column_size (fst cn)) eqn:Esize; [|discriminate Hres].
      cbn [CUDF_EXPECTS bind] in Hres.
      match type of Hres with
      | bind ?others _ = _ =>
          destruct others as [rest_res|e] eqn:Erest; [|discriminate Hres]
      end.
      cbn [bind] in Hres. injection Hres as <-. cbn [fst snd length map info_name].
      destruct (IH rest_res eq_refl) as (Hl & Hf & Hn).
      apply Z.eqb_eq in Esize.
      split; [now f_equal|]. split; [constructor; [symmetry; exact Esize | exact Hf]|].
      now f_equal.
  - cbn [bind fst snd] in H. destruct (make_validity valid current) as [mask nulls].
    injection H as <- <-. destruct (Heach order (kids, infos) E) as (Hl & Hf & Hn).
    now exists kids, mask, nulls.
Qed.

Lemma struct_column_children_witness :
  let leaf rows :=
    mk_json_column StringColumn rows [1; 1] [] [true; true] [] [] 2 in
  exists kids mask nulls,
    json_column_to_cudf_column2 (bytes_of_string "abcd")
      (mk_json_column StructColumn [] [] [] [true; true]
         [("a"%string, leaf [2; 3]); ("z"%string, leaf [0; 1])]
         ["z"%string; "a"%string] 2)
    = Ok (structs_column 2 kids mask nulls,
          [name_info "z" [name_info "offsets" []; name_info "chars" []];
           name_info "a" [name_info "offsets" []; name_info "chars" []]])
    /\ length kids = 2%nat.
Proof.
  cbv zeta.
  destruct (struct_column_children (bytes_of_string "abcd") [] [] [] [true; true]
              [("a"%string,
                mk_json_column StringColumn [2; 3] [1; 1] [] [true; true] [] [] 2);
               ("z"%string,
                mk_json_column StringColumn [0; 1] [1; 1] [] [true; true] [] [] 2)]
              ["z"%string; "a"%string] 2
              (structs_column 2
                 [strings_column [[97]; [98]] [] 0; strings_column [[99]; [100]] [] 0]
                 [] 0)
              [name_info "z" [name_info "offsets" []; name_info "chars" []];
               name_info "a" [name_info "offsets" []; name_info "chars" []]])
    as (kids & mask & nulls & Hc & Hlen & _); [vm_compute; reflexivity|].
  exists kids, mask, nulls. split; [|exact Hlen].
  rewrite <- Hc. vm_compute. reflexivity.
Defined.

Lemma for_each_columns convert root_struct_col : forall names out res,
  for_each
    (fun col_name (out : table_with_metadata) =>
       match lookup_name col_name (child_columns root_struct_col) with
       | None => Fail (undefined_behaviour "child_columns.find returned end()")
       | Some json_col =>
           cn <- convert json_col ;;
           Ok (fst out ++ [fst cn], snd out ++ [name_info col_name (snd cn)])
       end) names out = Ok res ->
  length (fst res) = (length (fst out) + length names)%nat
  /\ map info_name (snd res) = map info_name (snd out) ++ names.
Proof.
  induction names as [|col_name rest IH]; intros out res H.
  - cbn in H. injection H as <-. now rewrite Nat.add_0_r, app_nil_r.
  - cbn [for_each] in H.
    destruct (lookup_name col_name (child_columns root_struct_col)) as [json_col|];
      [|discriminate H].
    destruct (convert json_col) as [cn|e]; [|discriminate H].
    cbn [bind] in H. apply IH in H. cbn [fst snd] in H.
    destruct H as (Hl & Hn). rewrite length_app in Hl. rewrite map_app in Hn.
    cbn [map info_name length] in *. rewrite <- app_assoc in Hn. cbn [app] in Hn.
    split; [lia | exact Hn].
Qed.

(** X19. When the last part of [parse_nested_json2] returns a table, the
    data root is a list with a single struct child, and the table has one
    column per entry of that struct's [column_order], named and ordered as
    [column_order] lists them (the order of first appearance, not the
    order of the name map). *)
Theorem table_follows_column_order convert data_root cols infos :
  table_of_data_root convert data_root = Ok (cols, infos) ->
  exists name root_struct_col rest,
    child_columns data_root = (name, root_struct_col) :: rest
    /\ is_array_of_objects data_root = true
    /\ length cols = length (column_order root_struct_col)
    /\ map info_name infos = column_order root_struct_col.
Proof.
  unfold table_of_data_root. intros H.
  destruct (is_array_of_objects data_root) eqn:E; [|discriminate H].
  cbn [CUDF_EXPECTS bind] in H.
  destruct (child_columns data_root) as [|[name root_struct_col] rest]; [discriminate H|].
  apply for_each_columns in H. cbn [fst snd length map app Nat.add] in H.
  exists name, root_struct_col, rest. tauto.
Qed.

Lemma table_follows_column_order_witness :
  exists cols infos,
    table_of_data_root (json_column_to_cudf_column2 (bytes_of_string "abcd"))
      (mk_json_column ListColumn [] [] [0; 2] [true]
         [("element"%string,
           mk_json_column StructColumn [] [] [] [true; true]
             [("a"%string,
               mk_json_column StringColumn [2; 3] [1; 1] [] [true; true] [] [] 2);
              ("b"%string,
               mk_json_column StringColumn [0; 1] [1; 1] [] [true; true] [] [] 2)]
             ["b"%string; "a"%string] 2)]
         ["element"%string] 1)
    = Ok (cols, infos)
    /\ length cols = 2%nat
    /\ map info_name infos = ["b"%string; "a"%string].
Proof.
  do 2 eexists. split; [vm_compute; reflexivity|].
  match goal with
  | |- length ?cols = _ /\ map info_name ?infos = _ =>
      destruct (table_follows_column_order
                  (json_column_to_cudf_column2 (bytes_of_string "abcd"))
                  (mk_json_column ListColumn [] [] [0; 2] [true]
                     [("element"%string,
                       mk_json_column StructColumn [] [] [] [true; true]
                         [("a"%string,
                           mk_json_column StringColumn [2; 3] [1; 1] [] [true; true] [] [] 2);
                          ("b"%string,
                           mk_json_column StringColumn [0; 1] [1; 1] [] [true; true] [] [] 2)]
                         ["b"%string; "a"%string] 2)]
                     ["element"%string] 1)
                  cols infos)
        as (name & root & rest & Hc & _ & Hlen & Hnames)
  end; [vm_compute; reflexivity|].
  cbn [child_columns] in Hc. injection Hc as <- <- <-.
  split; [exact Hlen | exact Hnames].
Defined.

End ReaderFacts.

(** ** When the string decoder fails *)

Section DecoderFailures.
Import NodeTree Caster CasterRows.

Lemma unescape_result_code : forall input advance escape n out,
  result_code (unescape input advance escape n out) <> PARSED_TO_NULL.
Proof.
  induction input as [|c rest IH]; intros advance escape n out.
  - cbn. destruct escape; discriminate.
  - cbn [unescape]. destruct advance; [|apply IH].
    repeat match goal with
           | |- context [if ?b then _ else _] => destruct b
           end; try apply IH; discriminate.
Qed.

Lemma unescape_failure_malformed : forall len body,
  (length body <= len)%nat ->
  forall n out,
    result_code (unescape body 0 false n out) = PARSING_FAILURE ->
    malformed_escape body.
Proof.
  induction len as [|len IH]; intros body Hlen n out Hfail.
  { destruct body; [discriminate Hfail | cbn in Hlen; lia]. }
  destruct body as [|c body]; [discriminate Hfail|].
  cbn [unescape negb] in Hfail. cbn [length] in Hlen.
  destruct (Z.eqb_spec c backslash_char) as [->|Hc].
  2:{ apply after_plain_char; [exact Hc|]. apply (IH body ltac:(lia) _ _ Hfail). }
  destruct body as [|c2 rest]; [apply backslash_at_end|].
  cbn [unescape negb] in Hfail. cbn [length] in Hlen.
  destruct (Z.eqb_spec (get_escape_char c2) NON_ESCAPE_CHAR) as [Enon|Hnon];
    [now apply unrecognised_escape|].
  destruct (Z.eqb_spec (get_escape_char c2) UNICODE_SEQ) as [Euni|Huni]; cbn [negb] in Hfail.
  2:{ apply after_escape; [exact Hnon | | apply (IH rest ltac:(lia) _ _ Hfail)].
      intros ->. apply Huni. reflexivity. }
  apply get_escape_char_unicode in Euni. subst c2.
  destruct (Z.ltb_spec (Z.of_nat (length rest)) UNICODE_HEX_DIGIT_COUNT) as [Hshort|Hlong].
  { apply unicode_without_digits. intros (Hfour & _).
    unfold UNICODE_HEX_DIGIT_COUNT in Hshort. lia. }
  destruct (Z.ltb_spec (parse_unicode_hex rest) 0) as [Hneg|Hpos].
  { apply unicode_without_digits. intros Hd.
    apply parse_unicode_hex_valid in Hd. lia. }
  assert (Hd : four_hex_digits rest) by now apply parse_unicode_hex_valid.
  unfold UNICODE_HEX_DIGIT_COUNT in Hlong.
  apply after_unicode_escape; [exact Hd|].
  set (after := skipn 4 rest) in *.
  assert (Hafter_len : length after = (length rest - 4)%nat)
    by (subst after; apply length_skipn).
  destruct ((NUM_UNICODE_ESC_SEQ_CHARS <=? Z.of_nat (length after))
            && (nth 0 after 0 =? backslash_char) && (nth 1 after 0 =? u_char)) eqn:Hsecond.
  - destruct (is_surrogate_pair (parse_unicode_hex rest)
                                (parse_unicode_hex (skipn 2 after))) eqn:Hpair.
    + apply andb_prop in Hsecond. destruct Hsecond as (Hsecond & Hu).
      apply andb_prop in Hsecond. destruct Hsecond as (Hsix & Hb).
      apply Z.leb_le in Hsix. apply Z.eqb_eq in Hu. apply Z.eqb_eq in Hb.
      unfold NUM_UNICODE_ESC_SEQ_CHARS, UNICODE_ESC_PREFIX, UNICODE_HEX_DIGIT_COUNT in Hsix.
      rewrite unescape_advance in Hfail by lia.
      apply (IH (skipn 10 rest) ltac:(rewrite length_skipn; lia)) in Hfail.
      destruct after as [|a0 [|a1 r2]] eqn:Hafter; cbn [length] in Hsix; try lia.
      cbn [nth] in Hb, Hu. subst a0 a1. cbn [skipn] in Hpair.
      assert (Hlow : four_hex_digits r2).
      { apply parse_unicode_hex_valid. apply is_surrogate_pair_low in Hpair. lia. }
      apply after_unicode_escape; [exact Hlow|].
      replace (skipn 4 r2) with (skipn 10 rest); [exact Hfail|].
      change 10%nat with (6 + 4)%nat. rewrite <- skipn_skipn.
      fold after. rewrite Hafter. reflexivity.
    + rewrite unescape_advance in Hfail by lia. fold after in Hfail.
      apply (IH after ltac:(lia) _ _ Hfail).
  - assert (Hnp : is_surrogate_pair (parse_unicode_hex rest) 0 = false).
    { unfold is_surrogate_pair. cbn. now rewrite !andb_false_r. }
    rewrite Hnp in Hfail. rewrite unescape_advance in Hfail by lia. fold after in Hfail.
    apply (IH after ltac:(lia) _ _ Hfail).
Qed.

(** X20. [process_string] fails exactly on malformed escapes: for a
    string value the result is a parsing failure if and only if the
    string, read from the left one item at a time, runs into a backslash
    at its end, a backslash before a character that is no escape
    character, or a backslash and u not followed by four hex digits; in
    every other case, and for every value that is no string value, the
    result is a success. *)
Theorem process_string_fails_iff_malformed span options :
  (is_string_value options span = true ->
   (result_code (process_string span options) = PARSING_FAILURE
    <-> malformed_escape (string_body options span)))
  /\ (is_string_value options span = false ->
      result_code (process_string span options) = PARSING_SUCCESS)
  /\ (result_code (process_string span options) = PARSING_SUCCESS
      \/ result_code (process_string span options) = PARSING_FAILURE).
Proof.
  split; [|split].
  - intros Hs. split.
    + unfold process_string. rewrite Hs. cbn [negb].
      apply (unescape_failure_malformed (length (string_body options span))). lia.
    + now apply process_string_malformed.
  - intros Hs. unfold process_string. now rewrite Hs.
  - unfold process_string. destruct (is_string_value options span); cbn [negb];
      [|now left].
    pose proof (unescape_result_code (string_body options span) 0 false 0 []) as H.
    destruct (result_code (unescape (string_body options span) 0 false 0 []));
      [now left | contradiction | now right].
Qed.

Lemma process_string_fails_iff_malformed_witness :
  malformed_escape (string_body example_options trailing_backslash_row)
  /\ ~ malformed_escape (string_body example_options escaped_backslash_row).
Proof.
  destruct (process_string_fails_iff_malformed trailing_backslash_row example_options)
    as (Hbad & _).
  destruct (process_string_fails_iff_malformed escaped_backslash_row example_options)
    as (Hgood & _).
  split.
  - apply (Hbad eq_refl). reflexivity.
  - intros H. apply (Hgood eq_refl) in H. discriminate H.
Defined.

End DecoderFailures.

(** ** Columns without escapes through [parse_data] *)

Section PlainRowSteps.
Import NodeTree Caster CasterMask.

Variable options : parse_options_view.
Variable rows : list (list Z).
Hypothesis rows_plain : Forall (Forall (fun c => c <> backslash_char)) rows.




End PlainRowSteps.

Section Passes.
Import NodeTree Caster CasterMask.


Variable handled : Z -> bool.
Variable sz : Z -> Z.




End Passes.

Section Segments.
Import NodeTree Caster CasterMask.

Lemma update_app_middle {A} (l1 l2 : list A) y x :
  update (l1 ++ y :: l2) (Z.of_nat (length l1)) x = l1 ++ x :: l2.
Proof.
  unfold update. rewrite length_app. cbn [length].
  destruct (Z.leb_spec 0 (Z.of_nat (length l1))) as [_|H]; [|lia].
  destruct (Z.ltb_spec (Z.of_nat (length l1)) (Z.of_nat (length l1 + S (length l2))))
    as [_|H]; [|lia].
  cbn [andb]. rewrite Nat2Z.id.
  rewrite firstn_app, Nat.sub_diag, firstn_O, app_nil_r, firstn_all.
  f_equal. f_equal.
  rewrite skipn_app, skipn_all2 by lia.
  replace (S (length l1) - length l1)%nat with 1%nat by lia. reflexivity.
Qed.

Lemma overwrite_splice : forall d (A S B : list Z),
  length S = length d ->
  overwrite (A ++ S ++ B) (Z.of_nat (length A)) d = A ++ d ++ B.
Proof.
  induction d as [|b d IH]; intros A S B Hlen.
  - destruct S; [reflexivity | discriminate Hlen].
  - destruct S as [|s S]; [discriminate Hlen|]. cbn [overwrite app].
    rewrite update_app_middle.
    replace (A ++ b :: S ++ B) with ((A ++ [b]) ++ S ++ B)
      by (now rewrite <- app_assoc).
    replace (Z.of_nat (length A) + 1) with (Z.of_nat (length (A ++ [b])))
      by (rewrite length_app; cbn; lia).
    rewrite IH by (cbn in Hlen; lia). now rewrite <- app_assoc.
Qed.




Variable values : list (list Z).











End Segments.

Section PlainColumns.
Import NodeTree Caster CasterRows CasterMask.

Variable options : parse_options_view.
Variable rows : list (list Z).
Hypothesis rows_plain : Forall (Forall (fun c => c <> backslash_char)) rows.







End PlainColumns.

Section PlainColumnPasses.
Import NodeTree Caster CasterRows CasterMask.

Variable options : parse_options_view.
Variable rows : list (list Z).
Hypothesis rows_plain : Forall (Forall (fun c => c <> backslash_char)) rows.






End PlainColumnPasses.

Section PlainColumnResult.
Import NodeTree Caster CasterRows CasterMask.

Variable options : parse_options_view.
Variable rows : list (list Z).
Hypothesis rows_plain : Forall (Forall (fun c => c <> backslash_char)) rows.











End PlainColumnResult.


(** ** The two passes of the single-thread functor *)

Section TwoPasses.
Import NodeTree Caster CasterRows CasterMask.

(** X4. The size the first pass of [string_parse] records for a row and
    the bytes its second pass stores.  [process_string] counts exactly
    the bytes it stores.  For a row that is looked at (valid, and no null
    literal under a mask), a failed decode records size 0; a successful
    one records the number of decoded bytes, and the second pass then
    fills exactly the room of that size at the row's offset with them,
    leaving the characters before and after it, the mask, the null count
    and the offsets as they are. *)
Theorem size_pass_matches_store_pass options rows idx st :
  d_chars st = None ->
  0 <= idx < Z.of_nat (length (d_offsets st)) ->
  has_mask st && negb (bit_is_set st idx) = false ->
  trie_na options (at_index [] rows idx) && has_mask st = false ->
  let info := process_string (at_index [] rows idx) options in
  let size := at_index 0 (d_offsets (string_parse options rows idx st)) idx in
  bytes info = Z.of_nat (length (written info))
  /\ (result_code info <> PARSING_SUCCESS -> size = 0)
  /\ (result_code info = PARSING_SUCCESS ->
      size = Z.of_nat (length (written info))
      /\ forall st2 before room after,
           has_mask st2 && negb (bit_is_set st2 idx) = false ->
           d_chars st2 = Some (before ++ room ++ after) ->
           at_index 0 (d_offsets st2) idx = Z.of_nat (length before) ->
           Z.of_nat (length room) = size ->
           string_parse options rows idx st2
           = mk_state (null_mask st2) (null_count st2) (d_offsets st2)
                      (Some (before ++ written info ++ after))).
Proof.
  intros Hc Hidx Hskip Hna. cbv zeta.
  set (info := process_string (at_index [] rows idx) options).
  pose proof (process_string_counts_stores (at_index [] rows idx) options) as Hcount.
  fold info in Hcount.
  assert (Hrun : string_parse options rows idx st
                 = if negb (is_success (result_code info))
                   then zero_offset idx (if has_mask st then mark_null idx st else st)
                   else set_offset idx (bytes info) st).
  { unfold string_parse. rewrite Hskip.
    unfold size_pass at 1. rewrite Hc. cbn [andb].
    rewrite Hna. fold info. unfold store_chars. rewrite Hc.
    destruct (negb (is_success (result_code info))); [reflexivity|].
    unfold size_pass. now rewrite Hc. }
  split; [exact Hcount|]. split.
  - intros Hfail. rewrite Hrun.
    destruct (result_code info); [contradiction| |];
      cbn [is_success negb]; unfold zero_offset, size_pass;
      destruct (has_mask st); cbn [mark_null d_chars]; rewrite Hc;
      cbn [set_offset d_offsets mark_null]; now apply at_index_update_same.
  - intros Hok. rewrite Hrun, Hok. cbn [is_success negb set_offset d_offsets].
    rewrite at_index_update_same by exact Hidx.
    split; [exact Hcount|].
    intros st2 before room after Hskip2 Hc2 Hoff Hroom.
    unfold string_parse. rewrite Hskip2.
    unfold size_pass at 1. rewrite Hc2. cbn [andb]. fold info. rewrite Hok.
    cbn [is_success negb]. unfold store_chars. rewrite Hc2.
    unfold size_pass. cbn [d_chars]. rewrite Hoff.
    rewrite overwrite_splice by lia. reflexivity.
Qed.

Lemma size_pass_matches_store_pass_witness :
  at_index 0 (d_offsets (string_parse example_options [plain_row; long_row] 0
                                      two_valid_rows)) 0 = 2
  /\ string_parse example_options [plain_row; long_row] 0
                  (mk_state (Some [true; true]) 0 [0; 2; 132] (Some (Buffer.zeros 132)))
     = mk_state (Some [true; true]) 0 [0; 2; 132]
                (Some ([97; 98] ++ Buffer.zeros 130)).
Proof.
  destruct (size_pass_matches_store_pass example_options [plain_row; long_row] 0
              two_valid_rows eq_refl ltac:(cbn; lia) eq_refl eq_refl)
    as (_ & _ & Hok).
  destruct (Hok eq_refl) as (Hsize & Hstore).
  split; [exact Hsize|].
  apply (Hstore (mk_state (Some [true; true]) 0 [0; 2; 132] (Some (Buffer.zeros 132)))
                [] [0; 0] (Buffer.zeros 130)); reflexivity.
Defined.

End TwoPasses.
